(** * Oberon-07 RISC compiler (Go port): scanner, symbol-file export,
      code-generator fragments and module epilogue, with their properties.

    The development follows the four packages of the compiler:
    - [ors]  the scanner (ors/ors.go),
    - [orb]  the symbol table and the symbol-file writer (orb/orb.go),
    - [org]  the code generator (second half of orb/orb.go),
    - [orp]  the parser's module epilogue.

    Go's [int32] is a [Z] kept in range by [i32]; Go's [int] (64 bits on
    the platforms the compiler is built for) is a [Z] kept in range by
    [i64].  Mutable receivers become explicit state threaded through a
    small state monad with failure; loops that Go writes with [for] take a
    fuel argument and yield no result when the fuel runs out. *)

From Stdlib Require Import ZArith List String Ascii Bool Lia.
From Stdlib Require Import DecimalString.
Import ListNotations.

Local Open Scope string_scope.
Local Open Scope list_scope.
Local Open Scope Z_scope.

(** ** Machine integers *)

Definition wrap (bits : Z) (x : Z) : Z :=
  (x + 2 ^ (bits - 1)) mod 2 ^ bits - 2 ^ (bits - 1).

(** Result of an [int32] operation: two's complement wrap-around. *)
Definition i32 (x : Z) : Z := wrap 32 x.

(** Result of an [int] operation. *)
Definition i64 (x : Z) : Z := wrap 64 x.

(** Conversion [uint32(x)]. *)
Definition u32 (x : Z) : Z := x mod 2 ^ 32.

Definition in_i32 (x : Z) : Prop := - 2 ^ 31 <= x < 2 ^ 31.
Definition in_i64 (x : Z) : Prop := - 2 ^ 63 <= x < 2 ^ 63.

(** Bytes are [ascii] values.  [byteOf x] is the conversion [byte(x)], the
    low eight bits; [code c] the number of a byte. *)
Definition byte : Set := ascii.
Definition byteOf (x : Z) : byte := ascii_of_N (Z.to_N (x mod 256)).
Definition code (c : ascii) : Z := Z.of_N (N_of_ascii c).

(** Arrays: reading or writing outside the bounds panics. *)
Definition arrGet {A} (a : list A) (i : Z) : option A :=
  if (0 <=? i) && (i <? Z.of_nat (List.length a))
  then nth_error a (Z.to_nat i) else None.

Fixpoint setNth {A} (a : list A) (n : nat) (v : A) : list A :=
  match a, n with
  | [], _ => []
  | _ :: a', O => v :: a'
  | x :: a', S n' => x :: setNth a' n' v
  end.

Definition arrSet {A} (a : list A) (i : Z) (v : A) : option (list A) :=
  if (0 <=? i) && (i <? Z.of_nat (List.length a))
  then Some (setNth a (Z.to_nat i) v) else None.

(** ** State monad with failure

    [None] stands for a computation that yields no result: a Go panic or
    exhausted fuel. *)

Definition M (St A : Type) : Type := St -> option (A * St).

Definition ret {St A} (a : A) : M St A := fun s => Some (a, s).

Definition bind {St A B} (m : M St A) (k : A -> M St B) : M St B :=
  fun s => match m s with
           | Some (a, s') => k a s'
           | None => None
           end.

Definition get {St} : M St St := fun s => Some (s, s).
Definition gets {St A} (f : St -> A) : M St A := fun s => Some (f s, s).
Definition modify {St} (f : St -> St) : M St unit := fun s => Some (tt, f s).
Definition fail {St A} : M St A := fun _ => None.

(** A value that must be present: [None] is a nil dereference or an index
    out of range. *)
Definition must {St A} (o : option A) : M St A :=
  match o with
  | Some a => ret a
  | None => fail
  end.

Declare Scope monad_scope.
Delimit Scope monad_scope with monad.
Notation "x <- m ;; k" := (bind m (fun x => k))
  (at level 61, m at next level, right associativity) : monad_scope.
Notation "m ;; k" := (bind m (fun _ => k))
  (at level 61, right associativity) : monad_scope.
Notation "' pat <- m ;; k" := (bind m (fun x => match x with pat => k end))
  (at level 61, pat pattern, m at next level, right associativity) : monad_scope.
Local Open Scope monad_scope.

Definition when {St} (b : bool) (m : M St unit) : M St unit :=
  if b then m else ret tt.

(** A Go [for] loop with loop-carried locals of type [A]: the body either
    continues with new locals ([inl]) or leaves the loop with a result
    ([inr]). *)
Fixpoint loop {St A B} (fuel : nat) (body : A -> M St (A + B)) (a : A)
  : M St B :=
  match fuel with
  | O => fail
  | S n => r <- body a ;;
           match r with
           | inl a' => loop n body a'
           | inr b => ret b
           end
  end.

(** [for _, x := range xs { body }] with loop-carried locals. *)
Fixpoint forRange {St A X} (xs : list X) (body : X -> A -> M St A) (a : A)
  : M St A :=
  match xs with
  | [] => ret a
  | x :: xs' => a' <- body x a ;; forRange xs' body a'
  end.

(** Run a computation for its final state. *)
Definition exec {St A} (m : M St A) (s : St) : option St :=
  option_map snd (m s).

Definition eval {St A} (m : M St A) (s : St) : option A :=
  option_map fst (m s).

(** Lift a computation on a component of the state. *)
Definition zoom {St T A} (proj : St -> T) (upd : T -> St -> St)
  (m : M T A) : M St A :=
  fun s => match m (proj s) with
           | Some (a, t) => Some (a, upd t s)
           | None => None
           end.

(** Preservation of a state predicate by a computation. *)
Definition preserves {St A} (I : St -> Prop) (m : M St A) : Prop :=
  forall s a s', I s -> m s = Some (a, s') -> I s'.

(** The weakest precondition of a postcondition [Q]: what must hold of
    the initial state for [Q] to hold whenever the computation yields a
    result. *)
Definition wp {St A} (m : M St A) (Q : A -> St -> Prop) (s : St) : Prop :=
  match m s with
  | Some (a, s') => Q a s'
  | None => True
  end.

(** Two runs of a computation from states related by [R] give the same
    result and related states. *)
Definition agree {St A} (R : St -> St -> Prop) (m : M St A) : Prop :=
  forall s t a b s' t',
    R s t -> m s = Some (a, s') -> m t = Some (b, t') -> a = b /\ R s' t'.

(** Total correctness: the computation yields a result, and [Q] holds of
    it. *)
Definition twp {St A} (m : M St A) (Q : A -> St -> Prop) (s : St) : Prop :=
  match m s with
  | Some (a, s') => Q a s'
  | None => False
  end.

(** ** Package ors: the scanner *)

Module ors.

Definition IdLen : Z := 32.
Definition maxExp : Z := 38.
Definition stringBufSize : Z := 256.

(** lexical symbols; order is relevant *)
Inductive Sym : Set :=
| symNull | SymTimes | SymRdiv | SymDiv | SymMod | SymAnd | SymPlus
| SymMinus | SymOr | SymEql | SymNeq | SymLss | SymLeq | SymGtr | SymGeq
| SymIn | SymIs | SymArrow | SymPeriod | SymChar | SymInt | SymReal
| SymFalse | SymTrue | SymNil | SymString | SymNot | SymLparen | SymLbrak
| SymLbrace | SymIdent | SymIf | SymWhile | SymRepeat | SymCase | SymFor
| SymComma | SymColon | SymBecomes | SymUpto | SymRparen | SymRbrak
| SymRbrace | SymThen | SymOf | SymDo | SymTo | SymBy | SymSemicolon
| SymEnd | SymBar | SymElse | SymElsif | SymUntil | SymReturn | SymArray
| SymRecord | SymPointer | SymConst | SymType | SymVar | SymProcedure
| SymBegin | SymImport | SymModule | SymEot.

Definition Sym_eqb (a b : Sym) : bool :=
  match a, b with
  | symNull, symNull | SymTimes, SymTimes | SymRdiv, SymRdiv
  | SymDiv, SymDiv | SymMod, SymMod | SymAnd, SymAnd | SymPlus, SymPlus
  | SymMinus, SymMinus | SymOr, SymOr | SymEql, SymEql | SymNeq, SymNeq
  | SymLss, SymLss | SymLeq, SymLeq | SymGtr, SymGtr | SymGeq, SymGeq
  | SymIn, SymIn | SymIs, SymIs | SymArrow, SymArrow
  | SymPeriod, SymPeriod | SymChar, SymChar | SymInt, SymInt
  | SymReal, SymReal | SymFalse, SymFalse | SymTrue, SymTrue
  | SymNil, SymNil | SymString, SymString | SymNot, SymNot
  | SymLparen, SymLparen | SymLbrak, SymLbrak | SymLbrace, SymLbrace
  | SymIdent, SymIdent | SymIf, SymIf | SymWhile, SymWhile
  | SymRepeat, SymRepeat | SymCase, SymCase | SymFor, SymFor
  | SymComma, SymComma | SymColon, SymColon | SymBecomes, SymBecomes
  | SymUpto, SymUpto | SymRparen, SymRparen | SymRbrak, SymRbrak
  | SymRbrace, SymRbrace | SymThen, SymThen | SymOf, SymOf | SymDo, SymDo
  | SymTo, SymTo | SymBy, SymBy | SymSemicolon, SymSemicolon
  | SymEnd, SymEnd | SymBar, SymBar | SymElse, SymElse
  | SymElsif, SymElsif | SymUntil, SymUntil | SymReturn, SymReturn
  | SymArray, SymArray | SymRecord, SymRecord | SymPointer, SymPointer
  | SymConst, SymConst | SymType, SymType | SymVar, SymVar
  | SymProcedure, SymProcedure | SymBegin, SymBegin
  | SymImport, SymImport | SymModule, SymModule | SymEot, SymEot => true
  | _, _ => false
  end.

Definition Ident : Set := string.

Definition keyTab : list (Ident * Sym) :=
  [ ("ARRAY", SymArray); ("BEGIN", SymBegin); ("BY", SymBy);
    ("CASE", SymCase); ("CONST", SymConst); ("DIV", SymDiv);
    ("DO", SymDo); ("ELSE", SymElse); ("ELSIF", SymElsif);
    ("END", SymEnd); ("FALSE", SymFalse); ("FOR", SymFor); ("IF", SymIf);
    ("IMPORT", SymImport); ("IN", SymIn); ("IS", SymIs); ("MOD", SymMod);
    ("MODULE", SymModule); ("NIL", SymNil); ("OF", SymOf); ("OR", SymOr);
    ("POINTER", SymPointer); ("PROCEDURE", SymProcedure);
    ("RECORD", SymRecord); ("REPEAT", SymRepeat); ("RETURN", SymReturn);
    ("THEN", SymThen); ("TO", SymTo); ("TRUE", SymTrue); ("TYPE", SymType);
    ("UNTIL", SymUntil); ("VAR", SymVar); ("WHILE", SymWhile) ].

(** Lookup in the keyword map. *)
Fixpoint lookup (tab : list (Ident * Sym)) (id : Ident) : option Sym :=
  match tab with
  | [] => None
  | (k, v) :: tab' => if String.eqb k id then Some v else lookup tab' id
  end.

(** The [float32] arithmetic of real literals is kept symbolic: a term
    records which operations the scanner applies, none is evaluated. *)
Inductive f32 : Set :=
| F32const (n : Z)                 (* float32(n) *)
| F32bits (u : Z)                  (* math.Float32frombits(u) *)
| F32mul10add (x : f32) (d : Z)    (* x*10.0 + float32(d) *)
| F32mulTen (e : Z) (x : f32)      (* ten(e) * x *)
| F32divTen (x : f32) (e : Z).     (* x / ten(e) *)

Record Scanner : Type := mkScanner {
  Ival : Z;          (* int32 *)
  Rval : f32;
  Id : Ident;
  Str : string;      (* []byte *)
  ErrCnt : Z;        (* int *)
  ch : ascii;        (* last character read *)
  eot : bool;
  errPos : Z;        (* int *)
  pos : Z;           (* int *)
  r : string;        (* bytes not yet delivered by the reader *)
  w : list string;   (* what has been written to the writer, one entry
                        per Fprintf call *)
  marked : list (Z * string)
                     (* history variable, not a field of the Go struct:
                        position and message of every call of Mark *)
}.

Definition NewScanner (input : string) : Scanner :=
  {| Ival := 0; Rval := F32const 0; Id := ""; Str := ""; ErrCnt := 0;
     ch := zero; eot := false; errPos := 0; pos := 0; r := input;
     w := []; marked := [] |}.

Definition set_Ival v s := {| Ival := v; Rval := Rval s; Id := Id s; Str := Str s; ErrCnt := ErrCnt s; ch := ch s; eot := eot s; errPos := errPos s; pos := pos s; r := r s; w := w s; marked := marked s |}.
Definition set_Rval v s := {| Ival := Ival s; Rval := v; Id := Id s; Str := Str s; ErrCnt := ErrCnt s; ch := ch s; eot := eot s; errPos := errPos s; pos := pos s; r := r s; w := w s; marked := marked s |}.
Definition set_Id v s := {| Ival := Ival s; Rval := Rval s; Id := v; Str := Str s; ErrCnt := ErrCnt s; ch := ch s; eot := eot s; errPos := errPos s; pos := pos s; r := r s; w := w s; marked := marked s |}.
Definition set_Str v s := {| Ival := Ival s; Rval := Rval s; Id := Id s; Str := v; ErrCnt := ErrCnt s; ch := ch s; eot := eot s; errPos := errPos s; pos := pos s; r := r s; w := w s; marked := marked s |}.
Definition set_ch v s := {| Ival := Ival s; Rval := Rval s; Id := Id s; Str := Str s; ErrCnt := ErrCnt s; ch := v; eot := eot s; errPos := errPos s; pos := pos s; r := r s; w := w s; marked := marked s |}.

Definition St := M Scanner.

(** The comparisons the scanner makes on bytes. *)
Definition chLt (a b : ascii) : bool := code a <? code b.
Definition chLe (a b : ascii) : bool := code a <=? code b.
Definition chEq (a b : ascii) : bool := Ascii.eqb a b.

Definition strLen (b : string) : Z := Z.of_nat (String.length b).
(** [buf.WriteByte(c)] *)
Definition writeByte (b : string) (c : ascii) : string :=
  (b ++ String c EmptyString)%string.

(** Decimal rendering of an [int], as [%d] prints it. *)
Definition fmtInt (p : Z) : string := NilZero.string_of_int (Z.to_int p).

Definition Pos (s : Scanner) : Z := i64 (pos s - 1).

Definition Mark (msg : string) : St unit :=
  fun s =>
    let p := Pos s in
    let out :=
      if (errPos s <? p) && (ErrCnt s <? 25)
      then w s ++ [String "010" ("  pos " ++ fmtInt p ++ " " ++ msg)%string]
      else w s in
    Some (tt, {| Ival := Ival s; Rval := Rval s; Id := Id s; Str := Str s;
                 ErrCnt := i64 (ErrCnt s + 1);
                 ch := ch s; eot := eot s;
                 errPos := i64 (p + 4);
                 pos := pos s; r := r s; w := out;
                 marked := marked s ++ [(p, msg)] |}).

(** [ReadByte] on the in-memory reader: at the end of the input it
    returns byte 0 together with [io.EOF]. *)
Definition nextCh : St unit :=
  fun s =>
    match r s with
    | String c rest =>
        Some (tt, {| Ival := Ival s; Rval := Rval s; Id := Id s;
                     Str := Str s; ErrCnt := ErrCnt s; ch := c;
                     eot := eot s; errPos := errPos s;
                     pos := i64 (pos s + 1); r := rest; w := w s;
                     marked := marked s |})
    | EmptyString =>
        Some (tt, {| Ival := Ival s; Rval := Rval s; Id := Id s;
                     Str := Str s; ErrCnt := ErrCnt s; ch := zero;
                     eot := true; errPos := errPos s;
                     pos := i64 (pos s + 1); r := EmptyString; w := w s;
                     marked := marked s |})
    end.

Definition isDigit (c : ascii) : bool := chLe "0" c && chLe c "9".
Definition isUpper (c : ascii) : bool := chLe "A" c && chLe c "Z".
Definition isLower (c : ascii) : bool := chLe "a" c && chLe c "z".
Definition isHexLetter (c : ascii) : bool := chLe "A" c && chLe c "F".

(** Body of the [for] loop of [identifier]; [buf] is its buffer. *)
Definition identifierBody (buf : string) : St (string + string) :=
  c <- gets ch ;;
  let buf := if strLen buf <? IdLen - 1 then writeByte buf c else buf in
  nextCh ;;
  c <- gets ch ;;
  if (chLt c "0" || chLt "9" c) && (chLt c "A" || chLt "Z" c)
     && (chLt c "a" || chLt "z" c)
  then ret (inr buf) else ret (inl buf).

Definition identifier (fuel : nat) : St Sym :=
  buf <- loop fuel identifierBody "" ;;
  modify (set_Id buf) ;;
  (* lookup keyword *)
  match lookup keyTab buf with
  | Some kwSym => ret kwSym
  | None => ret SymIdent
  end.

Definition string_ (fuel : nat) : St unit :=
  nextCh ;;
  buf <- loop fuel (fun buf : string =>
           e <- gets eot ;; c <- gets ch ;;
           if negb e && negb (chEq c "034")
           then
             buf <- (if chLe " " c
                     then if strLen buf <? stringBufSize - 1
                          then ret (writeByte buf c)
                          else Mark "string too long" ;; ret buf
                     else ret buf) ;;
             nextCh ;;
             ret (inl buf)
           else ret (inr buf)) "" ;;
  modify (set_Str (writeByte buf zero)) ;;
  nextCh.

Definition hexDigit : St Z :=
  c <- gets ch ;;
  if chLe "0" c && chLe c "9" then ret (code c - 48)
  else if chLe "A" c && chLe c "F" then ret (code c - 55)
  else Mark "hexdig expected" ;; ret 0.

Definition hexString (fuel : nat) : St unit :=
  nextCh ;;
  buf <- loop fuel (fun buf : string =>
           e <- gets eot ;; c <- gets ch ;;
           if negb e && negb (chEq c "$")
           then
             loop fuel (fun _ : unit =>   (* skip *)
               e <- gets eot ;; c <- gets ch ;;
               if negb e && chLe c " "
               then nextCh ;; ret (inl tt) else ret (inr tt)) tt ;;
             m <- hexDigit ;;
             nextCh ;;
             n <- hexDigit ;;
             buf <- (if strLen buf <? stringBufSize
                     then ret (writeByte buf (byteOf (m * 16 + n)))
                     else Mark "string too long" ;; ret buf) ;;
             nextCh ;;
             ret (inl buf)
           else ret (inr buf)) "" ;;
  (* no '\0' appended! *)
  modify (set_Str buf) ;;
  nextCh.

Definition decimalInteger (digits : list Z) : St Z :=
  let max := 2147483647 in
  forRange digits (fun d k =>
    if d <? 10
    then if k <=? Z.quot (max - d) 10
         then ret (i64 (k * 10 + d))
         else Mark "too large" ;; ret 0
    else Mark "bad integer" ;; ret k) 0.

(** The fold of the hexadecimal digits in [number]. *)
Definition hexFold (d : list Z) : Z :=
  fold_left (fun k h =>
    let h := if 10 <=? h then h - 7 else h in
    i64 (k * 16 + h)) (* no overflow check *) d 0.

(** Body of the digit-collecting [for] loop of [number]; [d] is the
    digit slice. *)
Definition digitsBody (d : list Z) : St (list Z + list Z) :=
  c <- gets ch ;;
  d <- (if Z.of_nat (List.length d) <? 16
        then ret (d ++ [code c - 48])
        else Mark "too many digits" ;; ret []) ;;
  nextCh ;;
  c <- gets ch ;;
  if (chLt c "0" || chLt "9" c) && (chLt c "A" || chLt "F" c)
  then ret (inr d) else ret (inl d).

Definition number (fuel : nat) : St Sym :=
  modify (set_Ival 0) ;;
  d <- loop fuel digitsBody [] ;;
  c <- gets ch ;;
  if chEq c "H" || chEq c "R" || chEq c "X" then   (* hex *)
    let k := hexFold d in
    sym <- (if chEq c "X" then
              (if k <? 256 then modify (set_Ival (i32 k))
               else Mark "illegal value" ;; modify (set_Ival 0)) ;;
              ret SymChar
            else if chEq c "R" then
              modify (set_Rval (F32bits (u32 k))) ;;
              ret SymReal
            else
              modify (set_Ival (i32 k)) ;;
              ret SymInt) ;;
    nextCh ;;
    ret sym
  else if chEq c "." then
    nextCh ;;
    c <- gets ch ;;
    if chEq c "." then   (* double dot *)
      modify (set_ch "127") ;;
      (* decimal integer *)
      k <- decimalInteger d ;;
      modify (set_Ival (i32 k)) ;;
      ret SymInt
    else
      (* real number *)
      let x := fold_left (fun x dd => F32mul10add x dd) d (F32const 0) in
      '(x, e) <- loop fuel (fun xe : f32 * Z =>   (* fraction *)
           let '(x, e) := xe in
           c <- gets ch ;;
           if chLe "0" c && chLe c "9"
           then nextCh ;;
                ret (inl (F32mul10add x (code c - 48), i64 (e - 1)))
           else ret (inr (x, e))) (x, 0) ;;
      c <- gets ch ;;
      e <- (if chEq c "E" || chEq c "D" then   (* scale factor *)
              nextCh ;;
              c <- gets ch ;;
              negE <- (if chEq c "-" then nextCh ;; ret true
                       else when (chEq c "+") nextCh ;; ret false) ;;
              c <- gets ch ;;
              if chLe "0" c && chLe c "9" then
                sf <- loop fuel (fun sf : Z =>
                        c <- gets ch ;;
                        let sf := i64 (sf * 10 + (code c - 48)) in
                        nextCh ;;
                        c <- gets ch ;;
                        if chLt c "0" || chLt "9" c
                        then ret (inr sf) else ret (inl sf)) 0 ;;
                ret (if negE : bool then i64 (e - sf) else i64 (e + sf))
              else Mark "digit?" ;; ret e
            else ret e) ;;
      x <- (if e <? 0 then
              if - maxExp <=? e then ret (F32divTen x (- e))
              else ret (F32const 0)
            else if 0 <? e then
              if e <=? maxExp then ret (F32mulTen e x)
              else Mark "too large" ;; ret (F32const 0)
            else ret x) ;;
      modify (set_Rval x) ;;
      ret SymReal
  else
    (* decimal integer *)
    k <- decimalInteger d ;;
    modify (set_Ival (i32 k)) ;;
    ret SymInt.

Fixpoint comment (fuel : nat) : St unit :=
  match fuel with
  | O => fail
  | S n =>
    nextCh ;;
    loop fuel (fun _ : unit =>
      loop fuel (fun _ : unit =>
        e <- gets eot ;; c <- gets ch ;;
        if negb e && negb (chEq c "*")
        then
          (if chEq c "("
           then nextCh ;;
                c <- gets ch ;;
                when (chEq c "*") (comment n)
           else nextCh) ;;
          ret (inl tt)
        else ret (inr tt)) tt ;;
      loop fuel (fun _ : unit =>
        c <- gets ch ;;
        if chEq c "*" then nextCh ;; ret (inl tt) else ret (inr tt)) tt ;;
      c <- gets ch ;; e <- gets eot ;;
      if chEq c ")" || e then ret (inr tt) else ret (inl tt)) tt ;;
    e <- gets eot ;;
    if negb e then nextCh else Mark "unterminated comment"
  end.

(** One pass through the body of the [for sym == symNull] loop of [Get]. *)
Definition Get1 (fuel : nat) : St Sym :=
  loop fuel (fun _ : unit =>
    e <- gets eot ;; c <- gets ch ;;
    if negb e && chLe c " " then nextCh ;; ret (inl tt) else ret (inr tt))
    tt ;;
  e <- gets eot ;; c <- gets ch ;;
  if e then ret SymEot
  else if chLt c "A" then
    if chLt c "0" then
      if chEq c "034" then string_ fuel ;; ret SymString
      else if chEq c "#" then nextCh ;; ret SymNeq
      else if chEq c "$" then hexString fuel ;; ret SymString
      else if chEq c "&" then nextCh ;; ret SymAnd
      else if chEq c "(" then
        nextCh ;;
        c <- gets ch ;;
        if chEq c "*" then comment fuel ;; ret symNull
        else ret SymLparen
      else if chEq c ")" then nextCh ;; ret SymRparen
      else if chEq c "*" then nextCh ;; ret SymTimes
      else if chEq c "+" then nextCh ;; ret SymPlus
      else if chEq c "," then nextCh ;; ret SymComma
      else if chEq c "-" then nextCh ;; ret SymMinus
      else if chEq c "." then
        nextCh ;;
        c <- gets ch ;;
        if chEq c "." then nextCh ;; ret SymUpto else ret SymPeriod
      else if chEq c "/" then nextCh ;; ret SymRdiv
      else (* ! % ' *) nextCh ;; ret symNull
    else if chLt c ":" then number fuel
    else if chEq c ":" then
      nextCh ;;
      c <- gets ch ;;
      if chEq c "=" then nextCh ;; ret SymBecomes else ret SymColon
    else if chEq c ";" then nextCh ;; ret SymSemicolon
    else if chEq c "<" then
      nextCh ;;
      c <- gets ch ;;
      if chEq c "=" then nextCh ;; ret SymLeq else ret SymLss
    else if chEq c "=" then nextCh ;; ret SymEql
    else if chEq c ">" then
      nextCh ;;
      c <- gets ch ;;
      if chEq c "=" then nextCh ;; ret SymGeq else ret SymGtr
    else (* ? @ *) nextCh ;; ret symNull
  else if chLt c "[" then identifier fuel
  else if chLt c "a" then
    let sym := if chEq c "[" then SymLbrak
               else if chEq c "]" then SymRbrak
               else if chEq c "^" then SymArrow
               else (* _ ` *) symNull in
    nextCh ;; ret sym
  else if chLt c "{" then identifier fuel
  else
    let sym := if chEq c "{" then SymLbrace
               else if chEq c "}" then SymRbrace
               else if chEq c "|" then SymBar
               else if chEq c "~" then SymNot
               else if chEq c "127" then SymUpto
               else symNull in
    nextCh ;; ret sym.

Definition Get (fuel : nat) : St Sym :=
  loop fuel (fun _ : unit =>
    sym <- Get1 fuel ;;
    if Sym_eqb sym symNull then ret (inl tt) else ret (inr sym)) tt.

(** Scanning an input to its end: [Get] is called until it delivers
    [SymEot]; the symbols delivered before it are collected. *)
Definition scan (fuel : nat) : St (list Sym) :=
  loop fuel (fun acc : list Sym =>
    sym <- Get fuel ;;
    if Sym_eqb sym SymEot then ret (inr acc) else ret (inl (acc ++ [sym])))
    [].

(** The default fuel: each pass of each loop reads a byte or stops at the
    end of the input. *)
Definition fuelFor (input : string) : nat := S (S (String.length input)).

Definition scanText (input : string) : option (list Sym * Scanner) :=
  scan (fuelFor input) (NewScanner input).

End ors.



(** ** Package files: the byte-level readers and writers *)

Module files.

Definition WriteByte (w : list byte) (ch : byte) : list byte := w ++ [ch].

Definition Write (w : list byte) (ch : Z) : list byte :=
  WriteByte w (byteOf ch).

Definition WriteString (w : list byte) (x : string) : list byte :=
  WriteByte (fold_left WriteByte (list_ascii_of_string x) w) zero.

(** Little-endian bytes of [uint32(x)]. *)
Definition WriteInt (w : list byte) (x : Z) : list byte :=
  let u := u32 x in
  fold_left WriteByte
    [byteOf u; byteOf (Z.shiftr u 8); byteOf (Z.shiftr u 16);
     byteOf (Z.shiftr u 24)] w.

(** The loop of [WriteNum]; an [int32] needs at most five passes. *)
Fixpoint writeNumLoop (fuel : nat) (w : list byte) (x : Z) : list byte :=
  match fuel with
  | O => w
  | S n =>
      if (x <? - 64) || (64 <=? x)
      then writeNumLoop n
             (WriteByte w (byteOf (code (byteOf x) mod 128 + 128)))
             (Z.shiftr x 7)
      else WriteByte w (byteOf (code (byteOf x) mod 128))
  end.

Definition WriteNum (w : list byte) (x : Z) : list byte :=
  writeNumLoop 5 w x.

(** The little-endian [int32] made of four bytes. *)
Definition int32Of (b0 b1 b2 b3 : byte) : Z :=
  i32 (code b0 + 256 * code b1 + 65536 * code b2 + 16777216 * code b3).

Inductive readResult : Type :=
| ReadOk (x : Z) (rest : list byte)
| ReadEOF            (* io.EOF: no byte left *)
| ReadPanic.         (* io.ErrUnexpectedEOF: one to three bytes left *)

Definition ReadIntWithEOF (r : list byte) : readResult :=
  match r with
  | b0 :: b1 :: b2 :: b3 :: rest => ReadOk (int32Of b0 b1 b2 b3) rest
  | [] => ReadEOF
  | _ => ReadPanic
  end.

(** [ReadInt] panics on any error. *)
Definition ReadInt (r : list byte) : option (Z * list byte) :=
  match r with
  | b0 :: b1 :: b2 :: b3 :: rest => Some (int32Of b0 b1 b2 b3, rest)
  | _ => None
  end.

(** [ReadByte] panics at the end of the input. *)
Definition ReadByte (r : list byte) : option (byte * list byte) :=
  match r with
  | b :: rest => Some (b, rest)
  | [] => None
  end.

(** [Read]: a byte as a signed number. *)
Definition Read (r : list byte) : option (Z * list byte) :=
  match ReadByte r with
  | Some (b, rest) =>
      Some (if code b <? 128 then i32 (code b) else i32 (code b - 256), rest)
  | None => None
  end.

(** [bits.RotateLeft32(x, k)]: [x<<s | x>>(32-s)] with [s = uint(k) & 31],
    on 32 bits. *)
Definition RotateLeft32 (x k : Z) : Z :=
  let s := Z.land k 31 in
  u32 (Z.lor (Z.shiftl x s) (Z.shiftr x (32 - s))).

(** The loop of [ReadNum]: [n] and [y] are its locals, [b] the byte read
    last. *)
Fixpoint readNumLoop (r : list byte) (n y : Z) (b : byte)
  : option (Z * Z * byte * list byte) :=
  if 128 <=? code b then
    match r with
    | b' :: rest =>
        readNumLoop rest (i64 (n - 7))
          (RotateLeft32 (u32 (i64 (i64 (y + code b) - 128))) (-7)) b'
    | [] => None
    end
  else Some (n, y, b, r).

(** The statement after the loop of [ReadNum]; a negative shift count
    panics. *)
Definition readNumEnd (n y : Z) (b : byte) : option Z :=
  if n <=? 4
  then Some (i32 (RotateLeft32 (u32 (i64 (y + Z.rem (code b) 16))) (-4)))
  else if i64 (n - 7) <? 0 then None
  else Some (Z.shiftr (i32 (RotateLeft32 (u32 (i64 (y + code b))) (-7)))
               (i64 (n - 7))).

Definition ReadNum (r : list byte) : option (Z * list byte) :=
  match ReadByte r with
  | Some (b, rest) =>
      match readNumLoop rest 32 0 b with
      | Some (n, y, b, rest) =>
          match readNumEnd n y b with
          | Some x => Some (x, rest)
          | None => None
          end
      | None => None
      end
  | None => None
  end.

(** The loop of [ReadString]; [buf] is its buffer. *)
Fixpoint readStringLoop (r : list byte) (buf : string)
  : option (string * list byte) :=
  match r with
  | b :: rest =>
      if code b =? 0 then Some (buf, rest)
      else readStringLoop rest (buf ++ String b EmptyString)%string
  | [] => None
  end.

Definition ReadString (r : list byte) : option (string * list byte) :=
  readStringLoop r EmptyString.

End files.

(** ** Package orb: the symbol table and the export of symbol files *)

Module orb.

Definition VersionKey : Z := 1.
Definition maxTypTab : Z := 64.

(** class values *)
Definition ClassHead : Z := 0.
Definition ClassConst : Z := 1.
Definition ClassVar : Z := 2.
Definition ClassPar : Z := 3.
Definition ClassFld : Z := 4.
Definition ClassTyp : Z := 5.
Definition ClassSProc : Z := 6.
Definition ClassSFunc : Z := 7.
Definition ClassMod : Z := 8.

(** form values; order is relevant *)
Definition FormByte : Z := 1.
Definition FormBool : Z := 2.
Definition FormChar : Z := 3.
Definition FormInt : Z := 4.
Definition FormReal : Z := 5.
Definition FormSet : Z := 6.
Definition FormPointer : Z := 7.
Definition FormNilTyp : Z := 8.
Definition FormNoTyp : Z := 9.
Definition FormProc : Z := 10.
Definition FormString : Z := 11.
Definition FormArray : Z := 12.
Definition FormRecord : Z := 13.

(** A pointer is an index into the store of its target type, or nil. *)
Definition ptr : Set := option nat.
Definition ptrEq (a b : ptr) : bool :=
  match a, b with
  | Some i, Some j => Nat.eqb i j
  | None, None => true
  | _, _ => false
  end.

Module Obj.
Record t : Type := mk {
  Class : Z;        (* byte *)
  ExNo : Z;         (* byte *)
  Expo : bool;      (* exported *)
  Rdo : bool;       (* read-only *)
  Lev : Z;
  Next : ptr;       (* *Object *)
  Dsc : ptr;        (* *Object *)
  Type_ : ptr;      (* *Type *)
  Name : ors.Ident;
  OrgName : ors.Ident;
  Val : Z
}.
Definition set_Next (v : ptr) (x : t) : t :=
  mk (Class x) (ExNo x) (Expo x) (Rdo x) (Lev x) v (Dsc x) (Type_ x)
     (Name x) (OrgName x) (Val x).
(** The zero value of the struct. *)
Definition zero : t :=
  mk 0 0 false false 0 None None None EmptyString EmptyString 0.
End Obj.

Module Typ.
Record t : Type := mk {
  Form : Z;
  Ref : Z;          (* only used for import/export *)
  Mno : Z;
  NOfPar : Z;       (* for procedures, extension level for records *)
  Len : Z;          (* for arrays, len < 0 => open array; for records:
                       adr of descriptor *)
  Dsc : ptr;        (* *Object *)
  TypObj : ptr;     (* *Object *)
  Base : ptr;       (* *Type; for arrays, records, pointers *)
  Size : Z          (* in bytes *)
}.
Definition set_Ref (v : Z) (x : t) : t :=
  mk (Form x) v (Mno x) (NOfPar x) (Len x) (Dsc x) (TypObj x) (Base x)
     (Size x).
Definition set_Len (v : Z) (x : t) : t :=
  mk (Form x) (Ref x) (Mno x) (NOfPar x) v (Dsc x) (TypObj x) (Base x)
     (Size x).
Definition set_TypObj (v : ptr) (x : t) : t :=
  mk (Form x) (Ref x) (Mno x) (NOfPar x) (Len x) (Dsc x) v (Base x)
     (Size x).
End Typ.

(** The symbol table: the fields of [Base] and the two stores that hold
    the objects and types its pointers refer to. *)
Record Base : Type := mkBase {
  TopScope : ptr;
  universe : ptr;
  System : ptr;
  ByteType : ptr; BoolType : ptr; CharType : ptr; IntType : ptr;
  RealType : ptr; SetType : ptr; NilType : ptr; NoType : ptr;
  StrType : ptr;
  nOfMod : Z;
  ref : Z;
  typTab : list ptr;        (* [maxTypTab]*Type *)
  objs : list Obj.t;        (* store of Objects *)
  types : list Typ.t        (* store of Types *)
}.

Definition set_ref (v : Z) (b : Base) : Base :=
  mkBase (TopScope b) (universe b) (System b) (ByteType b) (BoolType b)
    (CharType b) (IntType b) (RealType b) (SetType b) (NilType b)
    (NoType b) (StrType b) (nOfMod b) v (typTab b) (objs b) (types b).
Definition set_typTab (v : list ptr) (b : Base) : Base :=
  mkBase (TopScope b) (universe b) (System b) (ByteType b) (BoolType b)
    (CharType b) (IntType b) (RealType b) (SetType b) (NilType b)
    (NoType b) (StrType b) (nOfMod b) (ref b) v (objs b) (types b).
Definition set_types (v : list Typ.t) (b : Base) : Base :=
  mkBase (TopScope b) (universe b) (System b) (ByteType b) (BoolType b)
    (CharType b) (IntType b) (RealType b) (SetType b) (NilType b)
    (NoType b) (StrType b) (nOfMod b) (ref b) (typTab b) (objs b) v.

Definition set_objs (v : list Obj.t) (b : Base) : Base :=
  mkBase (TopScope b) (universe b) (System b) (ByteType b) (BoolType b)
    (CharType b) (IntType b) (RealType b) (SetType b) (NilType b)
    (NoType b) (StrType b) (nOfMod b) (ref b) (typTab b) v (types b).
Definition set_TopScope (v : ptr) (b : Base) : Base :=
  mkBase v (universe b) (System b) (ByteType b) (BoolType b)
    (CharType b) (IntType b) (RealType b) (SetType b) (NilType b)
    (NoType b) (StrType b) (nOfMod b) (ref b) (typTab b) (objs b) (types b).
Definition set_universe (v : ptr) (b : Base) : Base :=
  mkBase (TopScope b) v (System b) (ByteType b) (BoolType b)
    (CharType b) (IntType b) (RealType b) (SetType b) (NilType b)
    (NoType b) (StrType b) (nOfMod b) (ref b) (typTab b) (objs b) (types b).
Definition set_System (v : ptr) (b : Base) : Base :=
  mkBase (TopScope b) (universe b) v (ByteType b) (BoolType b)
    (CharType b) (IntType b) (RealType b) (SetType b) (NilType b)
    (NoType b) (StrType b) (nOfMod b) (ref b) (typTab b) (objs b) (types b).
Definition set_nOfMod (v : Z) (b : Base) : Base :=
  mkBase (TopScope b) (universe b) (System b) (ByteType b) (BoolType b)
    (CharType b) (IntType b) (RealType b) (SetType b) (NilType b)
    (NoType b) (StrType b) v (ref b) (typTab b) (objs b) (types b).

(** Allocation ([&Object{...}], [&Type{...}]): a new cell at the end of
    the store. *)
Definition newObject (o : Obj.t) : M Base ptr :=
  fun b => Some (Some (List.length (objs b)), set_objs (objs b ++ [o]) b).
Definition newTypeCell (t : Typ.t) : M Base ptr :=
  fun b => Some (Some (List.length (types b)), set_types (types b ++ [t]) b).

Definition updObj (p : ptr) (f : Obj.t -> Obj.t) : M Base unit :=
  fun b => match p with
           | Some i =>
               match nth_error (objs b) i with
               | Some o => Some (tt, set_objs (setNth (objs b) i (f o)) b)
               | None => None
               end
           | None => None
           end.
Definition updType (p : ptr) (f : Typ.t -> Typ.t) : M Base unit :=
  fun b => match p with
           | Some i =>
               match nth_error (types b) i with
               | Some t => Some (tt, set_types (setNth (types b) i (f t)) b)
               | None => None
               end
           | None => None
           end.

Definition newType (ref_ form size : Z) : M Base ptr :=
  tp <- newTypeCell (Typ.mk form ref_ 0 0 0 None None None size) ;;
  tab <- gets typTab ;;
  tab' <- must (arrSet tab ref_ tp) ;;
  modify (set_typTab tab') ;;
  ret tp.

Definition enter (name : ors.Ident) (cl : Z) (typ : ptr) (n : Z)
  : M Base unit :=
  sys <- gets System ;;
  obj <- newObject (Obj.mk cl 0 false false 0 None None typ name
                      EmptyString n) ;;
  (if cl =? ClassTyp then updType typ (Typ.set_TypObj obj) else ret tt) ;;
  updObj obj (Obj.set_Next sys) ;;
  modify (set_System obj).

Definition OpenScope : M Base unit :=
  top <- gets TopScope ;;
  h <- newObject (Obj.mk ClassHead 0 false false 0 None top None
                    EmptyString EmptyString 0) ;;
  modify (set_TopScope h).

Definition CloseScope : M Base unit :=
  top <- gets TopScope ;;
  match top with
  | Some i => b <- get ;;
              o <- must (nth_error (objs b) i) ;;
              modify (set_TopScope (Obj.Dsc o))
  | None => fail
  end.

Definition Init : M Base unit :=
  u <- gets universe ;;
  modify (set_TopScope u) ;;
  modify (set_nOfMod 1).

Definition emptyBase : Base :=
  mkBase None None None None None None None None None None None None
    0 0 (repeat None 64) [] [].

Definition NewBase : M Base unit :=
  tByte <- newType FormByte FormInt 1 ;;
  tBool <- newType FormBool FormBool 1 ;;
  tChar <- newType FormChar FormChar 1 ;;
  tInt <- newType FormInt FormInt 4 ;;
  tReal <- newType FormReal FormReal 4 ;;
  tSet <- newType FormSet FormSet 4 ;;
  tNil <- newType FormNilTyp FormNilTyp 4 ;;
  tNo <- newType FormNoTyp FormNoTyp 4 ;;
  tStr <- newType FormString FormString 8 ;;
  modify (fun b =>
    mkBase (TopScope b) (universe b) (System b) tByte tBool tChar tInt
      tReal tSet tNil tNo tStr (nOfMod b) (ref b) (typTab b) (objs b)
      (types b)) ;;
  (* initialize universe with data types and in-line procedures *)
  modify (set_System None) ;;
  (* functions; n = procNo*10 + nOfPar *)
  enter "UML" ClassSFunc tInt 132 ;;
  enter "SBC" ClassSFunc tInt 122 ;;
  enter "ADC" ClassSFunc tInt 112 ;;
  enter "ROR" ClassSFunc tInt 92 ;;
  enter "ASR" ClassSFunc tInt 82 ;;
  enter "LSL" ClassSFunc tInt 72 ;;
  enter "LEN" ClassSFunc tInt 61 ;;
  enter "CHR" ClassSFunc tChar 51 ;;
  enter "ORD" ClassSFunc tInt 41 ;;
  enter "FLT" ClassSFunc tReal 31 ;;
  enter "FLOOR" ClassSFunc tInt 21 ;;
  enter "ODD" ClassSFunc tBool 11 ;;
  enter "ABS" ClassSFunc tInt 1 ;;
  (* procedures *)
  enter "LED" ClassSProc tNo 81 ;;
  enter "UNPK" ClassSProc tNo 72 ;;
  enter "PACK" ClassSProc tNo 62 ;;
  enter "NEW" ClassSProc tNo 51 ;;
  enter "ASSERT" ClassSProc tNo 41 ;;
  enter "EXCL" ClassSProc tNo 32 ;;
  enter "INCL" ClassSProc tNo 22 ;;
  enter "DEC" ClassSProc tNo 11 ;;
  enter "INC" ClassSProc tNo 1 ;;
  (* types *)
  enter "SET" ClassTyp tSet 0 ;;
  enter "BOOLEAN" ClassTyp tBool 0 ;;
  enter "BYTE" ClassTyp tByte 0 ;;
  enter "CHAR" ClassTyp tChar 0 ;;
  enter "LONGREAL" ClassTyp tReal 0 ;;
  enter "REAL" ClassTyp tReal 0 ;;
  enter "LONGINT" ClassTyp tInt 0 ;;
  enter "INTEGER" ClassTyp tInt 0 ;;
  modify (set_TopScope None) ;;
  OpenScope ;;
  top <- gets TopScope ;;
  sys <- gets System ;;
  updObj top (Obj.set_Next sys) ;;
  modify (set_universe top) ;;
  (* initialize "unsafe" pseudo-module SYSTEM *)
  modify (set_System None) ;;
  (* functions *)
  enter "H" ClassSFunc tInt 201 ;;
  enter "COND" ClassSFunc tBool 191 ;;
  enter "SIZE" ClassSFunc tInt 181 ;;
  enter "ADR" ClassSFunc tInt 171 ;;
  enter "VAL" ClassSFunc tInt 162 ;;
  enter "REG" ClassSFunc tInt 151 ;;
  enter "BIT" ClassSFunc tBool 142 ;;
  (* procedures *)
  enter "LDREG" ClassSProc tNo 142 ;;
  enter "LDPSR" ClassSProc tNo 131 ;;
  enter "COPY" ClassSProc tNo 123 ;;
  enter "PUT" ClassSProc tNo 112 ;;
  enter "GET" ClassSProc tNo 102.

(** The files of the working directory, by name. *)
Definition FileSystem : Type := list (string * list byte).

Fixpoint readFile (fs : FileSystem) (name : string) : option (list byte) :=
  match fs with
  | [] => None
  | (n, c) :: fs' => if String.eqb n name then Some c else readFile fs' name
  end.

(** [os.Create] followed by [io.Copy]: the file holds exactly [c]. *)
Fixpoint writeFile (fs : FileSystem) (name : string) (c : list byte)
  : FileSystem :=
  match fs with
  | [] => [(name, c)]
  | (n, c0) :: fs' =>
      if String.eqb n name then (n, c) :: fs'
      else (n, c0) :: writeFile fs' name c
  end.

(** What the functions of [Base] work on: the scanner and the symbol table
    they hold, the byte buffer [w] of [Export], and the files. *)
Record State : Type := mkState {
  sc : ors.Scanner;
  base : Base;
  buf : list byte;
  fs : FileSystem
}.

Definition set_sc v (s : State) := mkState v (base s) (buf s) (fs s).
Definition set_base v (s : State) := mkState (sc s) v (buf s) (fs s).
Definition set_buf v (s : State) := mkState (sc s) (base s) v (fs s).
Definition set_fs v (s : State) := mkState (sc s) (base s) (buf s) v.

Definition St := M State.

Definition Mark (msg : string) : St unit := zoom sc set_sc (ors.Mark msg).

(** Dereferencing; nil panics. *)
Definition typeAt (p : ptr) : St Typ.t :=
  b <- gets base ;;
  match p with
  | Some i => must (nth_error (types b) i)
  | None => fail
  end.

Definition objAt (p : ptr) : St Obj.t :=
  b <- gets base ;;
  match p with
  | Some i => must (nth_error (objs b) i)
  | None => fail
  end.

(** [t.Ref = v] *)
Definition setTypeRef (p : ptr) (v : Z) : St unit :=
  ty <- typeAt p ;;
  match p with
  | Some i =>
      modify (fun s =>
        set_base (set_types (setNth (types (base s)) i (Typ.set_Ref v ty))
                    (base s)) s)
  | None => fail
  end.

(** The writers of package files on the buffer of [Export]. *)
Definition Write (ch : Z) : St unit :=
  modify (fun s => set_buf (files.Write (buf s) ch) s).
Definition WriteInt (x : Z) : St unit :=
  modify (fun s => set_buf (files.WriteInt (buf s) x) s).
Definition WriteNum (x : Z) : St unit :=
  modify (fun s => set_buf (files.WriteNum (buf s) x) s).
Definition WriteString (x : string) : St unit :=
  modify (fun s => set_buf (files.WriteString (buf s) x) s).

(** [obj.f = v] for an object in the store. *)
Definition setObj (p : ptr) (f : Obj.t -> Obj.t) : St unit :=
  zoom base set_base (updObj p f).
Definition setType (p : ptr) (f : Typ.t -> Typ.t) : St unit :=
  zoom base set_base (updType p f).

Definition NewObj (fuel : nat) (id : ors.Ident) (class : Z) : St ptr :=
  (* insert new Object with name id *)
  top <- gets (fun s => TopScope (base s)) ;;
  x <- loop fuel (fun x : ptr =>
         o <- objAt x ;;
         match Obj.Next o with
         | Some _ =>
             n <- objAt (Obj.Next o) ;;
             if negb (String.eqb (Obj.Name n) id)
             then ret (inl (Obj.Next o)) else ret (inr x)
         | None => ret (inr x)
         end) top ;;
  o <- objAt x ;;
  match Obj.Next o with
  | None =>
      obj <- zoom base set_base
               (newObject (Obj.mk class 0 false false 0 None None None id
                             EmptyString 0)) ;;
      setObj x (Obj.set_Next obj) ;;
      ret obj
  | Some _ =>
      Mark "mult def" ;;
      ret (Obj.Next o)
  end.

(** The values [0 .. n-1] of a counting loop. *)
Definition upto (n : Z) : list Z := map Z.of_nat (seq 0 (Z.to_nat n)).

(** -------------------------------- Export ------------------------------ *)

Fixpoint findHiddenPointers (fuel : nat) (typ : ptr) (offset : Z)
  : St unit :=
  match fuel with
  | O => fail
  | S n =>
    ty <- typeAt typ ;;
    if (Typ.Form ty =? FormPointer) || (Typ.Form ty =? FormNilTyp) then
      Write ClassFld ;;
      Write 0 ;;
      WriteNum offset
    else if Typ.Form ty =? FormRecord then
      loop fuel (fun fld : ptr =>
        match fld with
        | None => ret (inr tt)
        | Some _ =>
            f <- objAt fld ;;
            findHiddenPointers n (Obj.Type_ f) (i32 (Obj.Val f + offset)) ;;
            ret (inl (Obj.Next f))
        end) (Typ.Dsc ty)
    else if Typ.Form ty =? FormArray then
      forRange (upto (Typ.Len ty)) (fun i _ =>
        bt <- typeAt (Typ.Base ty) ;;
        findHiddenPointers n (Typ.Base ty)
          (i32 (i32 (Typ.Size bt * i) + offset))) tt
    else ret tt
  end.

Fixpoint outType (fuel : nat) (t : ptr) : St unit :=
  match fuel with
  | O => fail
  | S n =>
    ty <- typeAt t ;;
    if 0 <? Typ.Ref ty then
      (* type was already output *)
      Write (i32 (- Typ.Ref ty))
    else
      let obj := Typ.TypObj ty in
      (match obj with
       | Some _ =>
           rf <- gets (fun s => ref (base s)) ;;
           Write (i32 rf) ;;
           setTypeRef t rf ;;
           modify (fun s => set_base (set_ref (i64 (rf + 1)) (base s)) s)
       | None =>
           (* anonymous *)
           Write 0
       end) ;;
      Write (i32 (Typ.Form ty)) ;;
      (if Typ.Form ty =? FormPointer then
         outType n (Typ.Base ty)
       else if Typ.Form ty =? FormArray then
         outType n (Typ.Base ty) ;;
         WriteNum (Typ.Len ty) ;;
         WriteNum (Typ.Size ty)
       else if Typ.Form ty =? FormRecord then
         bot <- (match Typ.Base ty with
                 | Some _ =>
                     outType n (Typ.Base ty) ;;
                     bt <- typeAt (Typ.Base ty) ;;
                     ret (Typ.Dsc bt)
                 | None =>
                     nt <- gets (fun s => NoType (base s)) ;;
                     outType n nt ;;
                     ret None
                 end) ;;
         (match obj with
          | Some _ => o <- objAt obj ;; WriteNum (Obj.ExNo o)
          | None => Write 0
          end) ;;
         WriteNum (Typ.NOfPar ty) ;;
         WriteNum (Typ.Size ty) ;;
         (* fields *)
         loop fuel (fun fld : ptr =>
           if ptrEq fld bot then ret (inr tt)
           else
             f <- objAt fld ;;
             (if Obj.Expo f then
                Write ClassFld ;;
                WriteString (Obj.Name f) ;;
                outType n (Obj.Type_ f) ;;
                WriteNum (Obj.Val f)   (* offset *)
              else
                findHiddenPointers fuel (Obj.Type_ f) (Obj.Val f)) ;;
             ret (inl (Obj.Next f))) (Typ.Dsc ty) ;;
         Write 0
       else if Typ.Form ty =? FormProc then
         outType n (Typ.Base ty) ;;
         outPar n (Typ.Dsc ty) (Typ.NOfPar ty) ;;
         Write 0
       else ret tt) ;;
      (match obj with
       | Some _ =>
           if 0 <? Typ.Mno ty then
             (* re-export, output name *)
             top <- (ts <- gets (fun s => TopScope (base s)) ;; objAt ts) ;;
             mod_ <- loop fuel (fun m : ptr =>
                       match m with
                       | None => ret (inr m)
                       | Some _ =>
                           mo <- objAt m ;;
                           if negb (Obj.Lev mo =? Typ.Mno ty)
                           then ret (inl (Obj.Next mo))
                           else ret (inr m)
                       end) (Obj.Next top) ;;
             match mod_ with
             | Some _ =>
                 mo <- objAt mod_ ;;
                 o <- objAt obj ;;
                 WriteString (Obj.OrgName mo) ;;
                 WriteInt (Obj.Val mo) ;;
                 WriteString (Obj.Name o)
             | None =>
                 Mark "re-export not found" ;;
                 Write 0
             end
           else Write 0
       | None => Write 0
       end)
  end

with outPar (fuel : nat) (par : ptr) (n : Z) : St unit :=
  match fuel with
  | O => fail
  | S k =>
    if 0 <? n then
      p <- objAt par ;;
      outPar k (Obj.Next p) (i32 (n - 1)) ;;
      Write (Obj.Class p) ;;
      (if Obj.Rdo p then Write 1 else Write 0) ;;
      outType k (Obj.Type_ p)
    else ret tt
  end.

(** First part of [Export]: the symbol file is assembled in the buffer, up
    to the padding, and the type table is cleared. *)
Definition exportBuffer (fuel : nat) (modId : ors.Ident) : St unit :=
  modify (fun s => set_base (set_ref (FormRecord + 1) (base s)) s) ;;
  modify (set_buf []) ;;
  WriteInt 0 ;;   (* placeholder *)
  WriteInt 0 ;;   (* placeholder for key to be inserted at the end *)
  WriteString modId ;;
  Write VersionKey ;;
  top <- (ts <- gets (fun s => TopScope (base s)) ;; objAt ts) ;;
  loop fuel (fun obj : ptr =>
    match obj with
    | None => ret (inr tt)
    | Some _ =>
      o <- objAt obj ;;
      when (Obj.Expo o) (
        Write (Obj.Class o) ;;
        WriteString (Obj.Name o) ;;
        outType fuel (Obj.Type_ o) ;;
        if Obj.Class o =? ClassTyp then
          ot <- typeAt (Obj.Type_ o) ;;
          when (Typ.Form ot =? FormRecord) (
            (* check whether this is base of previously declared pointer
               types *)
            loop fuel (fun obj0 : ptr =>
              if ptrEq obj0 obj then ret (inr tt)
              else
                o0 <- objAt obj0 ;;
                t0 <- typeAt (Obj.Type_ o0) ;;
                when ((Typ.Form t0 =? FormPointer)
                      && ptrEq (Typ.Base t0) (Obj.Type_ o)
                      && (0 <? Typ.Ref t0))
                     (Write (i32 (Typ.Ref t0))) ;;
                ret (inl (Obj.Next o0))) (Obj.Next top)) ;;
          Write 0
        else if Obj.Class o =? ClassConst then
          ot <- typeAt (Obj.Type_ o) ;;
          if Typ.Form ot =? FormProc then WriteNum (Obj.ExNo o)
          else if Typ.Form ot =? FormReal then WriteInt (Obj.Val o)
          else WriteNum (Obj.Val o)
        else if Obj.Class o =? ClassVar then WriteNum (Obj.ExNo o)
        else ret tt) ;;
      ret (inl (Obj.Next o))
    end) (Obj.Next top) ;;
  len <- gets (fun s => Z.of_nat (List.length (buf s))) ;;
  let padLen := 4 - Z.rem len 4 in
  forRange (upto padLen) (fun _ _ => Write 0) tt ;;
  forRange (map (fun i => FormRecord + 1 + i)
              (upto (maxTypTab - (FormRecord + 1))))
    (fun rf _ =>
       tab <- gets (fun s => typTab (base s)) ;;
       tab' <- must (arrSet tab rf None) ;;
       modify (fun s => set_base (set_typTab tab' (base s)) s)) tt ;;
  modify (fun s => set_base (set_ref maxTypTab (base s)) s).

(** The key: the wrapping sum of the [int32] words of the buffer, read
    with [ReadIntWithEOF] until [io.EOF]. *)
Fixpoint checksum (r : list byte) (sum : Z) : option Z :=
  match r with
  | b0 :: b1 :: b2 :: b3 :: rest =>
      checksum rest (i32 (sum + files.int32Of b0 b1 b2 b3))
  | [] => Some sum
  | _ => None
  end.

(** [copy(w.Bytes()[4:], sumBuf.Bytes())] *)
Definition insertKey (w : list byte) (sum : Z) : option (list byte) :=
  if Z.of_nat (List.length w) <? 4 then None
  else
    let dst := skipn 4 w in
    let src := files.WriteInt [] sum in
    let k := Nat.min (List.length dst) (List.length src) in
    Some (firstn 4 w ++ firstn k src ++ skipn k dst).

(** [readKey]: the result, or the error of [os.Open]; a file too short to
    hold the two words panics. *)
Definition readKey (smbFilename : string) : St (option Z) :=
  files_ <- gets fs ;;
  match readFile files_ smbFilename with
  | None => ret None     (* fs.ErrNotExist *)
  | Some c =>
      '(_, c1) <- must (files.ReadInt c) ;;
      '(key, _) <- must (files.ReadInt c1) ;;
      ret (Some key)
  end.

Definition Export (fuel : nat) (modId : ors.Ident) (newSF : bool)
  : St (Z * bool) :=
  exportBuffer fuel modId ;;
  (* compute key (checksum) *)
  w <- gets buf ;;
  sum <- must (checksum w 0) ;;
  (* insert checksum *)
  w <- must (insertKey w sum) ;;
  modify (set_buf w) ;;
  let filename := (modId ++ ".smb")%string in
  old <- readKey filename ;;
  let notExist := match old with None => true | Some _ => false end in
  let oldKey := match old with None => i32 (sum + 1) | Some k => k end in
  if negb (sum =? oldKey) then
    if newSF || notExist then
      modify (fun s => set_fs (writeFile (fs s) filename w) s) ;;
      ret (sum, true)
    else
      Mark "new symbol file inhibited" ;;
      ret (sum, false)
  else ret (sum, false).

(** ------------------------------- Lookup ------------------------------- *)

(** The loop [for x != nil && x.Name != id { x = x.Next }] that
    [ThisObj], [ThisImport] and [ThisField] share. *)
Definition findName (fuel : nat) (id : ors.Ident) (x : ptr) : St ptr :=
  loop fuel (fun x : ptr =>
    match x with
    | None => ret (inr x)
    | Some _ =>
        o <- objAt x ;;
        if negb (String.eqb (Obj.Name o) id) then ret (inl (Obj.Next o))
        else ret (inr x)
    end) x.

Definition ThisObj (fuel : nat) : St ptr :=
  top <- gets (fun s => TopScope (base s)) ;;
  loop fuel (fun s_ : ptr =>
    so <- objAt s_ ;;
    id <- gets (fun s => ors.Id (sc s)) ;;
    x <- findName fuel id (Obj.Next so) ;;
    let s_ := Obj.Dsc so in
    match x, s_ with
    | None, Some _ => ret (inl s_)
    | _, _ => ret (inr x)
    end) top.

Definition ThisImport (fuel : nat) (mod_ : ptr) : St ptr :=
  m <- objAt mod_ ;;
  if Obj.Rdo m then
    if negb (String.eqb (Obj.Name m) EmptyString) then
      id <- gets (fun s => ors.Id (sc s)) ;;
      findName fuel id (Obj.Dsc m)
    else ret None
  else ret None.

Definition ThisField (fuel : nat) (rec : ptr) : St ptr :=
  ty <- typeAt rec ;;
  id <- gets (fun s => ors.Id (sc s)) ;;
  findName fuel id (Typ.Dsc ty).

End orb.

(** ** Package org: the code generator *)

Module org.

Definition WordSize : Z := 4.

(** for RISC-0 only *)
Definition stkOrg0 : Z := -64.
Definition varOrg0 : Z := 0.

(** dedicated registers *)
Definition mt : Z := 12.
Definition sp : Z := 14.
Definition lnk : Z := 15.

Definition maxCode : Z := 8000.
Definition maxStrx : Z := 2400.
Definition maxTD : Z := 160.
Definition c24 : Z := 16777216.

(** internal item modes *)
Definition classReg : Z := 10.
Definition classRegI : Z := 11.
Definition classCond : Z := 12.

(** frequently used opcodes *)
Definition opU : Z := 8192.
Definition opV : Z := 4096.
Definition opMov : Z := 0.
Definition opLsl : Z := 1.
Definition opAsr : Z := 2.
Definition opRor : Z := 3.
Definition opAnd : Z := 4.
Definition opAnn : Z := 5.
Definition opIor : Z := 6.
Definition opXor : Z := 7.
Definition opAdd : Z := 8.
Definition opSub : Z := 9.
Definition opCmp : Z := 9.
Definition opMul : Z := 10.
Definition opDiv : Z := 11.
Definition opLdr : Z := 8.
Definition opStr : Z := 10.
Definition opBR : Z := 0.
Definition opBLR : Z := 1.
Definition opBC : Z := 2.
Definition opBL : Z := 3.
Definition opMI : Z := 0.
Definition opPL : Z := 8.
Definition opEQ : Z := 1.
Definition opNE : Z := 9.
Definition opLT : Z := 5.
Definition opGE : Z := 13.
Definition opLE : Z := 6.
Definition opGT : Z := 14.

(** [int32] arithmetic *)
Definition add32 (a b : Z) : Z := i32 (a + b).
Definition sub32 (a b : Z) : Z := i32 (a - b).
Definition mul32 (a b : Z) : Z := i32 (a * b).
Definition shl32 (a n : Z) : Z := i32 (Z.shiftl a n).
Definition shr32 (a n : Z) : Z := Z.shiftr a n.
(** Go's [/] and [%] truncate toward zero. *)
Definition div32 (a b : Z) : Z := i32 (Z.quot a b).
Definition rem32 (a b : Z) : Z := Z.rem a b.

Record Item : Type := mkItem {
  Mode : Z;
  Type_ : orb.ptr;
  A : Z; B : Z;
  r : Z;
  Rdo : bool   (* read only *)
}.

Definition set_Mode v (x : Item) := mkItem v (Type_ x) (A x) (B x) (r x) (Rdo x).
Definition set_A v (x : Item) := mkItem (Mode x) (Type_ x) v (B x) (r x) (Rdo x).
Definition set_r v (x : Item) := mkItem (Mode x) (Type_ x) (A x) (B x) v (Rdo x).

Record Generator : Type := mkGenerator {
  PC : Z;        (* program counter *)
  varSize : Z;   (* data index *)
  tdx : Z;
  strx : Z;
  entry : Z;     (* main entry point *)
  rh : Z;        (* available registers R[0] ... R[H-1] *)
  frame : Z;     (* frame offset changed in saveRegs and restoreRegs *)
  (* origins of lists of locations to be fixed up by loader *)
  fixOrgP : Z; fixOrgD : Z; fixOrgT : Z;
  check : bool;  (* emit run-time checks *)
  version : Z;   (* 0 = RISC-0, 1 = RISC-5 *)
  relMap : list Z;   (* condition codes for relations *)
  code : list Z;     (* [maxCode]int32 *)
  data : list Z;     (* [maxTD]int32, type descriptors *)
  str : list byte    (* [maxStrx]byte *)
}.

Definition set_varSize v g := mkGenerator (PC g) v (tdx g) (strx g) (entry g) (rh g) (frame g) (fixOrgP g) (fixOrgD g) (fixOrgT g) (check g) (version g) (relMap g) (code g) (data g) (str g).
Definition set_entry v g := mkGenerator (PC g) (varSize g) (tdx g) (strx g) v (rh g) (frame g) (fixOrgP g) (fixOrgD g) (fixOrgT g) (check g) (version g) (relMap g) (code g) (data g) (str g).
Definition set_PC v g := mkGenerator v (varSize g) (tdx g) (strx g) (entry g) (rh g) (frame g) (fixOrgP g) (fixOrgD g) (fixOrgT g) (check g) (version g) (relMap g) (code g) (data g) (str g).
Definition set_tdx v g := mkGenerator (PC g) (varSize g) v (strx g) (entry g) (rh g) (frame g) (fixOrgP g) (fixOrgD g) (fixOrgT g) (check g) (version g) (relMap g) (code g) (data g) (str g).
Definition set_rh v g := mkGenerator (PC g) (varSize g) (tdx g) (strx g) (entry g) v (frame g) (fixOrgP g) (fixOrgD g) (fixOrgT g) (check g) (version g) (relMap g) (code g) (data g) (str g).
Definition set_frame v g := mkGenerator (PC g) (varSize g) (tdx g) (strx g) (entry g) (rh g) v (fixOrgP g) (fixOrgD g) (fixOrgT g) (check g) (version g) (relMap g) (code g) (data g) (str g).
Definition set_fixOrgD v g := mkGenerator (PC g) (varSize g) (tdx g) (strx g) (entry g) (rh g) (frame g) (fixOrgP g) v (fixOrgT g) (check g) (version g) (relMap g) (code g) (data g) (str g).
Definition set_fixOrgT v g := mkGenerator (PC g) (varSize g) (tdx g) (strx g) (entry g) (rh g) (frame g) (fixOrgP g) (fixOrgD g) v (check g) (version g) (relMap g) (code g) (data g) (str g).
Definition set_code v g := mkGenerator (PC g) (varSize g) (tdx g) (strx g) (entry g) (rh g) (frame g) (fixOrgP g) (fixOrgD g) (fixOrgT g) (check g) (version g) (relMap g) v (data g) (str g).
Definition set_data v g := mkGenerator (PC g) (varSize g) (tdx g) (strx g) (entry g) (rh g) (frame g) (fixOrgP g) (fixOrgD g) (fixOrgT g) (check g) (version g) (relMap g) (code g) v (str g).

Definition NewGenerator : Generator :=
  mkGenerator 0 0 0 0 0 0 0 0 0 0 false 0 [1; 9; 5; 6; 14; 13]
    (repeat 0 (Z.to_nat maxCode)) (repeat 0 (Z.to_nat maxTD))
    (repeat zero (Z.to_nat maxStrx)).

(** What the methods of [Generator] work on: the scanner and the symbol
    table it holds, its own fields, and the files. *)
Record State : Type := mkState {
  sc : ors.Scanner;
  base : orb.Base;
  gen : Generator;
  fs : orb.FileSystem
}.

Definition set_sc v (s : State) := mkState v (base s) (gen s) (fs s).
Definition set_base v (s : State) := mkState (sc s) v (gen s) (fs s).
Definition set_gen v (s : State) := mkState (sc s) (base s) v (fs s).
Definition set_fs v (s : State) := mkState (sc s) (base s) (gen s) v.

Definition St := M State.

Definition Mark (msg : string) : St unit := zoom sc set_sc (ors.Mark msg).

Definition g_ {A} (f : Generator -> A) : St A := gets (fun s => f (gen s)).
Definition upd (f : Generator -> Generator) : St unit :=
  modify (fun s => set_gen (f (gen s)) s).

Definition typeAt (p : orb.ptr) : St orb.Typ.t :=
  b <- gets base ;;
  match p with
  | Some i => must (nth_error (orb.types b) i)
  | None => fail
  end.

Definition objAt (p : orb.ptr) : St orb.Obj.t :=
  b <- gets base ;;
  match p with
  | Some i => must (nth_error (orb.objs b) i)
  | None => fail
  end.

(** [g.code[i] = v], [g.code[i]], [g.data[i] = v] *)
Definition setCode (i v : Z) : St unit :=
  c <- g_ code ;; c' <- must (arrSet c i v) ;; upd (set_code c').
Definition getCode (i : Z) : St Z :=
  c <- g_ code ;; must (arrGet c i).
Definition setData (i v : Z) : St unit :=
  d <- g_ data ;; d' <- must (arrSet d i v) ;; upd (set_data d').

Definition incPC : St unit := upd (fun g => set_PC (add32 (PC g) 1) g).

(** instruction assemblers according to formats *)

Definition put0 (op a b c : Z) : St unit :=
  (* emit format-0 instruction *)
  pc <- g_ PC ;;
  setCode pc
    (add32 (shl32 (add32 (shl32 (add32 (shl32 a 4) b) 4) op) 16) c) ;;
  incPC.

Definition put1 (op a b im : Z) : St unit :=
  (* emit format-1 instruction, -0x10000 <= im < 0x10000 *)
  let op := if im <? 0 then add32 op opV else op in
  pc <- g_ PC ;;
  setCode pc
    (add32 (shl32 (add32 (shl32 (add32 (shl32 (add32 a 64) 4) b) 4) op) 16)
       (Z.land im 65535)) ;;
  incPC.

Definition put1a (op a b im : Z) : St unit :=
  (* same as put1, but with range test  -0x10000 <= im < 0x10000 *)
  if (-65536 <=? im) && (im <=? 65535) then put1 op a b im
  else
    h <- g_ rh ;;
    put1 (add32 opMov opU) h 0 (shr32 im 16) ;;
    when (negb (Z.land im 65535 =? 0))
         (h <- g_ rh ;; put1 opIor h h (Z.land im 65535)) ;;
    h <- g_ rh ;;
    put0 op a b h.

Definition put2 (op a b off : Z) : St unit :=
  pc <- g_ PC ;;
  setCode pc
    (add32 (shl32 (add32 (shl32 (add32 (shl32 op 4) a) 4) b) 20)
       (Z.land off 1048575)) ;;
  incPC.

Definition put3 (op cond off : Z) : St unit :=
  (* emit branch instruction *)
  pc <- g_ PC ;;
  setCode pc
    (add32 (shl32 (add32 (shl32 (add32 op 12) 4) cond) 24)
       (Z.land off 16777215)) ;;
  incPC.

Definition incR : St unit :=
  h <- g_ rh ;;
  if h <? mt - 1 then upd (set_rh (add32 h 1))
  else Mark "register stack overflow".

Definition CheckRegs : St unit :=
  h <- g_ rh ;;
  when (negb (h =? 0)) (
    Mark "Reg Stack" ;;
    upd (set_rh 0)) ;;
  pc <- g_ PC ;;
  when (maxCode - 40 <=? pc) (Mark "program too long") ;;
  f <- g_ frame ;;
  when (negb (f =? 0)) (
    Mark "frame error" ;;
    upd (set_frame 0)).

Definition trap (cond num : Z) : St unit :=
  p <- gets (fun s => ors.Pos (sc s)) ;;
  put3 opBLR cond (add32 (add32 (mul32 (i32 p) 256) (mul32 num 16)) mt).

(** handling of forward reference, fixups of branch addresses and
    constant tables *)

Definition negated (cond : Z) : Z :=
  if cond <? 8 then add32 cond 8 else sub32 cond 8.

Definition fix_ (at_ with_ : Z) : St unit :=
  c <- getCode at_ ;;
  setCode at_ (add32 (i32 (Z.land (u32 c) 4278190080))
                 (Z.land with_ 16777215)).

Definition FixLink (fuel : nat) (L : Z) : St unit :=
  loop fuel (fun L : Z =>
    if negb (L =? 0) then
      c <- getCode L ;;
      let L1 := Z.land c 262143 in
      pc <- g_ PC ;;
      fix_ L (sub32 (sub32 pc L) 1) ;;
      ret (inl L1)
    else ret (inr tt)) L.

(** loading of operands and addresses into registers *)

Definition getSB (base_ : Z) : St unit :=
  v <- g_ version ;;
  if v =? 0 then
    h <- g_ rh ;; put1 opMov h 0 varOrg0
  else
    h <- g_ rh ;; pc <- g_ PC ;; d <- g_ fixOrgD ;;
    put2 opLdr h (i32 (- base_)) (sub32 pc d) ;;
    pc <- g_ PC ;;
    upd (set_fixOrgD (sub32 pc 1)).

Definition load (fuel : nat) (x : Item) : St Item :=
  ty <- typeAt (Type_ x) ;;
  let op := if orb.Typ.Size ty =? 1 then add32 opLdr 1 else opLdr in
  if negb (Mode x =? classReg) then
    x <- (if Mode x =? orb.ClassConst then
            (if orb.Typ.Form ty =? orb.FormProc then
               if 0 <? r x then Mark "not allowed"
               else if r x =? 0 then
                 put3 opBL 7 0 ;;
                 h <- g_ rh ;; pc <- g_ PC ;;
                 put1a opSub h lnk (sub32 (mul32 pc 4) (A x))
               else
                 getSB (r x) ;;
                 h <- g_ rh ;;
                 (* mark as progbase-relative *)
                 put1 opAdd h h (add32 (A x) 256)
             else if (A x <=? 65535) && (-65536 <=? A x) then
               h <- g_ rh ;; put1 opMov h 0 (A x)
             else
               h <- g_ rh ;;
               put1 (add32 opMov opU) h 0 (Z.land (shr32 (A x) 16) 65535) ;;
               when (negb (rem32 (A x) 65536 =? 0))
                    (h <- g_ rh ;; put1 opIor h h (Z.land (A x) 65535))) ;;
            h <- g_ rh ;;
            incR ;;
            ret (set_r h x)
          else if Mode x =? orb.ClassVar then
            (if 0 <? r x then
               (* local *)
               h <- g_ rh ;; f <- g_ frame ;;
               put2 op h sp (add32 (A x) f)
             else
               getSB (r x) ;;
               h <- g_ rh ;;
               put2 op h h (A x)) ;;
            h <- g_ rh ;;
            incR ;;
            ret (set_r h x)
          else if Mode x =? orb.ClassPar then
            h <- g_ rh ;; f <- g_ frame ;;
            put2 opLdr h sp (add32 (A x) f) ;;
            put2 op h h (B x) ;;
            incR ;;
            ret (set_r h x)
          else if Mode x =? classRegI then
            put2 op (r x) (r x) (A x) ;;
            ret x
          else if Mode x =? classCond then
            put3 opBC (negated (r x)) 2 ;;
            FixLink fuel (B x) ;;
            h <- g_ rh ;;
            put1 opMov h 0 1 ;;
            put3 opBC 7 1 ;;
            FixLink fuel (A x) ;;
            put1 opMov h 0 0 ;;
            incR ;;
            ret (set_r h x)
          else ret x) ;;
    ret (set_Mode classReg x)
  else ret x.

(** [log2]: the odd part of [m] and the exponent of its power of two. *)
Definition log2 (fuel : nat) (m : Z) : St (Z * Z) :=
  loop fuel (fun me : Z * Z =>
    let '(m, e) := me in
    if rem32 m 2 =? 0 then ret (inl (div32 m 2, add32 e 1))
    else ret (inr (m, e))) (m, 0).

(** [t.Len = v] *)
Definition setTypeLen (p : orb.ptr) (v : Z) : St unit :=
  zoom base set_base (orb.updType p (orb.Typ.set_Len v)).

Fixpoint q (fuel : nat) (t : orb.ptr) (dcw : Z) : St Z :=
  (* one entry of type descriptor extension table *)
  match fuel with
  | O => fail
  | S n =>
    ty <- typeAt t ;;
    match orb.Typ.Base ty with
    | Some _ =>
        dcw <- q n (orb.Typ.Base ty) dcw ;;
        fixT <- g_ fixOrgT ;;
        setData dcw
          (sub32 (add32 (mul32 (add32 (mul32 (orb.Typ.Mno ty) 4096)
                                  (orb.Typ.Len ty)) 4096) dcw) fixT) ;;
        upd (set_fixOrgT dcw) ;;
        ret (add32 dcw 1)
    | None => ret dcw
    end
  end.

Fixpoint findPtrFlds (fuel : nat) (typ : orb.ptr) (off dcw : Z) : St Z :=
  match fuel with
  | O => fail
  | S n =>
    ty <- typeAt typ ;;
    if (orb.Typ.Form ty =? orb.FormPointer)
       || (orb.Typ.Form ty =? orb.FormNilTyp) then
      setData dcw off ;;
      ret (add32 dcw 1)
    else if orb.Typ.Form ty =? orb.FormRecord then
      loop fuel (fun st : orb.ptr * Z =>
        let '(fld, dcw) := st in
        match fld with
        | None => ret (inr dcw)
        | Some _ =>
            f <- objAt fld ;;
            dcw <- findPtrFlds n (orb.Obj.Type_ f)
                     (add32 (orb.Obj.Val f) off) dcw ;;
            ret (inl (orb.Obj.Next f, dcw))
        end) (orb.Typ.Dsc ty, dcw)
    else if orb.Typ.Form ty =? orb.FormArray then
      bt <- typeAt (orb.Typ.Base ty) ;;
      let s := orb.Typ.Size bt in
      forRange (orb.upto (orb.Typ.Len ty)) (fun i dcw =>
        findPtrFlds n (orb.Typ.Base ty) (add32 (mul32 i s) off) dcw) dcw
    else ret dcw
  end.

(** The allocation size that [BuildTD] derives from a record size. *)
Definition allocSize (s : Z) : Z :=
  if s <=? 24 then 32
  else if s <=? 56 then 64
  else if s <=? 120 then 128
  else mul32 (div32 (add32 s 263) 256) 256.

(** [dc] is passed by reference; its new value is the result. *)
Definition BuildTD (fuel : nat) (t : orb.ptr) (dc : Z) : St Z :=
  (* dcw = word address *)
  let dcw := div32 dc 4 in
  ty <- typeAt t ;;
  let s := allocSize (orb.Typ.Size ty) in   (* convert size for heap
                                               allocation *)
  setTypeLen t dc ;;   (* len used as address *)
  setData dcw s ;;
  let dcw := add32 dcw 1 in
  let k := orb.Typ.NOfPar ty in   (* extension level! *)
  dcw <- (if 3 <? k then Mark "ext level too large" ;; ret dcw
          else
            dcw <- q fuel t dcw ;;
            forRange (orb.upto (3 - k)) (fun _ dcw =>
              setData dcw (-1) ;; ret (add32 dcw 1)) dcw) ;;
  dcw <- findPtrFlds fuel t 0 dcw ;;
  setData dcw (-1) ;;
  let dcw := add32 dcw 1 in
  upd (set_tdx dcw) ;;
  when (maxTD <=? dcw) (
    Mark "too many record types" ;;
    upd (set_tdx 0)) ;;
  ret (mul32 dcw 4).

(** [x] and [y] are passed by reference; their new values are the
    result. *)
Definition DivOp (fuel : nat) (op : ors.Sym) (x y : Item)
  : St (Item * Item) :=
  (* x := x op y *)
  if ors.Sym_eqb op ors.SymDiv then
    if (Mode x =? orb.ClassConst) && (Mode y =? orb.ClassConst) then
      if 0 <? A y then ret (set_A (div32 (A x) (A y)) x, y)
      else Mark "bad divisor" ;; ret (x, y)
    else
      '(pow2, e) <- (if (Mode y =? orb.ClassConst) && (2 <=? A y)
                     then '(m, e) <- log2 fuel (A y) ;; ret (m =? 1, e)
                     else ret (false, 0)) ;;
      if pow2 : bool then
        x <- load fuel x ;;
        put1 opAsr (r x) (r x) e ;;
        ret (x, y)
      else if Mode y =? orb.ClassConst then
        if 0 <? A y then
          x <- load fuel x ;;
          put1a opDiv (r x) (r x) (A y) ;;
          ret (x, y)
        else Mark "bad divisor" ;; ret (x, y)
      else
        y <- load fuel y ;;
        c <- g_ check ;;
        when c (trap opLE 6) ;;
        x <- load fuel x ;;
        h <- g_ rh ;;
        put0 opDiv (sub32 h 2) (r x) (r y) ;;
        upd (set_rh (sub32 h 1)) ;;
        ret (set_r (sub32 (sub32 h 1) 1) x, y)
  else
    (* op == SymMod *)
    if (Mode x =? orb.ClassConst) && (Mode y =? orb.ClassConst) then
      if 0 <? A y then ret (set_A (rem32 (A x) (A y)) x, y)
      else Mark "bad modulus" ;; ret (x, y)
    else
      '(pow2, e) <- (if (Mode y =? orb.ClassConst) && (2 <=? A y)
                     then '(m, e) <- log2 fuel (A y) ;; ret (m =? 1, e)
                     else ret (false, 0)) ;;
      if pow2 : bool then
        x <- load fuel x ;;
        (if e <=? 16 then put1 opAnd (r x) (r x) (sub32 (A y) 1)
         else
           put1 opLsl (r x) (r x) (sub32 32 e) ;;
           put1 opRor (r x) (r x) (sub32 32 e)) ;;
        ret (x, y)
      else if Mode y =? orb.ClassConst then
        if 0 <? A y then
          x <- load fuel x ;;
          put1a opDiv (r x) (r x) (A y) ;;
          put0 (add32 opMov opU) (r x) 0 0 ;;
          ret (x, y)
        else Mark "bad modulus" ;; ret (x, y)
      else
        y <- load fuel y ;;
        c <- g_ check ;;
        when c (trap opLE 6) ;;
        x <- load fuel x ;;
        h <- g_ rh ;;
        put0 opDiv (sub32 h 2) (r x) (r y) ;;
        put0 (add32 opMov opU) (sub32 h 2) 0 0 ;;
        upd (set_rh (sub32 h 1)) ;;
        ret (set_r (sub32 (sub32 h 1) 1) x, y).

Definition Open (v : Z) : St unit :=
  upd (fun g =>
    mkGenerator 0 (varSize g) 0 0 (entry g) 0 (frame g) 0 0 0
      (negb (v =? 0)) v (relMap g) (code g) (data g) (str g)) ;;
  when (v =? 0) (
    forRange [1; 2; 3; 4; 5; 6; 7] (fun pc _ =>
      upd (set_PC pc) ;; setCode pc 0) tt ;;
    upd (set_PC 8)).

Definition SetDataSize (dc : Z) : St unit := upd (set_varSize dc).

Definition Header : St unit :=
  pc <- g_ PC ;;
  upd (set_entry (mul32 pc 4)) ;;
  v <- g_ version ;;
  if v =? 0 then
    (* RISC-0 *)
    let i := 3875536896 - 1 in
    pc <- g_ PC ;;
    setCode 0 (add32 (i32 i) pc) ;;
    put1a opMov sp 0 stkOrg0
  else
    put1 opSub sp sp 4 ;;
    put2 opStr lnk sp 0.

Fixpoint nOfPtrs (fuel : nat) (typ : orb.ptr) : St Z :=
  match fuel with
  | O => fail
  | S k =>
    ty <- typeAt typ ;;
    if (orb.Typ.Form ty =? orb.FormPointer)
       || (orb.Typ.Form ty =? orb.FormNilTyp) then ret 1
    else if orb.Typ.Form ty =? orb.FormRecord then
      loop fuel (fun st : orb.ptr * Z =>
        let '(fld, n) := st in
        match fld with
        | None => ret (inr n)
        | Some _ =>
            f <- objAt fld ;;
            m <- nOfPtrs k (orb.Obj.Type_ f) ;;
            ret (inl (orb.Obj.Next f, add32 m n))
        end) (orb.Typ.Dsc ty, 0)
    else if orb.Typ.Form ty =? orb.FormArray then
      m <- nOfPtrs k (orb.Typ.Base ty) ;;
      ret (mul32 m (orb.Typ.Len ty))
    else ret 0
  end.

(** [findPtrs]; the writer [w] is threaded as the result. *)
Fixpoint findPtrs (fuel : nat) (w : list byte) (typ : orb.ptr) (adr : Z)
  : St (list byte) :=
  match fuel with
  | O => fail
  | S k =>
    ty <- typeAt typ ;;
    if (orb.Typ.Form ty =? orb.FormPointer)
       || (orb.Typ.Form ty =? orb.FormNilTyp) then
      ret (files.WriteInt w adr)
    else if orb.Typ.Form ty =? orb.FormRecord then
      loop fuel (fun st : orb.ptr * list byte =>
        let '(fld, w) := st in
        match fld with
        | None => ret (inr w)
        | Some _ =>
            f <- objAt fld ;;
            w <- findPtrs k w (orb.Obj.Type_ f) (add32 (orb.Obj.Val f) adr) ;;
            ret (inl (orb.Obj.Next f, w))
        end) (orb.Typ.Dsc ty, w)
    else if orb.Typ.Form ty =? orb.FormArray then
      bt <- typeAt (orb.Typ.Base ty) ;;
      let s := orb.Typ.Size bt in
      forRange (orb.upto (orb.Typ.Len ty)) (fun i w =>
        findPtrs k w (orb.Typ.Base ty) (add32 (mul32 i s) adr)) w
    else ret w
  end.

(** The test of [Close] for a command: an exported parameterless proper
    procedure. *)
Definition isCommand (o : orb.Obj.t) : St bool :=
  if negb (orb.Obj.ExNo o =? 0) && (orb.Obj.Class o =? orb.ClassConst) then
    ty <- typeAt (orb.Obj.Type_ o) ;;
    nt <- gets (fun s => orb.NoType (base s)) ;;
    ret ((orb.Typ.Form ty =? orb.FormProc) && (orb.Typ.NOfPar ty =? 0)
         && orb.ptrEq (orb.Typ.Base ty) nt)
  else ret false.

(** A pass of [Close] over the objects of the top scope, from [obj] on,
    with loop-carried locals [a]; [body] gives the new locals, or stops
    the pass with [None]. *)
Definition overObjects {A} (fuel : nat)
  (body : orb.Obj.t -> A -> St (option A)) (obj : orb.ptr) (a : A)
  : St (orb.ptr * A) :=
  loop fuel (fun st : orb.ptr * A =>
    let '(obj, a) := st in
    match obj with
    | None => ret (inr st)
    | Some _ =>
        o <- objAt obj ;;
        r <- body o a ;;
        match r with
        | Some a' => ret (inl (orb.Obj.Next o, a'))
        | None => ret (inr st)
        end
    end) (obj, a).

Definition Close (fuel : nat) (modId : ors.Ident) (key nOfEnt : Z)
  : St unit :=
  (* exit code *)
  v <- g_ version ;;
  (if v =? 0 then
     put1 opMov 0 0 0 ;;
     put3 opBR 7 0   (* RISC-0 *)
   else
     put2 opLdr lnk sp 0 ;;
     put1 opAdd sp sp 4 ;;
     put3 opBR 7 lnk) ;;
  top <- (ts <- gets (fun s => orb.TopScope (base s)) ;; objAt ts) ;;
  sys <- gets (fun s => orb.System (base s)) ;;
  '(_, (nOfImps, comSize, nPtrs)) <-
    overObjects fuel (fun o '(nOfImps, comSize, nPtrs) =>
      if (orb.Obj.Class o =? orb.ClassMod)
         && negb (orb.ptrEq (orb.Obj.Dsc o) sys) then
        (* count imports *)
        ret (Some (i64 (nOfImps + 1), comSize, nPtrs))
      else
        cmd <- isCommand o ;;
        if cmd : bool then
          (* count commands *)
          let i := Z.of_nat (String.length (orb.Obj.Name o)) in
          let i := Z.quot (i + 4) 4 * 4 in
          ret (Some (nOfImps, i64 (comSize + (i + 4)), nPtrs))
        else if orb.Obj.Class o =? orb.ClassVar then
          (* count pointers *)
          m <- nOfPtrs fuel (orb.Obj.Type_ o) ;;
          ret (Some (nOfImps, comSize, add32 nPtrs m))
        else ret (Some (nOfImps, comSize, nPtrs)))
      (orb.Obj.Next top) (0, 4, 0) ;;
  (* varSize includes type descriptors *)
  g <- g_ (fun g => g) ;;
  let size :=
    add32 (add32 (add32 (varSize g) (strx g)) (i32 comSize))
      (mul32 (add32 (add32 (add32 (add32 (PC g) (i32 nOfImps)) nOfEnt)
                       nPtrs) 1) 4) in
  (* write code file *)
  let name := (modId ++ ".rsc")%string in
  let w := files.WriteString [] modId in
  let w := files.WriteInt w key in
  let w := files.Write w (version g) in
  let w := files.WriteInt w size in
  (* imports *)
  '(_, w) <- overObjects fuel (fun o w =>
      if orb.Obj.Class o =? orb.ClassMod then
        if negb (orb.ptrEq (orb.Obj.Dsc o) sys)
        then ret (Some (files.WriteInt
                          (files.WriteString w (orb.Obj.OrgName o))
                          (orb.Obj.Val o)))
        else ret (Some w)
      else ret None) (orb.Obj.Next top) w ;;
  let w := files.Write w 0 in
  let w := files.WriteInt w (mul32 (tdx g) 4) in
  (* type descriptors *)
  w <- forRange (orb.upto (tdx g)) (fun i w =>
         d <- must (arrGet (data g) i) ;; ret (files.WriteInt w d)) w ;;
  (* data *)
  let w := files.WriteInt w (sub32 (varSize g) (mul32 (tdx g) 4)) in
  let w := files.WriteInt w (strx g) in
  (* strings *)
  w <- forRange (orb.upto (strx g)) (fun i w =>
         c <- must (arrGet (str g) i) ;; ret (files.WriteByte w c)) w ;;
  (* code len *)
  let w := files.WriteInt w (PC g) in
  (* program *)
  w <- forRange (orb.upto (PC g)) (fun i w =>
         c <- must (arrGet (code g) i) ;; ret (files.WriteInt w c)) w ;;
  (* commands *)
  '(_, w) <- overObjects fuel (fun o w =>
      cmd <- isCommand o ;;
      if cmd : bool
      then ret (Some (files.WriteInt (files.WriteString w (orb.Obj.Name o))
                        (orb.Obj.Val o)))
      else ret (Some w)) (orb.Obj.Next top) w ;;
  let w := files.Write w 0 in
  let w := files.WriteInt w nOfEnt in
  let w := files.WriteInt w (entry g) in
  (* entries *)
  '(_, w) <- overObjects fuel (fun o w =>
      if negb (orb.Obj.ExNo o =? 0) then
        isProc <- (if orb.Obj.Class o =? orb.ClassConst
                   then ty <- typeAt (orb.Obj.Type_ o) ;;
                        ret (orb.Typ.Form ty =? orb.FormProc)
                   else ret false) ;;
        if (isProc : bool) || (orb.Obj.Class o =? orb.ClassVar)
        then ret (Some (files.WriteInt w (orb.Obj.Val o)))
        else if orb.Obj.Class o =? orb.ClassTyp then
          ty <- typeAt (orb.Obj.Type_ o) ;;
          if orb.Typ.Form ty =? orb.FormRecord
          then ret (Some (files.WriteInt w (rem32 (orb.Typ.Len ty) 65536)))
          else if orb.Typ.Form ty =? orb.FormPointer then
            bt <- typeAt (orb.Typ.Base ty) ;;
            anon <- (match orb.Typ.TypObj bt with
                     | None => ret true
                     | Some _ => bo <- objAt (orb.Typ.TypObj bt) ;;
                                 ret (orb.Obj.ExNo bo =? 0)
                     end) ;;
            if anon : bool
            then ret (Some (files.WriteInt w
                              (rem32 (orb.Typ.Len bt) 65536)))
            else ret (Some w)
          else ret (Some w)
        else ret (Some w)
      else ret (Some w)) (orb.Obj.Next top) w ;;
  (* pointer variables *)
  '(_, w) <- overObjects fuel (fun o w =>
      if orb.Obj.Class o =? orb.ClassVar
      then w <- findPtrs fuel w (orb.Obj.Type_ o) (orb.Obj.Val o) ;;
           ret (Some w)
      else ret (Some w)) (orb.Obj.Next top) w ;;
  let w := files.WriteInt w (-1) in
  let w := files.WriteInt w (fixOrgP g) in
  let w := files.WriteInt w (fixOrgD g) in
  let w := files.WriteInt w (fixOrgT g) in
  let w := files.WriteInt w (entry g) in
  let w := files.Write w 79 in   (* 'O' *)
  modify (fun s => set_fs (orb.writeFile (fs s) name w) s).

End org.

(** ** Package orp: the end of [Parser.module] *)

Module orp.

(** The fields of [Parser] that the end of [module] uses, with the state
    of the three packages it drives; [out] is what [log] has printed on
    the parser's writer. *)
Record State : Type := mkState {
  sc : ors.Scanner;
  base : orb.Base;
  gen : org.Generator;
  fs : orb.FileSystem;
  buf : list byte;       (* the buffer of orb.Export *)
  dc : Z;                (* data counter *)
  exNo : Z;
  version : Z;
  newSF : bool;          (* option flag: new symbol file? *)
  modId : ors.Ident;
  pbsList : list (ors.Ident * orb.ptr);
  out : list string
}.

Definition set_newSF v (p : State) :=
  mkState (sc p) (base p) (gen p) (fs p) (buf p) (dc p) (exNo p)
    (version p) v (modId p) (pbsList p) (out p).
Definition set_pbsList v (p : State) :=
  mkState (sc p) (base p) (gen p) (fs p) (buf p) (dc p) (exNo p)
    (version p) (newSF p) (modId p) v (out p).
Definition set_out v (p : State) :=
  mkState (sc p) (base p) (gen p) (fs p) (buf p) (dc p) (exNo p)
    (version p) (newSF p) (modId p) (pbsList p) v.

Definition St := M State.

(** The parts of the state that package orb, package org and the scanner
    work on. *)
Definition toOrb (p : State) : orb.State :=
  orb.mkState (sc p) (base p) (buf p) (fs p).
Definition fromOrb (o : orb.State) (p : State) : State :=
  mkState (orb.sc o) (orb.base o) (gen p) (orb.fs o) (orb.buf o) (dc p)
    (exNo p) (version p) (newSF p) (modId p) (pbsList p) (out p).
Definition toOrg (p : State) : org.State :=
  org.mkState (sc p) (base p) (gen p) (fs p).
Definition fromOrg (g : org.State) (p : State) : State :=
  mkState (org.sc g) (org.base g) (org.gen g) (org.fs g) (buf p) (dc p)
    (exNo p) (version p) (newSF p) (modId p) (pbsList p) (out p).
Definition toBase (p : State) : orb.Base := base p.
Definition fromBase (b : orb.Base) (p : State) : State :=
  mkState (sc p) b (gen p) (fs p) (buf p) (dc p) (exNo p) (version p)
    (newSF p) (modId p) (pbsList p) (out p).

Definition inOrb {A} (m : orb.St A) : St A := zoom toOrb fromOrb m.
Definition inOrg {A} (m : org.St A) : St A := zoom toOrg fromOrg m.
Definition inBase {A} (m : M orb.Base A) : St A := zoom toBase fromBase m.

Definition log (a : string) : St unit :=
  modify (fun p => set_out (out p ++ [a]) p).

(** [%X] of a [uint32]. *)
Definition hexChar (d : Z) : ascii :=
  if d <? 10 then ascii_of_N (Z.to_N (48 + d))
  else ascii_of_N (Z.to_N (55 + d)).

Fixpoint fmtHexLoop (fuel : nat) (u : Z) (acc : string) : string :=
  match fuel with
  | O => acc
  | S n =>
      let acc := String (hexChar (u mod 16)) acc in
      if u / 16 =? 0 then acc else fmtHexLoop n (u / 16) acc
  end.

Definition fmtHex (u : Z) : string := fmtHexLoop 8 u EmptyString.

(** The end of [module], from [key := int32(0)] on: export, object file
    and the closing of the scope. *)
Definition moduleEnd (fuel : nat) : St unit :=
  e <- gets (fun p => ors.ErrCnt (sc p)) ;;
  v <- gets version ;;
  key <- (if (e =? 0) && negb (v =? 0) then
            id <- gets modId ;; sf <- gets newSF ;;
            '(key, sf') <- inOrb (orb.Export fuel id sf) ;;
            modify (set_newSF sf') ;;
            when sf' (log " new symbol file") ;;
            ret key
          else ret 0) ;;
  e <- gets (fun p => ors.ErrCnt (sc p)) ;;
  (if e =? 0 then
     id <- gets modId ;; n <- gets exNo ;;
     inOrg (org.Close fuel id key n) ;;
     pc <- gets (fun p => org.PC (gen p)) ;;
     d <- gets dc ;;
     log (" " ++ ors.fmtInt pc ++ " " ++ ors.fmtInt d ++ " "
          ++ fmtHex (u32 key))%string
   else log (String "010" "compilation FAILED")) ;;
  log (String "010" "") ;;
  inBase orb.CloseScope ;;
  modify (set_pbsList []).

End orp.

(** ** Example compilations

    Symbol tables as the parser leaves them for small modules, built with
    the functions of package orb the way [declarations] and [recordType]
    do. *)

Module Scenarios.
Import orb.

(** [CONST name* = val] of type INTEGER. *)
Definition declConst (fuel : nat) (name : string) (expo : bool) (val : Z)
  : St unit :=
  it <- gets (fun s => IntType (base s)) ;;
  obj <- NewObj fuel name ClassConst ;;
  setObj obj (fun o =>
    Obj.mk (Obj.Class o) (Obj.ExNo o) expo (Obj.Rdo o) 0 (Obj.Next o)
      (Obj.Dsc o) it (Obj.Name o) (Obj.OrgName o) val).

(** The field list of a record of INTEGER fields, as [recordType] links
    it: each field points to the one declared before it. *)
Fixpoint declFields (fields : list (string * bool)) (bot : ptr) (off : Z)
  : St ptr :=
  match fields with
  | [] => ret bot
  | (name, expo) :: rest =>
      it <- gets (fun s => IntType (base s)) ;;
      f <- zoom base set_base
             (newObject (Obj.mk ClassFld 0 expo false 0 bot None it name
                           EmptyString off)) ;;
      declFields rest f (off + 4)
  end.

(** [TYPE name* = RECORD fields END] at level 0, with export number
    [exno]; the result is the record type. *)
Definition declRecord (fuel : nat) (name : string) (expo : bool)
    (exno : Z) (fields : list (string * bool)) : St ptr :=
  dsc <- declFields fields None 0 ;;
  tp <- zoom base set_base
          (newTypeCell (Typ.mk FormRecord 0 0 0 0 dsc None None
                          (4 * Z.of_nat (List.length fields)))) ;;
  obj <- NewObj fuel name ClassTyp ;;
  setObj obj (fun o =>
    Obj.mk (Obj.Class o) (if expo then exno else 0) expo (Obj.Rdo o) 0
      (Obj.Next o) (Obj.Dsc o) tp (Obj.Name o) (Obj.OrgName o)
      (Obj.Val o)) ;;
  setType tp (Typ.set_TypObj obj) ;;
  ret tp.

(** The symbol table at the start of a module body: universe, then the
    module's scope. *)
Definition moduleBase : Base :=
  Eval vm_compute in
    match exec (NewBase ;; Init ;; OpenScope) emptyBase with
    | Some b => b
    | None => emptyBase
    end.

(** The scanner at the end of a text. *)
Definition scanned (input : string) : ors.Scanner :=
  match ors.scanText input with
  | Some (_, s) => s
  | None => ors.NewScanner input
  end.

Definition start (input : string) (files_ : FileSystem) : State :=
  mkState (scanned input) moduleBase [] files_.

(** The state of the code generator for a symbol table: a generator
    opened for RISC-5. *)
Definition generating (o : State) : org.State :=
  match exec (org.Open 1)
          (org.mkState (sc o) (base o) org.NewGenerator (fs o)) with
  | Some g => g
  | None => org.mkState (sc o) (base o) org.NewGenerator (fs o)
  end.

(** [MODULE M; TYPE R* = RECORD a*: INTEGER; b: INTEGER END; END M.]
    before the type descriptor is built; with the record type. *)
Definition recordR : option (ptr * State) :=
  declRecord 64 "R" true 1 [("a", true); ("b", false)]
    (start "MODULE M; TYPE R* = RECORD a*: INTEGER; b: INTEGER END; END M."
       []).

(** A record of seven INTEGER fields, 28 bytes. *)
Definition record28 : option (ptr * State) :=
  declRecord 64 "S" true 1
    [("a", true); ("b", true); ("c", true); ("d", true); ("e", true);
     ("f", true); ("g", true)] (start "" []).

(** The generator state for [recordR] and [record28], and their record
    type. *)
Definition stateR : org.State :=
  match recordR with
  | Some (_, o) => generating o
  | None => generating (start "" [])
  end.
Definition state28 : org.State :=
  match record28 with
  | Some (_, o) => generating o
  | None => generating (start "" [])
  end.
Definition typeR : ptr := Some 9%nat.

(** [MODULE M; CONST K* = 42; END M.] *)
Definition constK (files_ : FileSystem) : option State :=
  exec (declConst 64 "K" true 42)
    (start "MODULE M; CONST K* = 42; END M." files_).

Definition stateK (files_ : FileSystem) : State :=
  match constK files_ with
  | Some s => s
  | None => start "MODULE M; CONST K* = 42; END M." files_
  end.

(** A symbol file of an earlier compilation of M, with key 0x04030201. *)
Definition oldSmb : list byte :=
  map byteOf [0; 0; 0; 0; 1; 2; 3; 4; 77; 0; 1; 0].

(** The parser at the end of [MODULE M; CONST K* = 42; END M.] (or of
    [MODULE* M; ...] for version 0), before the files are written. *)
Definition parsedK (version : Z) (newSF : bool) (files_ : FileSystem)
  : orp.State :=
  let o := stateK files_ in
  let g0 := org.mkState (sc o) (base o) org.NewGenerator (fs o) in
  let g := match exec (org.Open version ;; org.SetDataSize 0 ;; org.Header)
                   g0 with
           | Some g => g
           | None => g0
           end in
  orp.mkState (org.sc g) (org.base g) (org.gen g) (org.fs g) []
    (if version =? 0 then 8 else 0) 1 version newSF "M" []
    ["  compiling "; "M"].

(** A state in which the scanner has just delivered the identifier
    [id]. *)
Definition lookingFor (id : ors.Ident) (s : State) : State :=
  set_sc (ors.set_Id id (sc s)) s.

End Scenarios.

(** ** Notions used to state the scanner's properties *)

Module orsSpec.
Import ors.

(** The line that [Mark] prints for message [msg] at position [p]. *)
Definition diagLine (p : Z) (msg : string) : string :=
  String "010" ("  pos " ++ fmtInt p ++ " " ++ msg)%string.

(** The test that [Mark] makes before it prints. *)
Definition markGuard (s : Scanner) : bool :=
  (errPos s <? Pos s) && (ErrCnt s <? 25).

(** As long as fewer than 2^63 diagnostics were raised, the counter
    [ErrCnt] is the number of calls of [Mark], and the messages written are
    at most 25 and at most that number. *)
Definition throttled (s : Scanner) : Prop :=
  Z.of_nat (List.length (marked s)) < 2 ^ 63 ->
  ErrCnt s = Z.of_nat (List.length (marked s)) /\
  (List.length (w s) <= 25)%nat /\
  (List.length (w s) <= List.length (marked s))%nat.

(** The scanner after a call of [Mark]. *)
Definition afterMark (msg : string) (s : Scanner) : Scanner :=
  {| Ival := Ival s; Rval := Rval s; Id := Id s; Str := Str s;
     ErrCnt := i64 (ErrCnt s + 1); ch := ch s; eot := eot s;
     errPos := i64 (Pos s + 4); pos := pos s; r := r s;
     w := if markGuard s then w s ++ [diagLine (Pos s) msg] else w s;
     marked := marked s ++ [(Pos s, msg)] |}.

(** The test for printing as the specification words it: the position is
    strictly beyond the last reported position plus 3 and fewer than 25
    errors have been emitted. *)
Definition claimedGuard (lastReported emitted p : Z) : bool :=
  (lastReported + 3 <? p) && (emitted <? 25).

(** Letters and digits, the bytes that continue an identifier. *)
Definition isAlnum (c : ascii) : bool := isDigit c || isUpper c || isLower c.

Fixpoint allAlnum (cs : string) : bool :=
  match cs with
  | EmptyString => true
  | String c cs' => isAlnum c && allAlnum cs'
  end.

(** The input after an identifier: empty, or a byte that is no letter and
    no digit. *)
Definition endsIdent (rest : string) : bool :=
  match rest with
  | EmptyString => true
  | String c _ => negb (isAlnum c)
  end.

(** What remains of the input once the byte after a lexeme was read. *)
Definition afterNext (rest : string) : string :=
  match rest with
  | EmptyString => EmptyString
  | String _ t => t
  end.

(** The first [n] bytes of a text. *)
Definition firstBytes (n : nat) (t : string) : string := substring 0 n t.

(** One byte offered to the identifier buffer, and a run of them. *)
Definition addByte (buf : string) (c : ascii) : string :=
  if strLen buf <? IdLen - 1 then writeByte buf c else buf.

Fixpoint addBytes (buf : string) (cs : string) : string :=
  match cs with
  | EmptyString => buf
  | String c cs' => addBytes (addByte buf c) cs'
  end.

(** Hexadecimal digits as [number] accepts them: 0-9 and A-F. *)
Definition isHexDigit (c : ascii) : bool := isDigit c || isHexLetter c.

Fixpoint allHex (cs : string) : bool :=
  match cs with
  | EmptyString => true
  | String c cs' => isHexDigit c && allHex cs'
  end.

(** The input after the digits of a number: empty, or a byte that is no
    hexadecimal digit. *)
Definition endsDigits (rest : string) : bool :=
  match rest with
  | EmptyString => true
  | String c _ => negb (isHexDigit c)
  end.

(** The byte that [nextCh] delivers from the input [rest]. *)
Definition nextByte (rest : string) : ascii :=
  match rest with
  | EmptyString => zero
  | String c _ => c
  end.

(** The value of a hexadecimal digit, and of a hexadecimal numeral as a
    mathematical integer. *)
Definition hexDigitVal (c : ascii) : Z :=
  if isDigit c then code c - 48 else code c - 55.

Fixpoint hexValueFrom (acc : Z) (cs : string) : Z :=
  match cs with
  | EmptyString => acc
  | String c cs' => hexValueFrom (acc * 16 + hexDigitVal c) cs'
  end.

Definition hexValue (cs : string) : Z := hexValueFrom 0 cs.

(** The entries that the digit loop of [number] stores for a run of bytes. *)
Fixpoint digitCodes (cs : string) : list Z :=
  match cs with
  | EmptyString => []
  | String c cs' => (code c - 48) :: digitCodes cs'
  end.

(** The symbol of an identifier text: its keyword, or [SymIdent]. *)
Definition symOf (id : Ident) : Sym :=
  match lookup keyTab id with
  | Some kwSym => kwSym
  | None => SymIdent
  end.

(** Decimal digits, and the value of a decimal numeral as a mathematical
    integer. *)
Fixpoint allDigits (cs : string) : bool :=
  match cs with
  | EmptyString => true
  | String c cs' => isDigit c && allDigits cs'
  end.

Fixpoint decValueFrom (acc : Z) (cs : string) : Z :=
  match cs with
  | EmptyString => acc
  | String c cs' => decValueFrom (acc * 10 + (code c - 48)) cs'
  end.

Definition decValue (cs : string) : Z := decValueFrom 0 cs.

(** The input after a decimal integer: empty, or a byte that is no
    hexadecimal digit, no suffix letter and no period. *)
Definition endsDecimal (rest : string) : bool :=
  match rest with
  | EmptyString => true
  | String c _ =>
      negb (isHexDigit c)
      && negb (chEq c "H" || chEq c "R" || chEq c "X" || chEq c ".")
  end.

(** A diagnostic with the message [msg]. *)
Definition saying (msg : string) (e : Z * string) : Prop := snd e = msg.

(** The bytes of a string literal that reach the buffer: the control
    characters are dropped. *)
Fixpoint strText (cs : string) : string :=
  match cs with
  | EmptyString => EmptyString
  | String c cs' =>
      if chLe " " c then String c (strText cs') else strText cs'
  end.

Fixpoint noQuote (cs : string) : bool :=
  match cs with
  | EmptyString => true
  | String c cs' => negb (chEq c "034") && noQuote cs'
  end.

(** The reader is consistent: once the end of the input was met, no byte
    is left and the current byte is 0. *)
Definition consistent (s : Scanner) : Prop :=
  eot s = true -> r s = EmptyString /\ ch s = zero.

(** What is left to read, the end of the input included. *)
Definition toRead (s : Scanner) : nat :=
  if eot s then O else S (String.length (r s)).

(** The scanner has advanced from [s] to [s'], or is where it was. *)
Definition advanced (s s' : Scanner) : Prop :=
  consistent s' /\
  ((toRead s' < toRead s)%nat \/
   (toRead s' = toRead s /\ ch s' = ch s /\ eot s' = eot s)).

End orsSpec.

(** ** Notions used to state the properties of Export *)

Module orbSpec.
Import orb.

(** The [int32] words of a byte sequence, little-endian, and their 32-bit
    wrapping sum. *)
Fixpoint wordsOf (r : list byte) : list Z :=
  match r with
  | b0 :: b1 :: b2 :: b3 :: rest => files.int32Of b0 b1 b2 b3 :: wordsOf rest
  | _ => []
  end.

Definition wordSum (r : list byte) : Z := i32 (fold_right Z.add 0 (wordsOf r)).

(** The key stored in a symbol file: its second word. *)
Definition fileKey (c : list byte) : option Z :=
  match files.ReadInt c with
  | Some (_, c1) => option_map fst (files.ReadInt c1)
  | None => None
  end.

Definition smbName (modId : ors.Ident) : string := (modId ++ ".smb")%string.

(** Two states with the same symbol table and the same buffer. *)
Definition sameTable (s t : State) : Prop :=
  base s = base t /\ buf s = buf t.

(** The files are [F] and the buffer starts with [P]. *)
Definition extends (F : FileSystem) (P : list byte) (s : State) : Prop :=
  fs s = F /\ exists t, buf s = P ++ t.

(** The messages passed to [Mark] so far. *)
Definition messages (s : State) : list string :=
  map snd (ors.marked (sc s)).

(** The objects linked through [Next] from [p] are those at the indices
    [l], in this order, and the last one has no successor. *)
Fixpoint isChain (objs : list Obj.t) (p : ptr) (l : list nat) : bool :=
  match l, p with
  | [], None => true
  | i :: l', Some j =>
      Nat.eqb i j &&
      match nth_error objs i with
      | Some o => isChain objs (Obj.Next o) l'
      | None => false
      end
  | _, _ => false
  end.

(** The object at index [i] is named [id]. *)
Definition nameIs (objs : list Obj.t) (id : ors.Ident) (i : nat) : bool :=
  match nth_error objs i with
  | Some o => String.eqb (Obj.Name o) id
  | None => false
  end.

(** The first object named [id] among those at the indices [l], and the
    objects before it. *)
Fixpoint named (objs : list Obj.t) (id : ors.Ident) (l : list nat) : ptr :=
  match l with
  | [] => None
  | i :: l' => if nameIs objs id i then Some i else named objs id l'
  end.

Fixpoint before (objs : list Obj.t) (id : ors.Ident) (l : list nat)
  : list nat :=
  match l with
  | [] => []
  | i :: l' => if nameIs objs id i then [] else i :: before objs id l'
  end.

(** The scopes linked through [Dsc] from [p]: for each one the index of
    its head and the indices of its objects. *)
Fixpoint isScopes (objs : list Obj.t) (p : ptr) (ss : list (nat * list nat))
  : bool :=
  match ss, p with
  | [], None => true
  | (h, l) :: ss', Some j =>
      Nat.eqb h j &&
      match nth_error objs h with
      | Some o => isChain objs (Obj.Next o) l && isScopes objs (Obj.Dsc o) ss'
      | None => false
      end
  | _, _ => false
  end.

(** The first object named [id] in the innermost scope that has one. *)
Fixpoint lookupIn (objs : list Obj.t) (id : ors.Ident)
    (ss : list (nat * list nat)) : ptr :=
  match ss with
  | [] => None
  | (_, l) :: ss' =>
      match named objs id l with
      | Some i => Some i
      | None => lookupIn objs id ss'
      end
  end.

End orbSpec.

(** ** Notions used to state the generator's properties *)

Module orgSpec.
Import org.

(** The sizes that a type descriptor can announce: 32, 64, 128 or a
    multiple of 256. *)
Definition isAllocSize (v : Z) : Prop :=
  v = 32 \/ v = 64 \/ v = 128 \/ (0 < v /\ v mod 256 = 0).

(** [v] is [n] rounded up to the nearest allocation size. *)
Definition roundsUpTo (n v : Z) : Prop :=
  isAllocSize v /\ n <= v /\
  forall v', isAllocSize v' -> n <= v' -> v <= v'.

(** Word [j] of the descriptor area holds [v]. *)
Definition keeps (j v : Z) (s : State) : Prop :=
  arrGet (data (gen s)) j = Some v.

(** The word index [dcw] is past word [j], or unusable. *)
Definition past (j dcw : Z) : Prop := in_i32 dcw /\ (j < dcw \/ dcw < 0).

(** The files are [F]. *)
Definition filesAre (F : orb.FileSystem) (s : State) : Prop := fs s = F.

(** Floored division and modulus, as Oberon defines DIV and MOD. *)
Definition floorDiv (x y : Z) : Z := x / y.
Definition floorMod (x y : Z) : Z := x - y * (x / y).

(** A constant item of value [v]. *)
Definition constItem (typ : orb.ptr) (v : Z) : Item :=
  mkItem orb.ClassConst typ v 0 0 false.

(** What happens between and at the statement boundaries of a
    compilation, as far as the register stack, the frame and the error
    count are concerned: the parser reports an error, the scanner reads a
    byte, the generator leaves the register index, the frame offset and
    the program counter at some values, or a statement ends and
    [CheckRegs] is called. *)
Inductive action : Type :=
| Report (msg : string)
| Advance
| Generate (rh' frame' pc' : Z)
| Boundary.

(** What is seen at a statement boundary: register index and frame
    offset before and after [CheckRegs], and the messages it reported. *)
Record boundary : Type := mkBoundary {
  rhIn : Z; frameIn : Z;
  rhOut : Z; frameOut : Z;
  reported : list string
}.

(** One action; the result is what was seen if it is a statement
    boundary. *)
Definition step (a : action) : St (list boundary) :=
  match a with
  | Report msg => Mark msg ;; ret []
  | Advance => zoom sc set_sc ors.nextCh ;; ret []
  | Generate h f pc =>
      upd (fun g => set_PC pc (set_frame f (set_rh h g))) ;;
      ret []
  | Boundary =>
      h <- g_ rh ;; f <- g_ frame ;;
      before <- gets (fun s => ors.marked (sc s)) ;;
      CheckRegs ;;
      h' <- g_ rh ;; f' <- g_ frame ;;
      after <- gets (fun s => ors.marked (sc s)) ;;
      ret [mkBoundary h f h' f'
             (map snd (skipn (List.length before) after))]
  end.

(** Run a sequence of actions; the result lists what was seen at each
    statement boundary. *)
Fixpoint run (acts : list action) : St (list boundary) :=
  match acts with
  | [] => ret []
  | a :: acts' =>
      obs <- step a ;;
      rest <- run acts' ;;
      ret (obs ++ rest)
  end.

(** At a boundary the check leaves both values at 0 and reports each
    violation. *)
Definition enforced (o : boundary) : Prop :=
  rhOut o = 0 /\ frameOut o = 0 /\
  (rhIn o <> 0 -> In "Reg Stack" (reported o)) /\
  (frameIn o <> 0 -> In "frame error" (reported o)).

(** A boundary reached with both values at 0. *)
Definition balanced (o : boundary) : Prop := rhIn o = 0 /\ frameIn o = 0.

(** The state after [CheckRegs], and the messages it passes to [Mark]. *)
Definition checked (s : State) : State :=
  let s1 := if negb (rh (gen s) =? 0)
            then set_gen (set_rh 0 (gen s))
                   (set_sc (orsSpec.afterMark "Reg Stack" (sc s)) s)
            else s in
  let s2 := if maxCode - 40 <=? PC (gen s1)
            then set_sc (orsSpec.afterMark "program too long" (sc s1)) s1
            else s1 in
  if negb (frame (gen s2) =? 0)
  then set_gen (set_frame 0 (gen s2))
         (set_sc (orsSpec.afterMark "frame error" (sc s2)) s2)
  else s2.

Definition checkedMsgs (s : State) : list string :=
  (if negb (rh (gen s) =? 0) then ["Reg Stack"] else [])
  ++ (if maxCode - 40 <=? PC (gen s) then ["program too long"] else [])
  ++ (if negb (frame (gen s) =? 0) then ["frame error"] else []).

(** A state of the generator before the first statement. *)
Definition initial (input : string) : State :=
  mkState (ors.NewScanner input) orb.emptyBase NewGenerator [].

End orgSpec.

(** * Properties *)

(** ** Machine integers *)

Lemma i64_id (x : Z) : in_i64 x -> i64 x = x.
Proof.
  unfold in_i64, i64, wrap. intros H.
  change (2 ^ (64 - 1)) with (2 ^ 63).
  rewrite Z.mod_small; lia.
Qed.

Lemma i32_id (x : Z) : in_i32 x -> i32 x = x.
Proof.
  unfold in_i32, i32, wrap. intros H.
  change (2 ^ (32 - 1)) with (2 ^ 31).
  rewrite Z.mod_small; lia.
Qed.

Lemma i32_range (x : Z) : in_i32 (i32 x).
Proof.
  unfold in_i32, i32, wrap.
  change (2 ^ (32 - 1)) with (2 ^ 31).
  pose proof (Z.mod_pos_bound (x + 2 ^ 31) (2 ^ 32) ltac:(lia)). lia.
Qed.

Lemma i64_range (x : Z) : in_i64 (i64 x).
Proof.
  unfold in_i64, i64, wrap.
  change (2 ^ (64 - 1)) with (2 ^ 63).
  pose proof (Z.mod_pos_bound (x + 2 ^ 63) (2 ^ 64) ltac:(lia)). lia.
Qed.

(** Two integers with equal residues modulo 2^32 convert to the same
    [int32]. *)
Lemma i32_congr (x y : Z) : x mod 2 ^ 32 = y mod 2 ^ 32 -> i32 x = i32 y.
Proof.
  unfold i32, wrap. intros H.
  rewrite (Z.add_mod x), (Z.add_mod y), H by lia. reflexivity.
Qed.

Lemma i64_mod32 (x : Z) : i64 x mod 2 ^ 32 = x mod 2 ^ 32.
Proof.
  unfold i64, wrap. change (2 ^ (64 - 1)) with (2 ^ 63).
  rewrite Zminus_mod.
  change (2 ^ 63 mod 2 ^ 32) with 0. rewrite Z.sub_0_r, Z.mod_mod by lia.
  change (2 ^ 64) with (2 ^ 32 * 2 ^ 32).
  rewrite Z.rem_mul_r by lia.
  rewrite Z.mul_comm, Z.mod_add by lia. rewrite Z.mod_mod by lia.
  rewrite Z.add_mod by lia.
  change (2 ^ 63 mod 2 ^ 32) with 0. rewrite Z.add_0_r, Z.mod_mod by lia.
  reflexivity.
Qed.

(** ** The monad: preservation rules *)

Section Preservation.
Context {St : Type} (I : St -> Prop).

Lemma preserves_ret {A} (a : A) : preserves I (ret a).
Proof. intros s a' s' HI H. inversion H; subst; exact HI. Qed.

Lemma preserves_fail {A} : preserves I (@fail St A).
Proof. intros s a s' _ H. discriminate H. Qed.

Lemma preserves_gets {A} (f : St -> A) : preserves I (gets f).
Proof. intros s a s' HI H. inversion H; subst; exact HI. Qed.

Lemma preserves_modify (f : St -> St) :
  (forall s, I s -> I (f s)) -> preserves I (modify f).
Proof. intros Hf s a s' HI H. inversion H; subst. apply Hf, HI. Qed.

Lemma preserves_bind {A B} (m : M St A) (k : A -> M St B) :
  preserves I m -> (forall a, preserves I (k a)) -> preserves I (bind m k).
Proof.
  intros Hm Hk s b s' HI H. unfold bind in H.
  destruct (m s) as [[a s1]|] eqn:E; [|discriminate].
  eapply Hk; [eapply Hm; eassumption | exact H].
Qed.

Lemma preserves_when (b : bool) (m : M St unit) :
  preserves I m -> preserves I (when b m).
Proof. destruct b; simpl; [auto | intros _; apply preserves_ret]. Qed.

Lemma preserves_loop {A B} (body : A -> M St (A + B)) :
  (forall a, preserves I (body a)) ->
  forall fuel a, preserves I (loop fuel body a).
Proof.
  intros Hb fuel. induction fuel as [|n IH]; intros a; simpl.
  - apply preserves_fail.
  - apply preserves_bind; [apply Hb|].
    intros [a'|b]; [apply IH | apply preserves_ret].
Qed.

Lemma preserves_forRange {A X} (body : X -> A -> M St A) :
  (forall x a, preserves I (body x a)) ->
  forall xs a, preserves I (forRange xs body a).
Proof.
  intros Hb xs. induction xs as [|x xs IH]; intros a; simpl.
  - apply preserves_ret.
  - apply preserves_bind; [apply Hb | intros; apply IH].
Qed.
Lemma preserves_must {A} (o : option A) : preserves I (must o).
Proof.
intros s a s' HI E. destruct o; simpl in E; [|discriminate].
inversion E; subst. exact HI.
Qed.

End Preservation.

(** Decompose a goal [preserves I m] along the structure of [m]; leaves
    the calls it does not know. *)
Ltac pres_step :=
  match goal with
  | |- preserves _ (ret _) => apply preserves_ret
  | |- preserves _ fail => apply preserves_fail
  | |- preserves _ (gets _) => apply preserves_gets
  | |- preserves _ (bind _ _) => apply preserves_bind; [|intros]
  | |- preserves _ (when _ _) => apply preserves_when
  | |- preserves _ (loop _ _ _) => apply preserves_loop; intros
  | |- preserves _ (forRange _ _ _) => apply preserves_forRange; intros
  | |- preserves _ (if ?b then _ else _) => destruct b
  | |- preserves _ (match ?x with _ => _ end) => destruct x
  | H : _ |- _ => solve [apply H]
  end.
Ltac pres := repeat pres_step.

(** ** The monad: weakest preconditions *)

Section WP.
Context {St : Type}.

Lemma wp_elim {A} (m : M St A) (Q : A -> St -> Prop) (s : St) a s' :
  wp m Q s -> m s = Some (a, s') -> Q a s'.
Proof. unfold wp. intros H E. rewrite E in H. exact H. Qed.

Lemma wp_ret {A} (a : A) (Q : A -> St -> Prop) (s : St) :
  Q a s -> wp (ret a) Q s.
Proof. auto. Qed.

Lemma wp_fail {A} (Q : A -> St -> Prop) (s : St) : wp fail Q s.
Proof. exact I. Qed.

Lemma wp_gets {A} (f : St -> A) (Q : A -> St -> Prop) (s : St) :
  Q (f s) s -> wp (gets f) Q s.
Proof. auto. Qed.

Lemma wp_modify (f : St -> St) (Q : unit -> St -> Prop) (s : St) :
  Q tt (f s) -> wp (modify f) Q s.
Proof. auto. Qed.

Lemma wp_must {A} (o : option A) (Q : A -> St -> Prop) (s : St) :
  (forall a, o = Some a -> Q a s) -> wp (must o) Q s.
Proof. destruct o; simpl; unfold wp; simpl; auto. Qed.

Lemma wp_bind {A B} (m : M St A) (k : A -> M St B)
    (Q : B -> St -> Prop) (s : St) :
  wp m (fun a s' => wp (k a) Q s') s -> wp (bind m k) Q s.
Proof.
  unfold wp, bind. destruct (m s) as [[a s1]|]; auto.
Qed.

Lemma wp_mono {A} (m : M St A) (Q Q' : A -> St -> Prop) (s : St) :
  wp m Q s -> (forall a s', Q a s' -> Q' a s') -> wp m Q' s.
Proof.
  unfold wp. destruct (m s) as [[a s1]|]; auto.
Qed.

Lemma wp_when (b : bool) (m : M St unit) (Q : unit -> St -> Prop)
    (s : St) :
  (b = true -> wp m Q s) -> (b = false -> Q tt s) -> wp (when b m) Q s.
Proof. destruct b; simpl; intros H1 H2; [auto | apply wp_ret; auto]. Qed.

Lemma wp_loop {A B} (Inv : A -> St -> Prop) (Q : B -> St -> Prop)
    (body : A -> M St (A + B)) :
  (forall a s, Inv a s ->
     wp (body a) (fun r s' => match r with
                              | inl a' => Inv a' s'
                              | inr b => Q b s'
                              end) s) ->
  forall fuel a s, Inv a s -> wp (loop fuel body a) Q s.
Proof.
  intros Hb fuel. induction fuel as [|n IH]; intros a s HI; simpl.
  - apply wp_fail.
  - apply wp_bind. eapply wp_mono; [apply Hb; exact HI|].
    intros [a'|b] s' H; [apply IH; exact H | apply wp_ret; exact H].
Qed.

Lemma wp_forRange {A X} (Inv : A -> St -> Prop)
    (body : X -> A -> M St A) :
  (forall x a s, Inv a s -> wp (body x a) Inv s) ->
  forall xs a s, Inv a s -> wp (forRange xs body a) Inv s.
Proof.
  intros Hb xs. induction xs as [|x xs IH]; intros a s HI; simpl.
  - apply wp_ret; exact HI.
  - apply wp_bind. eapply wp_mono; [apply Hb; exact HI|].
    intros a' s' H. apply IH; exact H.
Qed.
End WP.

(** ** The monad: agreement of two runs *)

Section Agreement.
Context {St : Type} (R : St -> St -> Prop).

Lemma agree_ret {A} (a : A) : agree R (ret a).
Proof.
  intros s t x y s' t' HR H1 H2. inversion H1; inversion H2; subst. auto.
Qed.

Lemma agree_fail {A} : agree R (@fail St A).
Proof. intros s t x y s' t' _ H. discriminate H. Qed.

Lemma agree_must {A} (o : option A) : agree R (must o).
Proof.
  intros s t x y s' t' HR H1 H2. destruct o; simpl in *; [|discriminate].
  inversion H1; inversion H2; subst. auto.
Qed.

Lemma agree_gets {A} (f : St -> A) :
  (forall s t, R s t -> f s = f t) -> agree R (gets f).
Proof.
  intros Hf s t x y s' t' HR H1 H2. inversion H1; inversion H2; subst.
  auto.
Qed.

Lemma agree_modify (f : St -> St) :
  (forall s t, R s t -> R (f s) (f t)) -> agree R (modify f).
Proof.
  intros Hf s t x y s' t' HR H1 H2. inversion H1; inversion H2; subst.
  auto.
Qed.

Lemma agree_bind {A B} (m : M St A) (k : A -> M St B) :
  agree R m -> (forall a, agree R (k a)) -> agree R (bind m k).
Proof.
  intros Hm Hk s t x y s' t' HR H1 H2. unfold bind in H1, H2.
  destruct (m s) as [[a s1]|] eqn:E1; [|discriminate].
  destruct (m t) as [[b t1]|] eqn:E2; [|discriminate].
  destruct (Hm _ _ _ _ _ _ HR E1 E2) as [<- HR1].
  exact (Hk a _ _ _ _ _ _ HR1 H1 H2).
Qed.

Lemma agree_when (b : bool) (m : M St unit) :
  agree R m -> agree R (when b m).
Proof. destruct b; simpl; [auto | intros _; apply agree_ret]. Qed.

Lemma agree_loop {A B} (body : A -> M St (A + B)) :
  (forall a, agree R (body a)) ->
  forall fuel a, agree R (loop fuel body a).
Proof.
  intros Hb fuel. induction fuel as [|n IH]; intros a; simpl.
  - apply agree_fail.
  - apply agree_bind; [apply Hb|].
    intros [a'|b]; [apply IH | apply agree_ret].
Qed.

Lemma agree_forRange {A X} (body : X -> A -> M St A) :
  (forall x a, agree R (body x a)) ->
  forall xs a, agree R (forRange xs body a).
Proof.
  intros Hb xs. induction xs as [|x xs IH]; intros a; simpl.
  - apply agree_ret.
  - apply agree_bind; [apply Hb | intros; apply IH].
Qed.
End Agreement.

Ltac agree_step :=
  match goal with
  | |- agree _ (ret _) => apply agree_ret
  | |- agree _ fail => apply agree_fail
  | |- agree _ (must _) => apply agree_must
  | |- agree _ (bind _ _) => apply agree_bind; [|intros]
  | |- agree _ (when _ _) => apply agree_when
  | |- agree _ (loop _ _ _) => apply agree_loop; intros
  | |- agree _ (forRange _ _ _) => apply agree_forRange; intros
  | |- agree _ (if ?b then _ else _) => destruct b
  | |- agree _ (match ?x with _ => _ end) => destruct x
  | H : _ |- _ => solve [apply H]
  end.

(** ** Arrays *)

Lemma length_setNth {A} (a : list A) (n : nat) (v : A) :
  List.length (setNth a n v) = List.length a.
Proof.
  revert n. induction a as [|x a IH]; intros [|n]; simpl; auto.
Qed.

Lemma nth_error_setNth_ne {A} (a : list A) (n m : nat) (v : A) :
  n <> m -> nth_error (setNth a n v) m = nth_error a m.
Proof.
  revert n m. induction a as [|x a IH]; intros [|n] [|m] H; simpl; auto.
  contradiction.
Qed.

Lemma nth_error_setNth_eq {A} (a : list A) (n : nat) (v : A) :
  (n < List.length a)%nat -> nth_error (setNth a n v) n = Some v.
Proof.
  revert n. induction a as [|x a IH]; intros [|n] H; simpl in *;
    try lia; auto. apply IH. lia.
Qed.

Lemma arrSet_get_eq {A} (a a' : list A) (i : Z) (v : A) :
  arrSet a i v = Some a' -> arrGet a' i = Some v.
Proof.
  unfold arrSet, arrGet. intros H.
  destruct ((0 <=? i) && (i <? Z.of_nat (List.length a))) eqn:E;
    [|discriminate].
  inversion H; subst. rewrite length_setNth, E.
  apply andb_prop in E. destruct E as [E1 E2].
  apply Z.leb_le in E1. apply Z.ltb_lt in E2.
  apply nth_error_setNth_eq. lia.
Qed.

Lemma arrSet_get_ne {A} (a a' : list A) (i j : Z) (v : A) :
  arrSet a i v = Some a' -> i <> j -> arrGet a' j = arrGet a j.
Proof.
  unfold arrSet, arrGet. intros H Hne.
  destruct ((0 <=? i) && (i <? Z.of_nat (List.length a))) eqn:E;
    [|discriminate].
  inversion H; subst. rewrite length_setNth.
  destruct ((0 <=? j) && (j <? Z.of_nat (List.length a))) eqn:Ej;
    [|reflexivity].
  apply andb_prop in E. destruct E as [E1 E2].
  apply andb_prop in Ej. destruct Ej as [Ej1 Ej2].
  apply Z.leb_le in E1. apply Z.leb_le in Ej1.
  apply nth_error_setNth_ne. lia.
Qed.

Lemma arrSet_index {A} (a a' : list A) (i : Z) (v : A) :
  arrSet a i v = Some a' -> 0 <= i.
Proof.
  unfold arrSet. destruct (0 <=? i) eqn:E; simpl; [|discriminate].
  intros _. apply Z.leb_le. exact E.
Qed.

(** ** The scanner's diagnostics *)

Section Diagnostics.
Import ors orsSpec.

Lemma Mark_eq (msg : string) (s : Scanner) :
  Mark msg s = Some (tt, afterMark msg s).
Proof. reflexivity. Qed.

Lemma throttled_New (input : string) : throttled (NewScanner input).
Proof. intros _. simpl. repeat split; lia. Qed.

Lemma Mark_throttled (msg : string) : preserves throttled (Mark msg).
Proof.
  intros s a s' HI H. rewrite Mark_eq in H. inversion H; subst; clear H.
  unfold throttled, afterMark in *. simpl. rewrite !length_app. simpl.
  intros Hb. destruct HI as (HE & H25 & Hle); [lia|].
  split; [rewrite i64_id; [lia | unfold in_i64; lia]|].
  unfold markGuard. rewrite HE.
  destruct (errPos s <? Pos s); simpl; [|lia].
  destruct (Z.of_nat (List.length (marked s)) <? 25) eqn:E;
    [apply Z.ltb_lt in E | lia].
  rewrite length_app. simpl. lia.
Qed.

Lemma nextCh_throttled : preserves throttled nextCh.
Proof.
  intros s a s' HI H. unfold nextCh in H.
  destruct (r s); inversion H; subst; exact HI.
Qed.

Ltac pres_scan :=
  repeat first
    [ apply Mark_throttled
    | apply nextCh_throttled
    | apply preserves_modify; intros [] ?; assumption
    | pres_step ].

Lemma identifier_throttled fuel : preserves throttled (identifier fuel).
Proof. unfold identifier, identifierBody. pres_scan. Qed.

Lemma string_throttled fuel : preserves throttled (string_ fuel).
Proof. unfold string_. pres_scan. Qed.

Lemma hexDigit_throttled : preserves throttled hexDigit.
Proof. unfold hexDigit. pres_scan. Qed.

Lemma hexString_throttled fuel : preserves throttled (hexString fuel).
Proof.
  unfold hexString. pose proof hexDigit_throttled. pres_scan.
Qed.

Lemma decimalInteger_throttled d : preserves throttled (decimalInteger d).
Proof. unfold decimalInteger. pres_scan. Qed.

Lemma number_throttled fuel : preserves throttled (number fuel).
Proof.
  unfold number, digitsBody.
  pose proof decimalInteger_throttled. pres_scan.
Qed.

Lemma comment_throttled fuel : preserves throttled (comment fuel).
Proof.
  induction fuel as [|n IH]; simpl; pres_scan.
Qed.

Lemma Get1_throttled fuel : preserves throttled (Get1 fuel).
Proof.
  unfold Get1.
  pose proof (identifier_throttled fuel). pose proof (string_throttled fuel).
  pose proof (hexString_throttled fuel). pose proof (number_throttled fuel).
  pose proof (comment_throttled fuel). pres_scan.
Qed.

Lemma Get_throttled fuel : preserves throttled (Get fuel).
Proof. unfold Get. pose proof (Get1_throttled fuel). pres_scan. Qed.

Lemma scan_throttled fuel : preserves throttled (scan fuel).
Proof. unfold scan. pose proof (Get_throttled fuel). pres_scan. Qed.

(** C9, as the code has it: a call of [Mark] appends exactly one
    position-stamped line to the sink if and only if the current position is
    strictly greater than [errPos] and [ErrCnt] is below 25, and otherwise
    leaves the sink as it is; every call, printing or not, adds one to
    [ErrCnt] and sets [errPos] to the current position plus 4. *)
Theorem Mark_writes_iff (msg : string) (s : Scanner) :
  exists s', Mark msg s = Some (tt, s') /\
    (w s' = w s ++ [diagLine (Pos s) msg] <->
       (errPos s < Pos s /\ ErrCnt s < 25)) /\
    (w s' = w s <-> ~ (errPos s < Pos s /\ ErrCnt s < 25)) /\
    ErrCnt s' = i64 (ErrCnt s + 1) /\
    errPos s' = i64 (Pos s + 4).
Proof.
  eexists. split; [apply Mark_eq|]. unfold afterMark. simpl.
  assert (Hne : w s ++ [diagLine (Pos s) msg] <> w s).
  { intros E. apply (f_equal (@List.length _)) in E.
    rewrite length_app in E. simpl in E. lia. }
  unfold markGuard.
  destruct (errPos s <? Pos s) eqn:E1; destruct (ErrCnt s <? 25) eqn:E2;
    simpl;
    try apply Z.ltb_lt in E1; try apply Z.ltb_lt in E2;
    try apply Z.ltb_ge in E1; try apply Z.ltb_ge in E2;
    repeat split; try tauto; try lia; intros; try congruence;
    try (exfalso; lia); try (symmetry in H; contradiction).
Qed.

(** C9, counterexample: after a first diagnostic printed at position 2,
    [Mark] is called at position 6, which is strictly beyond 2 + 3, with one
    message emitted so far; nothing is printed. *)
Lemma Mark_claimed_guard_counterexample :
  exists s s',
    exec (Get 8 ;; nextCh ;; nextCh ;; nextCh ;; nextCh)
         (NewScanner "1A  1A") = Some s /\
    w s = [diagLine 2 "bad integer"] /\
    Pos s = 6 /\
    claimedGuard 2 (Z.of_nat (List.length (w s))) (Pos s) = true /\
    Mark "bad integer" s = Some (tt, s') /\
    w s' = w s.
Proof.
  eexists. eexists.
  split; [vm_compute; reflexivity|].
  repeat split.
Qed.

(** C2, as the code has it: after a scan of any input (fewer than 2^63
    diagnostics raised), at most 25 messages have been written to the sink
    and no more messages than the error count, which is the number of
    calls of [Mark] and has no cap. *)
Theorem scan_throttle (input : string) (fuel : nat)
    (toks : list Sym) (s : Scanner) :
  scan fuel (NewScanner input) = Some (toks, s) ->
  Z.of_nat (List.length (marked s)) < 2 ^ 63 ->
  (List.length (w s) <= 25)%nat /\
  Z.of_nat (List.length (w s)) <= ErrCnt s /\
  ErrCnt s = Z.of_nat (List.length (marked s)).
Proof.
  intros Hscan Hb.
  pose proof (scan_throttled fuel _ _ _ (throttled_New input) Hscan) as HI.
  destruct (HI Hb) as (HE & H25 & Hle). repeat split; lia.
Qed.

Lemma scan_throttle_witness :
  exists toks s,
    scanText "1A  1A" = Some (toks, s) /\
    (List.length (w s) <= 25)%nat /\
    Z.of_nat (List.length (w s)) <= ErrCnt s /\
    ErrCnt s = Z.of_nat (List.length (marked s)).
Proof.
  eexists. eexists. split; [vm_compute; reflexivity|].
  eapply (scan_throttle "1A  1A" (fuelFor "1A  1A"));
    [vm_compute; reflexivity | vm_compute; reflexivity].
Defined.

(** C2, counterexample: two numbers of fifteen bad digits each leave the
    error count at 30. *)
Lemma scan_error_count_above_25 :
  exists toks s,
    scanText "1AAAAAAAAAAAAAAA 1AAAAAAAAAAAAAAA" = Some (toks, s) /\
    ErrCnt s = 30 /\ ~ ErrCnt s <= 25.
Proof.
  eexists. eexists. split; [vm_compute; reflexivity|].
  split; [reflexivity | simpl; lia].
Qed.

End Diagnostics.

(** ** Identifiers *)

Section Identifiers.
Import ors orsSpec.

Lemma chLt_not_le (a b : ascii) : chLt a b = negb (chLe b a).
Proof.
  unfold chLt, chLe. rewrite Z.leb_antisym, negb_involutive. reflexivity.
Qed.

(** The exit test of the identifier loop. *)
Lemma ident_exit_test (c : ascii) :
  (chLt c "0" || chLt "9" c) && (chLt c "A" || chLt "Z" c)
    && (chLt c "a" || chLt "z" c) = negb (isAlnum c).
Proof.
  unfold isAlnum, isDigit, isUpper, isLower. rewrite !chLt_not_le.
  destruct (chLe "0" c), (chLe c "9"), (chLe "A" c), (chLe c "Z"),
    (chLe "a" c), (chLe c "z"); reflexivity.
Qed.

Lemma length_writeByte (b : string) (c : ascii) :
  String.length (writeByte b c) = S (String.length b).
Proof.
  unfold writeByte. induction b as [|x b IH]; simpl; [|rewrite IH];
    reflexivity.
Qed.

Lemma append_writeByte (b : string) (c : ascii) (t : string) :
  (writeByte b c ++ t)%string = (b ++ String c t)%string.
Proof.
  unfold writeByte. induction b as [|x b IH]; simpl; [reflexivity|].
  rewrite IH. reflexivity.
Qed.

Lemma append_empty_r (b : string) : (b ++ "")%string = b.
Proof. induction b as [|x b IH]; simpl; [|rewrite IH]; reflexivity. Qed.

Lemma firstBytes_empty (n : nat) : firstBytes n "" = "".
Proof. destruct n; reflexivity. Qed.

Lemma firstBytes_0 (t : string) : firstBytes 0 t = "".
Proof. destruct t; reflexivity. Qed.

Lemma addBytes_prefix (cs buf : string) :
  (String.length buf <= 31)%nat ->
  addBytes buf cs = (buf ++ firstBytes (31 - String.length buf) cs)%string.
Proof.
  revert buf. induction cs as [|c cs IH]; intros buf Hlen.
  - rewrite firstBytes_empty, append_empty_r. reflexivity.
  - simpl addBytes. unfold addByte, strLen, IdLen.
    destruct (Z.of_nat (String.length buf) <? 32 - 1) eqn:E.
    + apply Z.ltb_lt in E.
      rewrite IH by (rewrite length_writeByte; lia).
      rewrite length_writeByte, append_writeByte.
      unfold firstBytes.
      replace (31 - String.length buf)%nat
        with (S (31 - S (String.length buf)))%nat by lia.
      reflexivity.
    + apply Z.ltb_ge in E.
      rewrite IH by lia.
      replace (31 - String.length buf)%nat with 0%nat by lia.
      rewrite !firstBytes_0. reflexivity.
Qed.

Lemma identifierBody_eq (buf : string) (s : Scanner) :
  identifierBody buf s =
  match r s with
  | String x t =>
      Some (if isAlnum x then inl (addByte buf (ch s))
            else inr (addByte buf (ch s)),
            {| Ival := Ival s; Rval := Rval s; Id := Id s; Str := Str s;
               ErrCnt := ErrCnt s; ch := x; eot := eot s;
               errPos := errPos s; pos := i64 (pos s + 1); r := t;
               w := w s; marked := marked s |})
  | EmptyString =>
      Some (inr (addByte buf (ch s)),
            {| Ival := Ival s; Rval := Rval s; Id := Id s; Str := Str s;
               ErrCnt := ErrCnt s; ch := zero; eot := true;
               errPos := errPos s; pos := i64 (pos s + 1);
               r := EmptyString; w := w s; marked := marked s |})
  end.
Proof.
  unfold identifierBody, bind, gets, nextCh, addByte.
  destruct (r s) as [|x t]; [reflexivity|].
  cbv beta iota. rewrite ident_exit_test. cbn [ch].
  destruct (isAlnum x); reflexivity.
Qed.

(** The identifier loop on a state whose current byte is [ch s] and whose
    reader still holds [cs ++ rest]: it offers that byte and the bytes of
    [cs] to the buffer and stops on the byte that follows. *)
Lemma identifier_loop (cs : string) :
  forall (fuel : nat) (buf rest : string) (s : Scanner),
    r s = (cs ++ rest)%string ->
    allAlnum cs = true -> endsIdent rest = true ->
    (String.length cs < fuel)%nat ->
    exists s',
      loop fuel identifierBody buf s
        = Some (addBytes buf (String (ch s) cs), s') /\
      r s' = afterNext rest /\ w s' = w s /\ ErrCnt s' = ErrCnt s /\
      marked s' = marked s /\ errPos s' = errPos s.
Proof.
  induction cs as [|x cs IH]; intros fuel buf rest s Hr Hall Hend Hfuel;
    (destruct fuel as [|n]; [simpl in Hfuel; lia|]);
    simpl in Hr; simpl loop; unfold bind at 1;
    rewrite identifierBody_eq, Hr.
  - destruct rest as [|y rest].
    + eexists; split; [reflexivity|]. simpl. repeat split.
    + simpl in Hend. apply negb_true_iff in Hend. rewrite Hend.
      eexists; split; [reflexivity|]. simpl. repeat split.
  - simpl in Hall. apply andb_prop in Hall. destruct Hall as [Hx Hall].
    rewrite Hx.
    match goal with
    | |- context [loop n identifierBody ?b ?s1] =>
        destruct (IH n b rest s1) as (s' & Hl & Hr' & Hw & He & Hm & Hp);
          [reflexivity | exact Hall | exact Hend | simpl in Hfuel; lia |]
    end.
    exists s'. split; [|repeat split; assumption].
    simpl in Hl. simpl. exact Hl.
Qed.

(** C3, as the code has it: an identifier, however long, is accepted
    without a diagnostic and is cut to its first 31 bytes (the buffer takes
    [IdLen - 1] bytes); the keyword lookup and the delivered [Id] use that
    prefix. *)
Theorem identifier_truncates (cs rest : string) (fuel : nat) (s : Scanner) :
  r s = (cs ++ rest)%string ->
  allAlnum cs = true -> endsIdent rest = true ->
  (String.length cs < fuel)%nat ->
  exists s',
    identifier fuel s
      = Some (symOf (firstBytes 31 (String (ch s) cs)), s') /\
    Id s' = firstBytes 31 (String (ch s) cs) /\
    r s' = afterNext rest /\ w s' = w s /\ ErrCnt s' = ErrCnt s.
Proof.
  intros Hr Hall Hend Hfuel.
  destruct (identifier_loop cs fuel "" rest s Hr Hall Hend Hfuel)
    as (s' & Hl & Hr' & Hw & He & Hm & Hp).
  rewrite addBytes_prefix in Hl by (simpl; lia). simpl in Hl.
  unfold identifier, bind at 1. rewrite Hl.
  unfold bind, modify, symOf.
  destruct (lookup keyTab _); eexists; (split; [reflexivity|]);
    simpl; repeat split; assumption.
Qed.

Lemma identifier_truncates_witness :
  exists s',
    identifier 64
      (set_ch "a"
         (NewScanner "bcdefghijabcdefghijabcdefghijabcdefghij := 0"))
      = Some (SymIdent, s') /\
    Id s' = "abcdefghijabcdefghijabcdefghija" /\
    r s' = ":= 0" /\ w s' = [] /\ ErrCnt s' = 0.
Proof.
  apply (identifier_truncates
           "bcdefghijabcdefghijabcdefghijabcdefghij" " := 0" 64
           (set_ch "a"
              (NewScanner "bcdefghijabcdefghijabcdefghijabcdefghij := 0")));
    [reflexivity | reflexivity | reflexivity | simpl; lia].
Defined.

(** C3, counterexample: an identifier of 40 bytes is accepted, and the
    delivered [Id] has 31 bytes, not the first 32. *)
Lemma identifier_of_40_keeps_31 :
  exists toks s,
    scanText "abcdefghijabcdefghijabcdefghijabcdefghij" = Some (toks, s) /\
    toks = [SymIdent] /\ ErrCnt s = 0 /\
    String.length (Id s) = 31%nat /\
    Id s <> firstBytes 32 "abcdefghijabcdefghijabcdefghijabcdefghij".
Proof.
  eexists. eexists. split; [vm_compute; reflexivity|].
  repeat split. simpl. discriminate.
Qed.

End Identifiers.

(** ** Numbers *)

Section Numbers.
Import ors orsSpec.

Lemma digits_exit_test (c : ascii) :
  (chLt c "0" || chLt "9" c) && (chLt c "A" || chLt "F" c)
  = negb (isHexDigit c).
Proof.
  unfold isHexDigit, isDigit, isHexLetter. rewrite !chLt_not_le.
  destruct (chLe "0" c), (chLe c "9"), (chLe "A" c), (chLe c "F");
    reflexivity.
Qed.

Lemma digitsBody_eq (d : list Z) (s : Scanner) :
  (List.length d < 16)%nat ->
  digitsBody d s =
  match r s with
  | String x t =>
      Some (if isHexDigit x then inl (d ++ [code (ch s) - 48])
            else inr (d ++ [code (ch s) - 48]),
            {| Ival := Ival s; Rval := Rval s; Id := Id s; Str := Str s;
               ErrCnt := ErrCnt s; ch := x; eot := eot s;
               errPos := errPos s; pos := i64 (pos s + 1); r := t;
               w := w s; marked := marked s |})
  | EmptyString =>
      Some (inr (d ++ [code (ch s) - 48]),
            {| Ival := Ival s; Rval := Rval s; Id := Id s; Str := Str s;
               ErrCnt := ErrCnt s; ch := zero; eot := true;
               errPos := errPos s; pos := i64 (pos s + 1);
               r := EmptyString; w := w s; marked := marked s |})
  end.
Proof.
  intros Hlen. unfold digitsBody, bind at 1, gets at 1.
  replace (Z.of_nat (List.length d) <? 16) with true
    by (symmetry; apply Z.ltb_lt; lia).
  unfold bind, ret, gets, nextCh.
  destruct (r s) as [|x t]; [reflexivity|].
  cbv beta iota. rewrite digits_exit_test. cbn [ch].
  destruct (isHexDigit x); reflexivity.
Qed.

(** The digit loop on a numeral of at most 16 digits: every digit is
    stored, nothing is reported. *)
Lemma digits_loop (cs : string) :
  forall (fuel : nat) (d : list Z) (rest : string) (s : Scanner),
    r s = (cs ++ rest)%string ->
    allHex cs = true -> endsDigits rest = true ->
    (List.length d + S (String.length cs) <= 16)%nat ->
    (String.length cs < fuel)%nat ->
    exists s',
      loop fuel digitsBody d s
        = Some (d ++ digitCodes (String (ch s) cs), s') /\
      ch s' = nextByte rest /\ r s' = afterNext rest /\
      w s' = w s /\ ErrCnt s' = ErrCnt s /\ marked s' = marked s /\
      errPos s' = errPos s /\ Ival s' = Ival s.
Proof.
  induction cs as [|x cs IH];
    intros fuel d rest s Hr Hall Hend Hlen Hfuel;
    (destruct fuel as [|n]; [simpl in Hfuel; lia|]);
    simpl in Hr; simpl loop; unfold bind at 1;
    rewrite digitsBody_eq, Hr by (simpl in Hlen; lia).
  - destruct rest as [|y rest].
    + eexists; split; [reflexivity|]. simpl. repeat split.
    + simpl in Hend. apply negb_true_iff in Hend. rewrite Hend.
      eexists; split; [reflexivity|]. simpl. repeat split.
  - simpl in Hall. apply andb_prop in Hall. destruct Hall as [Hx Hall].
    rewrite Hx.
    match goal with
    | |- context [loop n digitsBody ?b ?s1] =>
        destruct (IH n b rest s1)
          as (s' & Hl & Hc & Hr' & Hw & He & Hm & Hp & Hi);
          [reflexivity | exact Hall | exact Hend
          | rewrite length_app; simpl in *; lia | simpl in Hfuel; lia |]
    end.
    exists s'. split; [|repeat split; assumption].
    rewrite Hl. cbn [ch digitCodes]. rewrite <- app_assoc. reflexivity.
Qed.

Lemma hex_entry_value (c : ascii) :
  isHexDigit c = true ->
  (if 10 <=? code c - 48 then code c - 48 - 7 else code c - 48)
  = hexDigitVal c.
Proof.
  unfold isHexDigit, hexDigitVal, isDigit, isHexLetter, chLe.
  change (code "0") with 48. change (code "9") with 57.
  change (code "A") with 65. change (code "F") with 70.
  intros H.
  destruct (48 <=? code c) eqn:E1; destruct (code c <=? 57) eqn:E2;
    destruct (65 <=? code c) eqn:E3; destruct (code c <=? 70) eqn:E4;
    simpl in H; try discriminate; simpl;
    destruct (10 <=? code c - 48) eqn:E5;
    try apply Z.leb_le in E1; try apply Z.leb_le in E2;
    try apply Z.leb_le in E3; try apply Z.leb_le in E4;
    try apply Z.leb_le in E5;
    try apply Z.leb_gt in E1; try apply Z.leb_gt in E2;
    try apply Z.leb_gt in E3; try apply Z.leb_gt in E4;
    try apply Z.leb_gt in E5; lia.
Qed.

(** The 64-bit fold of [number] and the mathematical value agree modulo
    2^32. *)
Lemma hexFold_from (cs : string) :
  forall k1 k2 : Z,
    allHex cs = true ->
    k1 mod 2 ^ 32 = k2 mod 2 ^ 32 ->
    fold_left (fun k h =>
                 let h := if 10 <=? h then h - 7 else h in
                 i64 (k * 16 + h)) (digitCodes cs) k1 mod 2 ^ 32
    = hexValueFrom k2 cs mod 2 ^ 32.
Proof.
  induction cs as [|c cs IH]; intros k1 k2 Hall Hk; simpl.
  - exact Hk.
  - simpl in Hall. apply andb_prop in Hall. destruct Hall as [Hc Hall].
    apply IH; [exact Hall|].
    rewrite i64_mod32, hex_entry_value by exact Hc.
    rewrite (Z.add_mod (k1 * 16)), (Z.add_mod (k2 * 16)) by lia.
    rewrite (Z.mul_mod k1), (Z.mul_mod k2), Hk by lia. reflexivity.
Qed.

Lemma hexFold_value (cs : string) :
  allHex cs = true -> i32 (hexFold (digitCodes cs)) = i32 (hexValue cs).
Proof.
  intros Hall. apply i32_congr. unfold hexFold, hexValue.
  apply hexFold_from; [exact Hall | reflexivity].
Qed.

(** C10, as the code has it: a literal of at most 16 hexadecimal digits
    with suffix H is delivered as [SymInt] with [Ival] the numeral's value
    reduced modulo 2^32 (as a signed 32-bit integer), and no diagnostic is
    raised, whatever the value. *)
Theorem hex_literal_wraps (cs rest : string) (fuel : nat) (s : Scanner) :
  r s = (cs ++ String "H" rest)%string ->
  isHexDigit (ch s) = true -> allHex cs = true ->
  (S (String.length cs) <= 16)%nat ->
  (String.length cs < fuel)%nat ->
  exists s',
    number fuel s = Some (SymInt, s') /\
    Ival s' = i32 (hexValue (String (ch s) cs)) /\
    w s' = w s /\ ErrCnt s' = ErrCnt s /\ marked s' = marked s.
Proof.
  intros Hr Hc0 Hall Hlen Hfuel.
  destruct (digits_loop cs fuel [] (String "H" rest) (set_Ival 0 s))
    as (s1 & Hl & Hc & Hr1 & Hw & He & Hm & Hp & Hi);
    [exact Hr | exact Hall | reflexivity | simpl; lia | exact Hfuel |].
  unfold number, bind at 1, modify at 1, bind at 1. rewrite Hl.
  unfold bind at 1, gets at 1. rewrite Hc. cbn [nextByte].
  change (chEq "H" "H" || chEq "H" "R" || chEq "H" "X") with true.
  change (chEq "H" "X") with false. change (chEq "H" "R") with false.
  cbv iota. cbn [app ch set_Ival] in *.
  assert (Hv : i32 (hexFold (digitCodes (String (ch s) cs)))
               = i32 (hexValue (String (ch s) cs))).
  { apply hexFold_value. simpl. rewrite Hc0, Hall. reflexivity. }
  unfold bind, modify, ret, nextCh. cbn [r set_Ival].
  destruct (r s1); eexists; (split; [reflexivity|]); cbn;
    repeat split; assumption.
Qed.

Lemma hex_literal_wraps_witness :
  exists s',
    number 16 (set_ch "0" (NewScanner "FFFFFFFFH;")) = Some (SymInt, s') /\
    Ival s' = -1 /\ w s' = [] /\ ErrCnt s' = 0 /\ marked s' = [].
Proof.
  apply (hex_literal_wraps "FFFFFFFF" ";" 16
           (set_ch "0" (NewScanner "FFFFFFFFH;")));
    [reflexivity | reflexivity | reflexivity | simpl; lia | simpl; lia].
Defined.

(** C10, counterexample: a literal of 17 hexadecimal digits with suffix H
    and value 1 raises the diagnostic [too many digits] and is delivered
    as 0. *)
Lemma hex_literal_of_17_digits :
  exists toks s,
    scanText "00000000000000001H" = Some (toks, s) /\
    toks = [SymInt] /\
    hexValue "00000000000000001" = 1 /\
    Ival s = 0 /\ Ival s <> i32 (hexValue "00000000000000001") /\
    ErrCnt s = 1 /\ w s = [diagLine 16 "too many digits"].
Proof.
  eexists. eexists. split; [vm_compute; reflexivity|].
  repeat split. vm_compute. discriminate.
Qed.

(** The example of the claim, and the contrast with decimal literals. *)
Example hex_0FFFFFFFFH :
  exists s, scanText "0FFFFFFFFH" = Some ([SymInt], s) /\
            Ival s = -1 /\ ErrCnt s = 0 /\ w s = [].
Proof. eexists. split; [vm_compute; reflexivity | repeat split]. Qed.

Example decimal_2147483648 :
  exists s, scanText "2147483648" = Some ([SymInt], s) /\
            ErrCnt s = 1 /\ w s = [diagLine 10 "too large"].
Proof. eexists. split; [vm_compute; reflexivity | repeat split]. Qed.

End Numbers.

(** ** The code generator: constant folding of DIV and MOD *)

Section DivMod.
Import org orgSpec.

(** With two constant operands and a positive divisor, [DivOp] folds with
    Go's truncating [/] and [%]. *)
Lemma DivOp_const_fold (fuel : nat) (x y : Item) (s : State) :
  Mode x = orb.ClassConst -> Mode y = orb.ClassConst -> 0 < A y ->
  DivOp fuel ors.SymDiv x y s
    = Some ((set_A (i32 (Z.quot (A x) (A y))) x, y), s) /\
  DivOp fuel ors.SymMod x y s
    = Some ((set_A (Z.rem (A x) (A y)) x, y), s).
Proof.
  intros Hx Hy Hpos. unfold DivOp. simpl ors.Sym_eqb. cbv iota.
  rewrite Hx, Hy. change (orb.ClassConst =? orb.ClassConst) with true.
  simpl andb. cbv iota.
  replace (0 <? A y) with true by (symmetry; apply Z.ltb_lt; exact Hpos).
  split; reflexivity.
Qed.

(** C1, the code at the input of the claim: with constant operands -15
    and 4, [DivOp] folds DIV to -3 and MOD to -3, where floored division
    gives -4 and 1. *)
Theorem DivOp_const_minus15_by_4 (fuel : nat) (typ : orb.ptr) (s : State) :
  DivOp fuel ors.SymDiv (constItem typ (-15)) (constItem typ 4) s
    = Some ((constItem typ (-3), constItem typ 4), s) /\
  DivOp fuel ors.SymMod (constItem typ (-15)) (constItem typ 4) s
    = Some ((constItem typ (-3), constItem typ 4), s) /\
  floorDiv (-15) 4 = -4 /\ floorMod (-15) 4 = 1.
Proof. repeat split. Qed.

End DivMod.

(** ** The code generator: statement boundaries *)

Section Boundaries.
Import org orgSpec.

Lemma org_Mark_eq (msg : string) (s : State) :
  Mark msg s = Some (tt, set_sc (orsSpec.afterMark msg (sc s)) s).
Proof. reflexivity. Qed.

(** Case analysis on the three tests of [CheckRegs]. *)
Ltac checked_cases s :=
  destruct s as [sc0 b0 [pc vs td sx en h f fp fd ft ck ver rm cd dt st] fs0];
  unfold CheckRegs, checked, checkedMsgs, bind, g_, gets, when, upd, modify,
    Mark, zoom, ret;
  cbn [gen sc rh frame PC set_gen set_sc set_rh set_frame];
  change (maxCode - 40) with 7960;
  destruct (h =? 0) eqn:E1;
  cbn [negb gen sc rh frame PC set_gen set_sc set_rh set_frame ors.Mark];
  destruct (7960 <=? pc) eqn:E2;
  cbn [negb gen sc rh frame PC set_gen set_sc set_rh set_frame ors.Mark];
  destruct (f =? 0) eqn:E3;
  cbn [negb gen sc rh frame PC set_gen set_sc set_rh set_frame ors.Mark
       app].

Lemma CheckRegs_eq (s : State) : CheckRegs s = Some (tt, checked s).
Proof. checked_cases s; reflexivity. Qed.

Lemma checked_regs (s : State) :
  rh (gen (checked s)) = 0 /\ frame (gen (checked s)) = 0.
Proof.
  checked_cases s;
    try apply Z.eqb_eq in E1; try apply Z.eqb_eq in E3; auto.
Qed.

Lemma checked_prefix (s : State) :
  exists l, ors.marked (sc (checked s)) = ors.marked (sc s) ++ l /\
            map snd l = checkedMsgs s.
Proof.
  checked_cases s; unfold orsSpec.afterMark; cbn [ors.marked];
    rewrite <- ?app_assoc; eexists;
    (split; [try reflexivity; symmetry; apply app_nil_r | reflexivity]).
Qed.

Lemma checked_throttled (s : State) :
  orsSpec.throttled (sc s) -> orsSpec.throttled (sc (checked s)).
Proof.
  assert (HM : forall msg sc0, orsSpec.throttled sc0 ->
                 orsSpec.throttled (orsSpec.afterMark msg sc0)).
  { intros msg sc0 H0.
    exact (Mark_throttled msg sc0 tt _ H0 (Mark_eq msg sc0)). }
  checked_cases s; auto.
Qed.

Lemma checkedMsgs_reports (s : State) :
  (rh (gen s) <> 0 -> In "Reg Stack" (checkedMsgs s)) /\
  (frame (gen s) <> 0 -> In "frame error" (checkedMsgs s)) /\
  (checkedMsgs s = [] -> rh (gen s) = 0 /\ frame (gen s) = 0).
Proof.
  checked_cases s;
    first [apply Z.eqb_eq in E1 | apply Z.eqb_neq in E1];
    first [apply Z.eqb_eq in E3 | apply Z.eqb_neq in E3];
    repeat split; intros; try contradiction; try discriminate;
    simpl; auto.
Qed.

(** The effect of one action on the scanner's history, and what a
    boundary shows. *)
Lemma step_inv (a : action) (s : State) (obs : list boundary) (s' : State) :
  orsSpec.throttled (sc s) -> step a s = Some (obs, s') ->
  orsSpec.throttled (sc s') /\
  (exists l, ors.marked (sc s') = ors.marked (sc s) ++ l) /\
  Forall enforced obs /\
  (ors.marked (sc s') = ors.marked (sc s) -> Forall balanced obs).
Proof.
  intros HT H. destruct a as [msg| |h f pc|]; unfold step in H.
  - unfold bind in H. rewrite org_Mark_eq in H. inversion H; subst; clear H.
    cbn [sc set_sc]. split.
    + exact (Mark_throttled msg (sc s) tt _ HT (Mark_eq msg (sc s))).
    + split; [eexists; reflexivity|]. split; constructor.
  - unfold bind, zoom in H.
    destruct (ors.nextCh (sc s)) as [[u t]|] eqn:E; [|discriminate].
    inversion H; subst; clear H. cbn [sc set_sc].
    assert (Hm : ors.marked t = ors.marked (sc s)).
    { unfold ors.nextCh in E. destruct (ors.r (sc s));
        inversion E; reflexivity. }
    split; [exact (nextCh_throttled (sc s) u t HT E)|].
    split; [exists []; rewrite app_nil_r; exact Hm|].
    split; constructor.
  - inversion H; subst; clear H. cbn [sc set_gen].
    split; [exact HT|]. split; [exists []; rewrite app_nil_r; reflexivity|].
    split; constructor.
  - unfold bind, g_, gets in H. rewrite CheckRegs_eq in H.
    inversion H; subst; clear H.
    destruct (checked_prefix s) as (l & Hl & Hmsgs).
    destruct (checked_regs s) as [Hr Hf].
    destruct (checkedMsgs_reports s) as (Hrep1 & Hrep2 & Hnone).
    assert (Hrep : map snd (skipn (List.length (ors.marked (sc s)))
                              (ors.marked (sc (checked s))))
                   = checkedMsgs s).
    { rewrite Hl, skipn_app, skipn_all, Nat.sub_diag. simpl. exact Hmsgs. }
    split; [apply checked_throttled; exact HT|].
    split; [exists l; exact Hl|].
    split.
    + constructor; [|constructor]. unfold enforced. cbn.
      rewrite Hrep. auto.
    + intros Heq. constructor; [|constructor]. unfold balanced. cbn.
      apply Hnone. rewrite <- Hmsgs.
      rewrite Hl in Heq.
      assert (l = []) as ->; [|reflexivity].
      apply (f_equal (@List.length _)) in Heq.
      rewrite length_app in Heq. destruct l; [reflexivity|simpl in Heq; lia].
Qed.

Lemma run_inv (acts : list action) :
  forall (s : State) (obs : list boundary) (s' : State),
    orsSpec.throttled (sc s) -> run acts s = Some (obs, s') ->
    orsSpec.throttled (sc s') /\
    (exists l, ors.marked (sc s') = ors.marked (sc s) ++ l) /\
    Forall enforced obs /\
    (ors.marked (sc s') = ors.marked (sc s) -> Forall balanced obs).
Proof.
  induction acts as [|a acts IH]; intros s obs s' HT H.
  - inversion H; subst. split; [exact HT|].
    split; [exists []; rewrite app_nil_r; reflexivity|]. split; constructor.
  - cbn [run] in H. unfold bind at 1 in H.
    destruct (step a s) as [[o1 s1]|] eqn:E1; [|discriminate].
    unfold bind at 1 in H.
    destruct (run acts s1) as [[o2 s2]|] eqn:E2; [|discriminate].
    inversion H; subst; clear H.
    destruct (step_inv a s o1 s1 HT E1) as (HT1 & (l1 & Hl1) & He1 & Hb1).
    destruct (IH s1 o2 s' HT1 E2) as (HT2 & (l2 & Hl2) & He2 & Hb2).
    split; [exact HT2|].
    split; [exists (l1 ++ l2); rewrite Hl2, Hl1, app_assoc; reflexivity|].
    split; [apply Forall_app; split; assumption|].
    intros Heq. rewrite Hl2, Hl1, <- app_assoc in Heq.
    assert (Hnil : l1 ++ l2 = []).
    { apply (f_equal (@List.length _)) in Heq.
      rewrite length_app in Heq.
      destruct (l1 ++ l2); [reflexivity | simpl in Heq; lia]. }
    apply app_eq_nil in Hnil. destruct Hnil as [-> ->].
    rewrite app_nil_r in Hl1, Hl2.
    apply Forall_app; split; [apply Hb1; exact Hl1 | apply Hb2; exact Hl2].
Qed.



(** A run with a register left on the stack at the first boundary and a
    frame offset left at the second: each is reported and reset, and the
    error count ends at 2. *)
Example boundaries_with_violations :
  exists s',
    run [Generate 1 0 10; Boundary; Advance; Advance; Advance; Advance;
         Advance; Advance; Generate 0 4 12; Boundary;
         Generate 0 0 20; Boundary] (initial "x := 1; y := 2")
    = Some ([mkBoundary 1 0 0 0 ["Reg Stack"];
             mkBoundary 0 4 0 0 ["frame error"];
             mkBoundary 0 0 0 0 []], s') /\
    ors.ErrCnt (sc s') = 2 /\
    rh (gen s') = 0 /\ frame (gen s') = 0.
Proof. eexists. split; [vm_compute; reflexivity | repeat split]. Qed.

End Boundaries.

(** ** The code generator: type descriptors *)

Section TypeDescriptors.
Import org orgSpec.

Lemma allocSize_rounds (size : Z) :
  0 <= size -> size + 263 < 2 ^ 31 ->
  roundsUpTo (size + 8) (allocSize size).
Proof.
  intros H0 Hmax. unfold allocSize, roundsUpTo, isAllocSize.
  destruct (size <=? 24) eqn:E1; [apply Z.leb_le in E1 | apply Z.leb_gt in E1].
  { repeat split; try lia. intros v' Hv' Hle.
    destruct Hv' as [->|[->|[->|[Hp Hm]]]]; try lia.
    pose proof (Z.div_mod v' 256 ltac:(lia)). 
    assert (1 <= v' / 256) by (apply Z.div_le_lower_bound; lia). lia. }
  destruct (size <=? 56) eqn:E2; [apply Z.leb_le in E2 | apply Z.leb_gt in E2].
  { repeat split; try lia. intros v' Hv' Hle.
    destruct Hv' as [->|[->|[->|[Hp Hm]]]]; try lia.
    pose proof (Z.div_mod v' 256 ltac:(lia)). 
    assert (1 <= v' / 256) by (apply Z.div_le_lower_bound; lia). lia. }
  destruct (size <=? 120) eqn:E3;
    [apply Z.leb_le in E3 | apply Z.leb_gt in E3].
  { repeat split; try lia. intros v' Hv' Hle.
    destruct Hv' as [->|[->|[->|[Hp Hm]]]]; try lia.
    pose proof (Z.div_mod v' 256 ltac:(lia)). 
    assert (1 <= v' / 256) by (apply Z.div_le_lower_bound; lia). lia. }
  unfold mul32, div32, add32.
  rewrite (i32_id (size + 263)) by (unfold in_i32; lia).
  rewrite Z.quot_div_nonneg by lia.
  pose proof (Z.div_mod (size + 263) 256 ltac:(lia)) as Hdm.
  pose proof (Z.mod_pos_bound (size + 263) 256 ltac:(lia)) as Hb.
  assert (Hq : 0 <= (size + 263) / 256) by (apply Z.div_pos; lia).
  rewrite (i32_id ((size + 263) / 256)) by (unfold in_i32; lia).
  rewrite i32_id by (unfold in_i32; lia).
  split; [|split].
  - right. right. right. split; [lia|]. apply Z.mod_mul. lia.
  - lia.
  - intros v' Hv' Hle.
    destruct Hv' as [->|[->|[->|[Hp Hm]]]]; try lia.
    pose proof (Z.div_mod v' 256 ltac:(lia)) as Hv. rewrite Hm in Hv.
    assert ((size + 263) / 256 <= v' / 256); [|lia].
    apply Z.div_le_lower_bound; lia.
Qed.

Lemma wp_typeAt (p : orb.ptr) (Q : orb.Typ.t -> State -> Prop) (s : State) :
  (forall i ty, p = Some i -> nth_error (orb.types (base s)) i = Some ty ->
                Q ty s) ->
  wp (typeAt p) Q s.
Proof.
  intros H. unfold typeAt. apply wp_bind, wp_gets.
  destruct p as [i|]; [|apply wp_fail].
  apply wp_must. intros ty E. eapply H; [reflexivity | exact E].
Qed.

Lemma wp_objAt (p : orb.ptr) (Q : orb.Obj.t -> State -> Prop) (s : State) :
  (forall o, Q o s) -> wp (objAt p) Q s.
Proof.
  intros H. unfold objAt. apply wp_bind, wp_gets.
  destruct p as [i|]; [|apply wp_fail].
  apply wp_must. intros o _. apply H.
Qed.

Lemma wp_setData (i v : Z) (Q : unit -> State -> Prop) (s : State) :
  (forall d', arrSet (data (gen s)) i v = Some d' ->
              Q tt (set_gen (set_data d' (gen s)) s)) ->
  wp (setData i v) Q s.
Proof.
  intros H. unfold setData, g_, upd.
  apply wp_bind, wp_gets, wp_bind, wp_must. intros d' E.
  apply wp_modify. apply H, E.
Qed.

Lemma wp_org_Mark (msg : string) (Q : unit -> State -> Prop) (s : State) :
  Q tt (set_sc (orsSpec.afterMark msg (sc s)) s) -> wp (Mark msg) Q s.
Proof. intros H. unfold wp. rewrite org_Mark_eq. exact H. Qed.

(** A word written at an index past [j] leaves word [j] alone, and the
    next index is past [j] again. *)
Lemma wp_setData_past (j v dcw x : Z) (Q : unit -> State -> Prop)
    (s : State) :
  keeps j v s -> past j dcw ->
  (forall s', keeps j v s' -> past j (add32 dcw 1) ->
              base s' = base s -> Q tt s') ->
  wp (setData dcw x) Q s.
Proof.
  intros Hk [Hr Hp] H. apply wp_setData. intros d' E.
  pose proof (arrSet_index _ _ _ _ E) as H0.
  apply H.
  - unfold keeps. cbn. rewrite (arrSet_get_ne _ _ _ j _ E) by lia. exact Hk.
  - split; [apply i32_range|]. unfold add32.
    unfold in_i32 in Hr.
    destruct (Z.eq_dec dcw (2 ^ 31 - 1)) as [->|Hne].
    + right. vm_compute. reflexivity.
    + left. rewrite i32_id by (unfold in_i32; lia). lia.
  - reflexivity.
Qed.

Lemma q_keeps (j v : Z) (fuel : nat) :
  forall (t : orb.ptr) (dcw : Z) (s : State),
    keeps j v s -> past j dcw ->
    wp (q fuel t dcw) (fun dcw' s' => keeps j v s' /\ past j dcw') s.
Proof.
  induction fuel as [|n IH]; intros t dcw s Hk Hp; simpl.
  - apply wp_fail.
  - apply wp_bind, wp_typeAt. intros i ty _ _.
    destruct (orb.Typ.Base ty) as [bi|]; [|apply wp_ret; auto].
    apply wp_bind. eapply wp_mono; [apply IH; assumption|].
    intros dcw1 s1 [Hk1 Hp1]. cbv beta.
    apply wp_bind. unfold g_ at 1. apply wp_gets.
    apply wp_bind. apply (wp_setData_past j v); [assumption..|].
    intros s2 Hk2 Hp2 _.
    apply wp_bind. unfold upd. apply wp_modify. apply wp_ret.
    split; [exact Hk2 | exact Hp2].
Qed.

Lemma findPtrFlds_keeps (j v : Z) (fuel : nat) :
  forall (typ : orb.ptr) (off dcw : Z) (s : State),
    keeps j v s -> past j dcw ->
    wp (findPtrFlds fuel typ off dcw)
       (fun dcw' s' => keeps j v s' /\ past j dcw') s.
Proof.
  induction fuel as [|n IH]; intros typ off dcw s Hk Hp.
  - apply wp_fail.
  - cbn [findPtrFlds]. apply wp_bind, wp_typeAt. intros i ty _ _.
    destruct ((orb.Typ.Form ty =? orb.FormPointer)
              || (orb.Typ.Form ty =? orb.FormNilTyp)).
    { apply wp_bind. apply (wp_setData_past j v); [assumption..|].
      intros s2 Hk2 Hp2 _. apply wp_ret. auto. }
    destruct (orb.Typ.Form ty =? orb.FormRecord).
    { apply (wp_loop (fun st s' => keeps j v s' /\ past j (snd st)));
        [|simpl; auto].
      intros [fld d] s1 [Hk1 Hp1]. simpl in Hp1.
      destruct fld as [fi|]; [|apply wp_ret; auto].
      apply wp_bind, wp_objAt. intros f.
      apply wp_bind. eapply wp_mono; [apply IH; assumption|].
      intros d2 s2 [Hk2 Hp2]. apply wp_ret. simpl. auto. }
    destruct (orb.Typ.Form ty =? orb.FormArray); [|apply wp_ret; auto].
    apply wp_bind, wp_typeAt. intros bi bt _ _.
    apply (wp_forRange (fun d s' => keeps j v s' /\ past j d));
      [|auto].
    intros x d s1 [Hk1 Hp1]. apply IH; assumption.
Qed.

Lemma wp_setTypeLen (p : orb.ptr) (v : Z) (Q : unit -> State -> Prop)
    (s : State) :
  (forall s', gen s' = gen s -> Q tt s') -> wp (setTypeLen p v) Q s.
Proof.
  intros H. unfold wp, setTypeLen, zoom.
  destruct (orb.updType p (orb.Typ.set_Len v) (base s)) as [[[] b]|];
    [|exact I].
  apply H. reflexivity.
Qed.

Lemma BuildTD_keeps (fuel : nat) (i : nat) (ty : orb.Typ.t) (dc : Z)
    (s : State) :
  nth_error (orb.types (base s)) i = Some ty ->
  wp (BuildTD fuel (Some i) dc)
     (fun _ s' => keeps (div32 dc 4) (allocSize (orb.Typ.Size ty)) s') s.
Proof.
  intros Hty. unfold BuildTD.
  set (j := div32 dc 4). set (v := allocSize (orb.Typ.Size ty)).
  apply wp_bind, wp_typeAt. intros i' ty' Hi Hty'.
  inversion Hi; subst i'. rewrite Hty in Hty'. inversion Hty'; subst ty'.
  apply wp_bind, wp_setTypeLen. intros s1 Hg1.
  apply wp_bind, wp_setData. intros d' E. fold v in E.
  set (s2 := set_gen (set_data d' (gen s1)) s1).
  assert (Hk2 : keeps j v s2).
  { unfold keeps, s2. cbn. exact (arrSet_get_eq _ _ _ _ E). }
  assert (Hp2 : past j (add32 j 1)).
  { pose proof (arrSet_index _ _ _ _ E) as H0.
    pose proof (i32_range (Z.quot dc 4)) as Hr. fold (div32 dc 4) in Hr.
    fold j in Hr. unfold in_i32 in Hr.
    split; [apply i32_range|]. unfold add32.
    destruct (Z.eq_dec j (2 ^ 31 - 1)) as [->|Hne].
    - right. vm_compute. reflexivity.
    - left. rewrite i32_id by (unfold in_i32; lia). lia. }
  clearbody s2. clear E Hg1 s1 d'.
  apply wp_bind.
  apply (wp_mono _ (fun d s' => keeps j v s' /\ past j d)).
  { destruct (3 <? orb.Typ.NOfPar ty).
    - apply wp_bind, wp_org_Mark, wp_ret. auto.
    - apply wp_bind. eapply wp_mono; [apply q_keeps; eassumption|].
      intros d1 s3 [Hk3 Hp3].
      apply (wp_forRange (fun d s' => keeps j v s' /\ past j d)); [|auto].
      intros x d s4 [Hk4 Hp4].
      apply wp_bind. apply (wp_setData_past j v); [assumption..|].
      intros s5 Hk5 Hp5 _. apply wp_ret. auto. }
  intros d3 s3 [Hk3 Hp3]. cbv beta.
  apply wp_bind. eapply wp_mono; [apply findPtrFlds_keeps; eassumption|].
  intros d4 s4 [Hk4 Hp4]. cbv beta.
  apply wp_bind. apply (wp_setData_past j v); [assumption..|].
  intros s5 Hk5 Hp5 _.
  apply wp_bind. unfold upd at 1. apply wp_modify.
  apply wp_bind. apply wp_when; intros _.
  - apply wp_bind, wp_org_Mark. unfold upd. apply wp_modify, wp_ret.
    exact Hk5.
  - apply wp_ret. exact Hk5.
Qed.



(** The record of the third scenario, 8 bytes: its descriptor announces
    32 bytes and has no pointer offsets. *)
Example BuildTD_record_R :
  exists s',
    BuildTD 64 Scenarios.typeR 0 Scenarios.stateR = Some (20, s') /\
    firstn 5 (data (gen s')) = [32; -1; -1; -1; -1].
Proof.
  eexists. split; vm_compute; reflexivity.
Qed.


End TypeDescriptors.

(** ** Export: the buffer *)

Section ExportBuffer.
Import orb orbSpec.

Lemma fold_WriteByte (l w : list byte) :
  fold_left files.WriteByte l w = w ++ l.
Proof.
  revert w. induction l as [|c l IH]; intros w; simpl.
  - symmetry. apply app_nil_r.
  - rewrite IH. unfold files.WriteByte. rewrite <- app_assoc. reflexivity.
Qed.

Lemma writeNumLoop_app (fuel : nat) :
  forall (w : list byte) (x : Z),
    files.writeNumLoop fuel w x = w ++ files.writeNumLoop fuel [] x.
Proof.
  induction fuel as [|n IH]; intros w x; simpl.
  - symmetry. apply app_nil_r.
  - destruct ((x <? -64) || (64 <=? x)).
    + rewrite IH. rewrite (IH (files.WriteByte [] _)).
      unfold files.WriteByte. rewrite <- app_assoc. reflexivity.
    + reflexivity.
Qed.

(** Every writer of package files appends to the buffer. *)
Lemma Write_app (w : list byte) (ch : Z) :
  files.Write w ch = w ++ [byteOf ch].
Proof. reflexivity. Qed.

Lemma WriteInt_app (w : list byte) (x : Z) :
  files.WriteInt w x = w ++ files.WriteInt [] x.
Proof. unfold files.WriteInt. rewrite !fold_WriteByte. reflexivity. Qed.

Lemma WriteNum_app (w : list byte) (x : Z) :
  files.WriteNum w x = w ++ files.WriteNum [] x.
Proof. apply writeNumLoop_app. Qed.

Lemma WriteString_app (w : list byte) (x : string) :
  files.WriteString w x = w ++ files.WriteString [] x.
Proof.
  unfold files.WriteString, files.WriteByte. rewrite !fold_WriteByte.
  rewrite <- app_assoc. reflexivity.
Qed.

Section Extends.
Variables (F : FileSystem) (P : list byte).

Lemma extends_app (s : State) (l : list byte) :
  extends F P s -> extends F P (set_buf (buf s ++ l) s).
Proof.
  intros [Hf [t Ht]]. split; [exact Hf|].
  exists (t ++ l). cbn. rewrite Ht, app_assoc. reflexivity.
Qed.

Lemma Write_extends ch : preserves (extends F P) (Write ch).
Proof.
  apply preserves_modify. intros s H. rewrite Write_app.
  apply extends_app, H.
Qed.

Lemma WriteInt_extends x : preserves (extends F P) (WriteInt x).
Proof.
  apply preserves_modify. intros s H. rewrite WriteInt_app.
  apply extends_app, H.
Qed.

Lemma WriteNum_extends x : preserves (extends F P) (WriteNum x).
Proof.
  apply preserves_modify. intros s H. rewrite WriteNum_app.
  apply extends_app, H.
Qed.

Lemma WriteString_extends x : preserves (extends F P) (WriteString x).
Proof.
  apply preserves_modify. intros s H. rewrite WriteString_app.
  apply extends_app, H.
Qed.

Lemma typeAt_extends p : preserves (extends F P) (typeAt p).
Proof. unfold typeAt. repeat first [apply preserves_must | pres_step]. Qed.

Lemma objAt_extends p : preserves (extends F P) (objAt p).
Proof. unfold objAt. repeat first [apply preserves_must | pres_step]. Qed.

Lemma Mark_extends msg : preserves (extends F P) (Mark msg).
Proof.
  intros s a s' H E. unfold Mark, zoom in E.
  destruct (ors.Mark msg (sc s)) as [[u t]|]; [|discriminate].
  inversion E; subst. exact H.
Qed.

Lemma setTypeRef_extends p v : preserves (extends F P) (setTypeRef p v).
Proof.
  unfold setTypeRef. pose proof (typeAt_extends p). pres.
  apply preserves_modify. intros s Hs. exact Hs.
Qed.

Ltac pres_out :=
  repeat first
    [ apply Write_extends | apply WriteInt_extends
    | apply WriteNum_extends | apply WriteString_extends
    | apply typeAt_extends | apply objAt_extends | apply Mark_extends
    | apply setTypeRef_extends
    | apply preserves_must
    | apply preserves_modify; intros ? Hs; exact Hs
    | pres_step ].

Lemma findHiddenPointers_extends fuel :
  forall typ offset,
    preserves (extends F P) (findHiddenPointers fuel typ offset).
Proof.
  induction fuel as [|n IH]; intros typ offset; simpl; pres_out.
Qed.

Lemma outType_outPar_extends fuel :
  (forall t, preserves (extends F P) (outType fuel t)) /\
  (forall par n, preserves (extends F P) (outPar fuel par n)).
Proof.
  induction fuel as [|k [IHt IHp]]; (split; [intros t | intros par n]);
    simpl; try apply preserves_fail.
  - pose proof findHiddenPointers_extends as Hf.
    pres_out.
  - pres_out.
Qed.

End Extends.

Lemma bind_modify {St B} (f : St -> St) (k : unit -> M St B) (s : St) :
  bind (modify f) k s = k tt (f s).
Proof. reflexivity. Qed.

(** After [exportBuffer] the files are as before, and the buffer starts
    with the two zero words of the header. *)
Lemma exportBuffer_extends (fuel : nat) (modId : ors.Ident) (s s1 : State) :
  exportBuffer fuel modId s = Some (tt, s1) ->
  extends (fs s) (repeat zero 8) s1.
Proof.
  unfold exportBuffer. unfold WriteInt at 1 2.
  rewrite !bind_modify. cbn [buf set_buf set_base base].
  match goal with
  | |- ?m ?s0 = Some _ -> _ =>
      intros E;
      assert (Hm : preserves (extends (fs s) (repeat zero 8)) m);
      [|refine (Hm s0 tt s1 _ E)]
  end.
  - destruct (outType_outPar_extends (fs s) (repeat zero 8) fuel) as [Ht _].
    repeat first
      [ apply Write_extends | apply WriteInt_extends
      | apply WriteNum_extends | apply WriteString_extends
      | apply typeAt_extends | apply objAt_extends | apply Mark_extends
      | apply preserves_must
      | apply preserves_modify; intros ? Hs; exact Hs
      | pres_step ].
  - split; [reflexivity|]. exists []. reflexivity.
Qed.

(** Agreement of the export functions on states with the same symbol
    table and buffer. *)
Ltac agree_side :=
  first
    [ apply agree_gets; intros ? ? [HRb HRw]; cbn; rewrite ?HRb, ?HRw;
      reflexivity
    | apply agree_modify; intros ? ? [HRb HRw]; split; cbn;
      rewrite ?HRb, ?HRw; reflexivity ].

Lemma Mark_agree msg : agree sameTable (Mark msg).
Proof.
  intros s t [] [] s' t' HR E1 E2. unfold Mark, zoom in E1, E2.
  destruct (ors.Mark msg (sc s)) as [[u1 x1]|]; [|discriminate].
  destruct (ors.Mark msg (sc t)) as [[u2 x2]|]; [|discriminate].
  inversion E1; inversion E2; subst. split; [reflexivity|].
  exact HR.
Qed.

Ltac agree_out :=
  repeat first
    [ apply Mark_agree
    | agree_side
    | agree_step ].

Lemma typeAt_agree p : agree sameTable (typeAt p).
Proof. unfold typeAt. agree_out. Qed.

Lemma objAt_agree p : agree sameTable (objAt p).
Proof. unfold objAt. agree_out. Qed.

Lemma Write_agree ch : agree sameTable (Write ch).
Proof. unfold Write. agree_out. Qed.

Lemma WriteInt_agree x : agree sameTable (WriteInt x).
Proof. unfold WriteInt. agree_out. Qed.

Lemma WriteNum_agree x : agree sameTable (WriteNum x).
Proof. unfold WriteNum. agree_out. Qed.

Lemma WriteString_agree x : agree sameTable (WriteString x).
Proof. unfold WriteString. agree_out. Qed.

Lemma setTypeRef_agree p v : agree sameTable (setTypeRef p v).
Proof. unfold setTypeRef. pose proof (typeAt_agree p). agree_out. Qed.

Ltac agree_export :=
  repeat first
    [ apply Write_agree | apply WriteInt_agree | apply WriteNum_agree
    | apply WriteString_agree | apply typeAt_agree | apply objAt_agree
    | apply setTypeRef_agree | apply Mark_agree
    | agree_side
    | agree_step ].

Lemma findHiddenPointers_agree fuel :
  forall typ offset, agree sameTable (findHiddenPointers fuel typ offset).
Proof.
  induction fuel as [|n IH]; intros typ offset; simpl; agree_export.
Qed.

Lemma outType_outPar_agree fuel :
  (forall t, agree sameTable (outType fuel t)) /\
  (forall par n, agree sameTable (outPar fuel par n)).
Proof.
  induction fuel as [|k [IHt IHp]]; (split; [intros t | intros par n]);
    simpl; try apply agree_fail.
  - pose proof findHiddenPointers_agree as Hf. agree_export.
  - agree_export.
Qed.

(** The buffer that [exportBuffer] assembles depends on the symbol table
    and the module name only. *)
Lemma exportBuffer_agree (fuel : nat) (modId : ors.Ident)
    (s t s1 t1 : State) :
  base s = base t ->
  exportBuffer fuel modId s = Some (tt, s1) ->
  exportBuffer fuel modId t = Some (tt, t1) ->
  sameTable s1 t1.
Proof.
  unfold exportBuffer. rewrite !bind_modify. intros Hb.
  match goal with
  | |- ?m ?s0 = Some _ -> ?m ?t0 = Some _ -> _ =>
      intros E1 E2;
      assert (Hm : agree sameTable m);
      [|refine (proj2 (Hm s0 t0 tt tt s1 t1 _ E1 E2))]
  end.
  - destruct (outType_outPar_agree fuel) as [Ht _]. agree_export.
  - split; cbn; rewrite ?Hb; reflexivity.
Qed.

End ExportBuffer.

(** ** Export: key and file *)

Section ExportKey.
Import orb orbSpec.

Lemma bind_inv {St A B} (m : M St A) (k : A -> M St B) (s : St) r :
  bind m k s = Some r ->
  exists a s1, m s = Some (a, s1) /\ k a s1 = Some r.
Proof.
  unfold bind. destruct (m s) as [[a s1]|]; [|discriminate].
  intros H. exists a, s1. auto.
Qed.

Lemma must_inv {St A} (o : option A) (s : St) a s' :
  must o s = Some (a, s') -> o = Some a /\ s' = s.
Proof.
  destruct o; simpl; [|discriminate]. intros H. inversion H; auto.
Qed.

Lemma i32_mod32 (x : Z) : i32 x mod 2 ^ 32 = x mod 2 ^ 32.
Proof.
  unfold i32, wrap. change (2 ^ (32 - 1)) with (2 ^ 31).
  rewrite Zminus_mod, Z.mod_mod by lia.
  rewrite <- Zminus_mod. f_equal. lia.
Qed.

Lemma i32_add_l (a b : Z) : i32 (i32 a + b) = i32 (a + b).
Proof.
  apply i32_congr. rewrite Z.add_mod, i32_mod32, <- Z.add_mod by lia.
  reflexivity.
Qed.

(** The result of the checksum loop is the wrapping sum of the words. *)
Lemma checksum_sum (n : nat) :
  forall (r : list byte) (acc v : Z),
    (List.length r <= n)%nat -> in_i32 acc ->
    checksum r acc = Some v ->
    v = i32 (acc + fold_right Z.add 0 (wordsOf r)) /\ in_i32 v /\
    (Nat.modulo (List.length r) 4 = 0)%nat.
Proof.
  induction n as [|n IH]; intros r acc v Hlen Hacc H.
  - destruct r; [|simpl in Hlen; lia]. simpl in H. inversion H; subst.
    simpl. rewrite Z.add_0_r, i32_id by exact Hacc. auto.
  - destruct r as [|b0 [|b1 [|b2 [|b3 rest]]]]; simpl in H;
      try discriminate.
    + inversion H; subst. simpl.
      rewrite Z.add_0_r, i32_id by exact Hacc. auto.
    + apply IH in H; [|simpl in Hlen; lia | apply i32_range].
      destruct H as (Hv & Hr & Hm). split; [|split; [exact Hr|]].
      * rewrite Hv. simpl wordsOf. simpl fold_right.
        rewrite i32_add_l. f_equal. lia.
      * change (List.length (b0 :: b1 :: b2 :: b3 :: rest))
          with (4 + List.length rest)%nat.
        rewrite Nat.Div0.add_mod by lia. rewrite Hm. reflexivity.
Qed.

Lemma checksum_wordSum (r : list byte) (v : Z) :
  checksum r 0 = Some v -> v = wordSum r /\ in_i32 v.
Proof.
  intros H.
  destruct (checksum_sum (List.length r) r 0 v (le_n _)
              ltac:(unfold in_i32; lia) H) as (Hv & Hr & _).
  split; [exact Hv | exact Hr].
Qed.

Lemma code_byteOf (x : Z) : code (byteOf x) = x mod 256.
Proof.
  unfold code, byteOf.
  pose proof (Z.mod_pos_bound x 256 ltac:(lia)) as Hb.
  rewrite N_ascii_embedding by lia. apply Z2N.id. lia.
Qed.

(** Reading back the four bytes written by [WriteInt] gives the
    integer. *)
Lemma int32Of_WriteInt (x : Z) (rest : list byte) :
  in_i32 x ->
  files.ReadInt (files.WriteInt [] x ++ rest) = Some (x, rest).
Proof.
  intros Hx. unfold files.WriteInt, files.WriteByte. simpl.
  unfold files.int32Of. rewrite !code_byteOf.
  f_equal. f_equal.
  rewrite !Z.shiftr_div_pow2 by lia.
  assert (Hu : 0 <= u32 x < 2 ^ 32) by (apply Z.mod_pos_bound; lia).
  set (u := u32 x) in *.
  assert (Hsum : u mod 256 + 256 * (u / 2 ^ 8 mod 256)
                 + 65536 * (u / 2 ^ 16 mod 256)
                 + 16777216 * (u / 2 ^ 24 mod 256) = u).
  { change (2 ^ 8) with 256. change (2 ^ 16) with 65536.
    change (2 ^ 24) with 16777216. change (2 ^ 32) with 4294967296 in Hu.
    Z.div_mod_to_equations. lia. }
  rewrite Hsum. unfold u.
  rewrite <- (i32_id x Hx) at 2. apply i32_congr.
  unfold u32. apply Z.mod_mod. lia.
Qed.

Lemma readKey_inv (name : string) (s : State) (old : option Z) (s' : State) :
  readKey name s = Some (old, s') ->
  s' = s /\
  match readFile (fs s) name with
  | None => old = None
  | Some c => exists k, fileKey c = Some k /\ old = Some k
  end.
Proof.
  unfold readKey, bind, gets, fileKey.
  destruct (readFile (fs s) name) as [c|].
  - destruct (files.ReadInt c) as [[x c1]|]; simpl; [|discriminate].
    destruct (files.ReadInt c1) as [[k c2]|]; simpl; [|discriminate].
    intros H. inversion H; subst. split; [reflexivity|].
    exists k. auto.
  - intros H. inversion H; subst. auto.
Qed.

Lemma i32_succ_neq (x : Z) : in_i32 x -> i32 (x + 1) <> x.
Proof.
  unfold in_i32. intros Hx.
  destruct (Z.eq_dec x (2 ^ 31 - 1)) as [->|Hne].
  - vm_compute. discriminate.
  - rewrite i32_id by (unfold in_i32; lia). lia.
Qed.

(** The steps of [Export] after the buffer is assembled. *)
Lemma Export_inv (fuel : nat) (modId : ors.Ident) (newSF : bool)
    (s : State) (key : Z) (written : bool) (s' : State) :
  Export fuel modId newSF s = Some ((key, written), s') ->
  exists s1 w,
    exportBuffer fuel modId s = Some (tt, s1) /\
    checksum (buf s1) 0 = Some key /\
    insertKey (buf s1) key = Some w /\
    match readFile (fs s1) (smbName modId) with
    | None =>
        written = true /\
        s' = set_fs (writeFile (fs s1) (smbName modId) w) (set_buf w s1)
    | Some c =>
        exists k, fileKey c = Some k /\
          if key =? k then written = false /\ s' = set_buf w s1
          else if newSF then
            written = true /\
            s' = set_fs (writeFile (fs s1) (smbName modId) w) (set_buf w s1)
          else
            written = false /\
            s' = set_sc (orsSpec.afterMark "new symbol file inhibited"
                           (sc s1)) (set_buf w s1)
    end.
Proof.
  unfold Export. intros H.
  apply bind_inv in H. destruct H as ([] & s1 & Hbuf & H).
  unfold bind at 1, gets at 1 in H.
  apply bind_inv in H. destruct H as (sum & s1' & Hsum & H).
  apply must_inv in Hsum. destruct Hsum as [Hsum ->].
  apply bind_inv in H. destruct H as (w & s1' & Hw & H).
  apply must_inv in Hw. destruct Hw as [Hw ->].
  rewrite bind_modify in H.
  apply bind_inv in H. destruct H as (old & s2 & Hold & H).
  apply readKey_inv in Hold. destruct Hold as [-> Hold].
  fold (smbName modId) in Hold, H. cbn [fs set_buf] in Hold.
  destruct (checksum_wordSum _ _ Hsum) as [_ Hrange].
  exists s1, w. split; [exact Hbuf|].
  destruct (readFile (fs s1) (smbName modId)) as [c|].
  - destruct Hold as (k & Hk & ->).
    assert (sum = key) as ->.
    { destruct (sum =? k); simpl in H;
        [|destruct newSF; simpl in H]; inversion H; reflexivity. }
    split; [exact Hsum|]. split; [exact Hw|].
    exists k. split; [exact Hk|].
    destruct (key =? k); simpl in H.
    + inversion H; subst. auto.
    + destruct newSF; simpl in H.
      * inversion H; subst. auto.
      * inversion H; subst. auto.
  - subst old. cbn beta iota in H.
    replace (sum =? i32 (sum + 1)) with false in H.
    2:{ symmetry. apply Z.eqb_neq. intros E.
        apply (i32_succ_neq sum Hrange). symmetry. exact E. }
    rewrite orb_true_r in H. simpl in H.
    inversion H; subst. auto.
Qed.

Lemma insertKey_header (t w : list byte) (key : Z) :
  insertKey (repeat zero 8 ++ t) key = Some w ->
  w = repeat zero 4 ++ files.WriteInt [] key ++ t.
Proof.
  unfold insertKey. simpl repeat. cbn [app List.length].
  replace (Z.of_nat (S (S (S (S (S (S (S (S (List.length t))))))))) <? 4)
    with false by (symmetry; apply Z.ltb_ge; lia).
  intros H. inversion H; subst; clear H. simpl.
  rewrite Nat.min_0_r. reflexivity.
Qed.

(** What [Export] leaves in the buffer and what it returns as key. *)
Lemma Export_buffer (fuel : nat) (modId : ors.Ident) (newSF : bool)
    (s : State) (key : Z) (written : bool) (s' : State) :
  Export fuel modId newSF s = Some ((key, written), s') ->
  exists s1 t,
    exportBuffer fuel modId s = Some (tt, s1) /\
    buf s1 = repeat zero 8 ++ t /\
    fs s1 = fs s /\
    checksum (buf s1) 0 = Some key /\
    buf s' = repeat zero 4 ++ files.WriteInt [] key ++ t.
Proof.
  intros H. destruct (Export_inv _ _ _ _ _ _ _ H) as (s1 & w & Hb & Hc & Hw & Hf).
  destruct (exportBuffer_extends _ _ _ _ Hb) as [Hfs [t Ht]].
  exists s1, t. repeat split; try assumption.
  rewrite Ht in Hw. apply insertKey_header in Hw. subst w.
  destruct (readFile (fs s1) (smbName modId)) as [c|].
  - destruct Hf as (k & _ & Hf).
    destruct (key =? k); [|destruct newSF]; destruct Hf as [_ ->];
      reflexivity.
  - destruct Hf as [_ ->]. reflexivity.
Qed.





End ExportKey.

(** ** The object file *)

Section ObjectFile.
Import org orgSpec.

Section KeepsFiles.
Variable F : orb.FileSystem.

Ltac pres_org :=
  repeat first
    [ apply preserves_must
    | apply preserves_modify; intros ? Hs; exact Hs
    | pres_step ].

Lemma typeAt_files p : preserves (filesAre F) (typeAt p).
Proof. unfold typeAt. pres_org. Qed.

Lemma objAt_files p : preserves (filesAre F) (objAt p).
Proof. unfold objAt. pres_org. Qed.

Lemma setCode_files i v : preserves (filesAre F) (setCode i v).
Proof. unfold setCode, g_, upd. pres_org. Qed.

Lemma put0_files op a b c : preserves (filesAre F) (put0 op a b c).
Proof.
  unfold put0, incPC, g_, upd. pose proof setCode_files. pres_org.
Qed.

Lemma put1_files op a b im : preserves (filesAre F) (put1 op a b im).
Proof.
  unfold put1, incPC, g_, upd. pose proof setCode_files. pres_org.
Qed.

Lemma put2_files op a b off : preserves (filesAre F) (put2 op a b off).
Proof.
  unfold put2, incPC, g_, upd. pose proof setCode_files. pres_org.
Qed.

Lemma put3_files op cond off : preserves (filesAre F) (put3 op cond off).
Proof.
  unfold put3, incPC, g_, upd. pose proof setCode_files. pres_org.
Qed.

Lemma nOfPtrs_files fuel : forall typ, preserves (filesAre F) (nOfPtrs fuel typ).
Proof.
  induction fuel as [|k IH]; intros typ; simpl.
  - apply preserves_fail.
  - pose proof typeAt_files. pose proof objAt_files. pres_org.
Qed.

Lemma findPtrs_files fuel :
  forall w typ adr, preserves (filesAre F) (findPtrs fuel w typ adr).
Proof.
  induction fuel as [|k IH]; intros w typ adr; simpl.
  - apply preserves_fail.
  - pose proof typeAt_files. pose proof objAt_files. pres_org.
Qed.

Lemma isCommand_files o : preserves (filesAre F) (isCommand o).
Proof.
  unfold isCommand. pose proof typeAt_files. pres_org.
Qed.

Lemma overObjects_files {A} fuel
    (body : orb.Obj.t -> A -> St (option A)) obj a :
  (forall o x, preserves (filesAre F) (body o x)) ->
  preserves (filesAre F) (overObjects fuel body obj a).
Proof.
  intros Hb. unfold overObjects. pose proof objAt_files. pres_org.
Qed.
End KeepsFiles.

(** Steps of [Close] that keep the files. *)
Ltac keep_files F :=
  repeat match goal with
  | |- preserves _ (ret _) => apply preserves_ret
  | |- preserves _ (gets _) => apply preserves_gets
  | |- preserves _ (must _) => apply preserves_must
  | |- preserves _ (modify _) =>
      apply preserves_modify; intros ? Hs; exact Hs
  | |- preserves _ (put1 _ _ _ _) => apply (put1_files F)
  | |- preserves _ (put2 _ _ _ _) => apply (put2_files F)
  | |- preserves _ (put3 _ _ _) => apply (put3_files F)
  | |- preserves _ (typeAt _) => apply (typeAt_files F)
  | |- preserves _ (objAt _) => apply (objAt_files F)
  | |- preserves _ (isCommand _) => apply (isCommand_files F)
  | |- preserves _ (nOfPtrs _ _) => apply (nOfPtrs_files F)
  | |- preserves _ (findPtrs _ _ _ _) => apply (findPtrs_files F)
  | |- preserves _ (overObjects _ _ _ _) =>
      apply (overObjects_files F); intros
  | |- preserves _ (forRange _ _ _) => apply preserves_forRange; intros
  | |- preserves _ (bind _ _) => apply preserves_bind; [|intros]
  | |- preserves _ (if ?b then _ else _) => destruct b
  | |- preserves _ (match ?x with _ => _ end) => destruct x
  end.
Ltac keep_step Hkeep F :=
  apply wp_bind; apply Hkeep;
  [ keep_files F | first [reflexivity | assumption] | intros ].

(** [Close] writes the object file and leaves the other files alone. *)
Lemma Close_writes (fuel : nat) (modId : ors.Ident) (key nOfEnt : Z)
    (s s' : State) :
  Close fuel modId key nOfEnt s = Some (tt, s') ->
  exists w, fs s' = orb.writeFile (fs s) (modId ++ ".rsc")%string w.
Proof.
  intros H.
  refine (@wp_elim _ _ _ (fun _ s' => exists w, fs s' = orb.writeFile (fs s)
                            (modId ++ ".rsc")%string w) s tt s' _ H).
  clear H s'.
  assert (Hkeep : forall A (m : St A) (Q : A -> State -> Prop) s0,
            preserves (fun s1 => fs s1 = fs s) m ->
            fs s0 = fs s ->
            (forall a s1, fs s1 = fs s -> Q a s1) -> wp m Q s0).
  { intros A m Q s0 Hm H0 HQ. unfold wp.
    destruct (m s0) as [[a s1]|] eqn:E; [|exact I].
    apply HQ. exact (Hm s0 a s1 H0 E). }
  unfold Close, g_, upd.
  keep_step Hkeep (fs s). keep_step Hkeep (fs s). keep_step Hkeep (fs s).
  keep_step Hkeep (fs s). keep_step Hkeep (fs s).
  match goal with a : (orb.ptr * (Z * Z * Z))%type |- _ =>
    destruct a as [? [[? ?] ?]] end.
  keep_step Hkeep (fs s). keep_step Hkeep (fs s).
  match goal with a : (orb.ptr * list byte)%type |- _ =>
    destruct a as [? ?] end.
  keep_step Hkeep (fs s). keep_step Hkeep (fs s). keep_step Hkeep (fs s).
  keep_step Hkeep (fs s).
  match goal with a : (orb.ptr * list byte)%type |- _ =>
    destruct a as [? ?] end.
  keep_step Hkeep (fs s).
  match goal with a : (orb.ptr * list byte)%type |- _ =>
    destruct a as [? ?] end.
  keep_step Hkeep (fs s).
  match goal with a : (orb.ptr * list byte)%type |- _ =>
    destruct a as [? ?] end.
  apply wp_modify. cbn [fs set_fs].
  eexists. f_equal. assumption.
Qed.

End ObjectFile.

(** ** The end of a module *)

Section ModuleEnd.
Import orp.

Lemma zoom_inv {St T A} (proj : St -> T) (upd : T -> St -> St)
    (m : M T A) (s : St) a s' :
  zoom proj upd m s = Some (a, s') ->
  exists t, m (proj s) = Some (a, t) /\ s' = upd t s.
Proof.
  unfold zoom. destruct (m (proj s)) as [[a' t]|]; [|discriminate].
  intros H. inversion H; subst. exists t. auto.
Qed.

(** The closing steps of [module] after the files are dealt with leave
    the files and the flag alone. *)
Lemma closing_files (p p' : State) :
  (log (String "010" "") ;; inBase orb.CloseScope ;; modify (set_pbsList []))
    p = Some (tt, p') ->
  fs p' = fs p /\ newSF p' = newSF p.
Proof.
  unfold log. rewrite bind_modify. intros H.
  apply bind_inv in H. destruct H as ([] & p1 & Hc & H).
  apply zoom_inv in Hc. destruct Hc as (b & _ & ->).
  inversion H; subst. split; reflexivity.
Qed.

(** The object-file step: [Close] when the error count is zero, the
    failure message otherwise. *)
Lemma object_step (fuel : nat) (key : Z) (p1 p2 : State) :
  (if ors.ErrCnt (sc p1) =? 0 then
     id <- gets modId ;; n <- gets exNo ;;
     inOrg (org.Close fuel id key n) ;;
     pc <- gets (fun p => org.PC (gen p)) ;;
     d <- gets dc ;;
     log (" " ++ ors.fmtInt pc ++ " " ++ ors.fmtInt d ++ " "
          ++ fmtHex (u32 key))%string
   else log (String "010" "compilation FAILED")) p1 = Some (tt, p2) ->
  newSF p2 = newSF p1 /\
  (ors.ErrCnt (sc p1) = 0 ->
   exists obj,
     fs p2 = orb.writeFile (fs p1) (modId p1 ++ ".rsc")%string obj) /\
  (ors.ErrCnt (sc p1) <> 0 -> fs p2 = fs p1).
Proof.
  intros Hobj.
  destruct (ors.ErrCnt (sc p1) =? 0) eqn:E;
    [apply Z.eqb_eq in E | apply Z.eqb_neq in E].
  - unfold bind at 1, gets at 1 in Hobj.
    unfold bind at 1, gets at 1 in Hobj.
    apply bind_inv in Hobj. destruct Hobj as ([] & p3 & Hc & Hobj).
    apply zoom_inv in Hc. destruct Hc as (g & Hc & ->).
    apply Close_writes in Hc. destruct Hc as (obj & Hc).
    unfold bind, gets, log, modify in Hobj. inversion Hobj; subst.
    split; [reflexivity|].
    split; [intros _ | intros Hne; contradiction].
    exists obj. cbn. exact Hc.
  - unfold log, modify in Hobj. inversion Hobj; subst.
    split; [reflexivity|].
    split; [intros H0; contradiction | intros _; reflexivity].
Qed.

(** The export step: [Export] when the error count is zero and the
    version is not 0. *)
Lemma export_step (fuel : nat) (key : Z) (p p1 : State) :
  (if (ors.ErrCnt (sc p) =? 0) && negb (version p =? 0) then
     id <- gets modId ;; sf <- gets newSF ;;
     '(key, sf') <- inOrb (orb.Export fuel id sf) ;;
     modify (set_newSF sf') ;;
     when sf' (log " new symbol file") ;;
     ret key
   else ret 0) p = Some (key, p1) ->
  modId p1 = modId p /\
  if (ors.ErrCnt (sc p) =? 0) && negb (version p =? 0) then
    exists written o,
      orb.Export fuel (modId p) (newSF p) (toOrb p)
        = Some ((key, written), o) /\
      newSF p1 = written /\ sc p1 = orb.sc o /\ fs p1 = orb.fs o
  else p1 = p /\ key = 0.
Proof.
  destruct ((ors.ErrCnt (sc p) =? 0) && negb (version p =? 0)).
  - unfold bind at 1, gets at 1. unfold bind at 1, gets at 1.
    intros H. apply bind_inv in H.
    destruct H as ([key' written] & p3 & Hx & H).
    apply zoom_inv in Hx. destruct Hx as (o & Hx & ->).
    rewrite bind_modify in H.
    destruct written; simpl in H; inversion H; subst;
      (split; [reflexivity|]); eexists; eexists;
      (split; [exact Hx|]); repeat split.
  - intros H. inversion H; subst. auto.
Qed.




(** A module of version 0 compiled with error count zero and no symbol
    file present: the object file is written, a symbol file is not. *)
Example module_end_version_0 :
  let p := Scenarios.parsedK 0 false [] in
  exists p' obj,
    moduleEnd 64 p = Some (tt, p') /\
    ors.ErrCnt (sc p) = 0 /\
    fs p' = [("M.rsc", obj)].
Proof.
  intros p. eexists. eexists. split; [vm_compute; reflexivity|].
  repeat split.
Qed.

End ModuleEnd.

(** * Further properties *)

(** ** The monad: total correctness rules *)

Section TWP.
Context {St : Type}.

Lemma twp_elim {A} (m : M St A) (Q : A -> St -> Prop) (s : St) :
  twp m Q s -> exists a s', m s = Some (a, s') /\ Q a s'.
Proof.
  unfold twp. destruct (m s) as [[a s']|]; [|contradiction].
  intros H. exists a, s'. auto.
Qed.

Lemma twp_ret {A} (a : A) (Q : A -> St -> Prop) (s : St) :
  Q a s -> twp (ret a) Q s.
Proof. auto. Qed.

Lemma twp_gets {A} (f : St -> A) (Q : A -> St -> Prop) (s : St) :
  Q (f s) s -> twp (gets f) Q s.
Proof. auto. Qed.

Lemma twp_modify (f : St -> St) (Q : unit -> St -> Prop) (s : St) :
  Q tt (f s) -> twp (modify f) Q s.
Proof. auto. Qed.

Lemma twp_bind {A B} (m : M St A) (k : A -> M St B)
    (Q : B -> St -> Prop) (s : St) :
  twp m (fun a s' => twp (k a) Q s') s -> twp (bind m k) Q s.
Proof.
  unfold twp, bind. destruct (m s) as [[a s1]|]; auto.
Qed.

Lemma twp_mono {A} (m : M St A) (Q Q' : A -> St -> Prop) (s : St) :
  twp m Q s -> (forall a s', Q a s' -> Q' a s') -> twp m Q' s.
Proof.
  unfold twp. destruct (m s) as [[a s1]|]; auto.
Qed.

(** A loop whose passes decrease a variant finishes when the fuel exceeds
    the variant. *)
Lemma twp_loop {A B} (Inv : A -> St -> Prop) (V : St -> nat)
    (Q : B -> St -> Prop) (body : A -> M St (A + B)) :
  (forall a s, Inv a s ->
     twp (body a) (fun r s' => match r with
                               | inl a' => Inv a' s' /\ (V s' < V s)%nat
                               | inr b => Q b s'
                               end) s) ->
  forall fuel a s, Inv a s -> (V s < fuel)%nat -> twp (loop fuel body a) Q s.
Proof.
  intros Hb fuel. induction fuel as [|n IH]; intros a s HI HV; [lia|].
  simpl. apply twp_bind. eapply twp_mono; [apply Hb; exact HI|].
  intros [a'|b] s' H.
  - destruct H as [H1 H2]. apply IH; [exact H1 | lia].
  - apply twp_ret. exact H.
Qed.

Lemma twp_forRange {A X} (Inv : A -> St -> Prop)
    (body : X -> A -> M St A) :
  (forall x a s, Inv a s -> twp (body x a) Inv s) ->
  forall xs a s, Inv a s -> twp (forRange xs body a) Inv s.
Proof.
  intros Hb xs. induction xs as [|x xs IH]; intros a s HI; simpl.
  - apply twp_ret; exact HI.
  - apply twp_bind. eapply twp_mono; [apply Hb; exact HI|].
    intros a' s' H. apply IH; exact H.
Qed.
End TWP.

Lemma loop_S {St A B} (n : nat) (body : A -> M St (A + B)) (a : A)
    (s : St) :
  loop (S n) body a s
  = match body a s with
    | Some (inl a', s') => loop n body a' s'
    | Some (inr b, s') => Some (b, s')
    | None => None
    end.
Proof.
  simpl. unfold bind. destruct (body a s) as [[[a'|b] s']|]; reflexivity.
Qed.

Lemma ret_eq {St A} (a : A) (s : St) : ret a s = Some (a, s).
Proof. reflexivity. Qed.

Lemma last_cons {A} (l : list A) :
  forall a d : A, last (a :: l) d = last l a.
Proof.
  induction l as [|b l IH]; intros a d; [reflexivity|].
  change (last (a :: b :: l) d) with (last (b :: l) d).
  rewrite (IH b d), (IH b a). reflexivity.
Qed.

(** ** Package files: what is written is read back *)

Section FilesRoundTrip.
Import files.

Lemma testbit_small (x n k : Z) :
  0 <= x < 2 ^ n -> n <= k -> Z.testbit x k = false.
Proof.
  intros Hx Hk. destruct (Z.eq_dec x 0) as [->|Hne].
  - apply Z.testbit_0_l.
  - apply Z.bits_above_log2; [lia|].
    assert (Z.log2 x < n); [|lia].
    apply Z.log2_lt_pow2; lia.
Qed.

(** Rotation to the right by [k] bits, in arithmetic. *)
Lemma RotateLeft32_right (x k : Z) :
  0 <= x < 2 ^ 32 -> 0 < k < 32 ->
  RotateLeft32 x (- k) = (x mod 2 ^ k) * 2 ^ (32 - k) + x / 2 ^ k.
Proof.
  intros Hx Hk. unfold RotateLeft32.
  assert (Hs : Z.land (- k) 31 = 32 - k).
  { change 31 with (Z.ones 5). rewrite Z.land_ones by lia.
    change (2 ^ 5) with 32.
    rewrite <- (Z.mod_unique (- k) 32 (-1) (32 - k)); lia. }
  rewrite Hs. replace (32 - (32 - k)) with k by lia.
  assert (Hd : Z.land (Z.shiftl x (32 - k)) (Z.shiftr x k) = 0).
  { apply Z.bits_inj'. intros n Hn.
    rewrite Z.land_spec, Z.bits_0.
    destruct (Z.lt_ge_cases n (32 - k)) as [Hlt|Hge].
    - rewrite Z.shiftl_spec_low by lia. reflexivity.
    - rewrite Z.shiftr_spec by lia.
      rewrite (testbit_small x 32 (n + k)) by lia.
      apply andb_false_r. }
  pose proof (Z.add_lor_land (Z.shiftl x (32 - k)) (Z.shiftr x k)) as Ha.
  rewrite Hd, Z.add_0_r in Ha. rewrite Ha.
  rewrite Z.shiftl_mul_pow2, Z.shiftr_div_pow2 by lia.
  unfold u32.
  assert (Hp : 2 ^ 32 = 2 ^ k * 2 ^ (32 - k)).
  { rewrite <- Z.pow_add_r by lia. f_equal. lia. }
  assert (Hk0 : 0 < 2 ^ k) by (apply Z.pow_pos_nonneg; lia).
  assert (Hk1 : 0 < 2 ^ (32 - k)) by (apply Z.pow_pos_nonneg; lia).
  assert (Hq : 0 <= x / 2 ^ k < 2 ^ (32 - k)).
  { split; [apply Z.div_pos; lia|].
    apply Z.div_lt_upper_bound; lia. }
  pose proof (Z.mod_pos_bound x (2 ^ k) Hk0) as Hm.
  symmetry. apply Z.mod_unique with (q := x / 2 ^ k).
  - left. nia.
  - rewrite Hp. rewrite (Z.div_mod x (2 ^ k)) at 1 by lia. nia.
Qed.

Lemma rotr7 (x : Z) :
  0 <= x < 2 ^ 32 ->
  RotateLeft32 x (-7) = (x mod 128) * 33554432 + x / 128.
Proof. intros H. apply (RotateLeft32_right x 7 H). lia. Qed.

Lemma rotr4 (x : Z) :
  0 <= x < 2 ^ 32 ->
  RotateLeft32 x (-4) = (x mod 16) * 268435456 + x / 16.
Proof. intros H. apply (RotateLeft32_right x 4 H). lia. Qed.


Ltac pow_norm :=
  repeat match goal with
  | |- context [2 ^ Z.of_nat ?n] =>
      let v := eval vm_compute in (2 ^ Z.of_nat n) in
      change (2 ^ Z.of_nat n) with v
  | H : context [2 ^ Z.of_nat ?n] |- _ =>
      let v := eval vm_compute in (2 ^ Z.of_nat n) in
      change (2 ^ Z.of_nat n) with v in H
  | |- context [Z.of_nat ?n] =>
      let v := eval vm_compute in (Z.of_nat n) in
      change (Z.of_nat n) with v
  end.

Lemma writeNum_byte_last (x : Z) :
  code (byteOf (code (byteOf x) mod 128)) = x mod 128.
Proof.
  rewrite !code_byteOf. Z.div_mod_to_equations. lia.
Qed.

Lemma writeNum_byte_more (x : Z) :
  code (byteOf (code (byteOf x) mod 128 + 128)) = x mod 128 + 128.
Proof.
  rewrite !code_byteOf. Z.div_mod_to_equations. lia.
Qed.

Lemma readNumLoop_stop (r : list byte) (n y : Z) (b : byte) :
  code b < 128 -> readNumLoop r n y b = Some (n, y, b, r).
Proof.
  intros H. apply Z.leb_gt in H. destruct r; simpl; rewrite H; reflexivity.
Qed.

Lemma readNumLoop_more (b' : byte) (r : list byte) (n y : Z) (b : byte) :
  128 <= code b ->
  readNumLoop (b' :: r) n y b
  = readNumLoop r (i64 (n - 7))
      (RotateLeft32 (u32 (i64 (i64 (y + code b) - 128))) (-7)) b'.
Proof. intros H. apply Z.leb_le in H. simpl. rewrite H. reflexivity. Qed.

Lemma readNum_writeNum_from (k : nat) :
  (k <= 4)%nat ->
  forall (x L : Z) (rest : list byte),
    - 2 ^ Z.of_nat (3 + 7 * k) <= x < 2 ^ Z.of_nat (3 + 7 * k) ->
    0 <= L < 2 ^ Z.of_nat (28 - 7 * k) ->
    exists b bs n y b',
      writeNumLoop (S k) [] x = b :: bs /\
      readNumLoop (bs ++ rest) (Z.of_nat (4 + 7 * k))
        (L * 2 ^ Z.of_nat (4 + 7 * k)) b = Some (n, y, b', rest) /\
      readNumEnd n y b' = Some (x * 2 ^ Z.of_nat (28 - 7 * k) + L).
Proof.
  induction k as [|k IH]; intros Hk x L rest Hx HL.
  - pow_norm. exists (byteOf (code (byteOf x) mod 128)), [].
    assert (E : (x <? -64) || (64 <=? x) = false).
    { apply orb_false_iff. split; [apply Z.ltb_ge | apply Z.leb_gt]; lia. }
    cbn [writeNumLoop]. rewrite E. unfold WriteByte. simpl app.
    do 3 eexists. split; [reflexivity|].
    pose proof (writeNum_byte_last x) as Hb.
    rewrite readNumLoop_stop
      by (rewrite Hb; pose proof (Z.mod_pos_bound x 128); lia).
    split; [reflexivity|].
    unfold readNumEnd. change (4 <=? 4) with true. cbv iota.
    rewrite Hb. f_equal.
    rewrite Z.rem_mod_nonneg
      by (pose proof (Z.mod_pos_bound x 128); lia).
    assert (Hm : (x mod 128) mod 16 = x mod 16)
      by (Z.div_mod_to_equations; lia).
    rewrite Hm.
    assert (Hr : 0 <= x mod 16 < 16) by (apply Z.mod_pos_bound; lia).
    rewrite i64_id by (unfold in_i64; lia).
    unfold u32 at 1. rewrite Z.mod_small by lia.
    rewrite rotr4 by lia.
    assert (H1 : (L * 16 + x mod 16) mod 16 = x mod 16)
      by (Z.div_mod_to_equations; lia).
    assert (H2 : (L * 16 + x mod 16) / 16 = L)
      by (Z.div_mod_to_equations; lia).
    rewrite H1, H2. unfold i32, wrap.
    change (2 ^ (32 - 1)) with 2147483648. change (2 ^ 32) with 4294967296.
    Z.div_mod_to_equations. lia.
  - assert (Hb1 := writeNum_byte_last x).
    assert (Hb2 := writeNum_byte_more x).
    assert (Hm : 0 <= x mod 128 < 128) by (apply Z.mod_pos_bound; lia).
    change (writeNumLoop (S (S k)) [] x)
      with (if (x <? -64) || (64 <=? x)
            then writeNumLoop (S k)
                   (WriteByte [] (byteOf (code (byteOf x) mod 128 + 128)))
                   (Z.shiftr x 7)
            else WriteByte [] (byteOf (code (byteOf x) mod 128))).
    destruct ((x <? -64) || (64 <=? x)) eqn:E.
    + (* a continuation byte, then the bytes of x >> 7 *)
      rewrite writeNumLoop_app.
      rewrite Z.shiftr_div_pow2 by lia. change (2 ^ 7) with 128.
      destruct k as [|[|[|[|k]]]]; [| | | | lia]; pow_norm;
        (match type of HL with
         | _ <= _ < ?M =>
             destruct (IH ltac:(lia) (x / 128) ((x mod 128) * M + L) rest)
               as (b & bs & n & y & b' & Hw & Hl & He);
               [ Z.div_mod_to_equations; lia | lia | ]
         end);
        pow_norm; rewrite Hw; unfold WriteByte at 1; simpl app;
        exists (byteOf (code (byteOf x) mod 128 + 128)), (b :: bs), n, y, b';
        (split; [reflexivity|]);
        simpl app; rewrite readNumLoop_more by lia; rewrite Hb2;
        (split; [| rewrite He; f_equal; pow_norm;
                   Z.div_mod_to_equations; lia]);
        rewrite <- Hl; f_equal.
        all: try (rewrite i64_id by (unfold in_i64; lia); reflexivity).
        all: match goal with
             | |- context [i64 (?a + ?b)] =>
                 rewrite (i64_id (a + b)) by (unfold in_i64; lia)
             end; rewrite i64_id by (unfold in_i64; lia).
        all: unfold u32 at 1; rewrite Z.mod_small by lia.
        all: rewrite rotr7 by lia.
        all: Z.div_mod_to_equations; lia.
    + (* the last byte *)
      apply orb_false_iff in E. destruct E as [E1 E2].
      apply Z.ltb_ge in E1. apply Z.leb_gt in E2.
      exists (byteOf (code (byteOf x) mod 128)), [].
      do 3 eexists. split; [reflexivity|].
      rewrite readNumLoop_stop by lia.
      split; [reflexivity|].
      destruct k as [|[|[|[|k]]]]; [| | | | lia]; pow_norm;
        unfold readNumEnd; rewrite Hb1;
        match goal with
        | |- context [?n <=? 4] => change (n <=? 4) with false
        end;
        match goal with
        | |- context [i64 (?n - 7) <? 0] =>
            let v := eval vm_compute in (i64 (n - 7)) in
            change (i64 (n - 7)) with v
        end;
        match goal with
        | |- context [?n <? 0] => change (n <? 0) with false
        end; cbv iota; f_equal;
        rewrite i64_id by (unfold in_i64; lia);
        unfold u32 at 1; rewrite Z.mod_small by lia;
        rewrite rotr7 by lia;
        rewrite Z.shiftr_div_pow2 by lia.
      all: match goal with
           | |- context [2 ^ ?e] =>
               let v := eval vm_compute in (2 ^ e) in change (2 ^ e) with v
           end.
      all: unfold i32, wrap; change (2 ^ (32 - 1)) with 2147483648;
        change (2 ^ 32) with 4294967296.
      all: Z.div_mod_to_equations; lia.
Qed.

(** X2: a number written by [WriteNum] is read back by [ReadNum], which
    stops exactly behind it. *)
Theorem ReadNum_WriteNum (x : Z) (rest : list byte) :
  in_i32 x -> ReadNum (WriteNum [] x ++ rest) = Some (x, rest).
Proof.
  unfold in_i32. intros Hx.
  destruct (readNum_writeNum_from 4 (le_n _) x 0 rest)
    as (b & bs & n & y & b' & Hw & Hl & He).
  - pow_norm. change (2 ^ 31) with 2147483648 in Hx. lia.
  - pow_norm. lia.
  - pow_norm. unfold WriteNum. rewrite Hw.
    unfold ReadNum. cbn [app ReadByte].
    change (Z.of_nat (4 + 7 * 4)) with 32 in Hl.
    change (0 * 4294967296) with 0 in Hl. rewrite Hl, He.
    f_equal. f_equal. lia.
Qed.

Lemma ReadNum_WriteNum_witness :
  ReadNum (WriteNum [] (-2147483648) ++ [byteOf 7])
  = Some (-2147483648, [byteOf 7]).
Proof. apply ReadNum_WriteNum. unfold in_i32. lia. Defined.

(** X1: an integer written by [WriteInt] is read back by [ReadInt]. *)
Theorem ReadInt_WriteInt (x : Z) (rest : list byte) :
  in_i32 x -> ReadInt (WriteInt [] x ++ rest) = Some (x, rest).
Proof. apply int32Of_WriteInt. Qed.

Lemma ReadInt_WriteInt_witness :
  ReadInt (WriteInt [] (-2) ++ [byteOf 7]) = Some (-2, [byteOf 7]).
Proof. apply ReadInt_WriteInt. unfold in_i32. lia. Defined.

(** X4: a number from -128 to 127 written by [Write] is read back by
    [Read]. *)
Theorem Read_Write (ch : Z) (rest : list byte) :
  -128 <= ch < 128 -> Read (Write [] ch ++ rest) = Some (ch, rest).
Proof.
  intros Hc. unfold Write, WriteByte, Read. cbn [app ReadByte].
  rewrite code_byteOf. f_equal. f_equal.
  destruct (ch mod 256 <? 128) eqn:E;
    [apply Z.ltb_lt in E | apply Z.ltb_ge in E];
    rewrite i32_id by
      (unfold in_i32; pose proof (Z.mod_pos_bound ch 256); lia);
    Z.div_mod_to_equations; lia.
Qed.

Lemma Read_Write_witness :
  Read (Write [] (-13) ++ [byteOf 7]) = Some (-13, [byteOf 7]).
Proof. apply Read_Write. lia. Defined.

Lemma readStringLoop_app (cs : list byte) :
  forall (buf : string) (rest : list byte),
    forallb (fun c => negb (code c =? 0)) cs = true ->
    readStringLoop (cs ++ zero :: rest) buf
    = Some ((buf ++ string_of_list_ascii cs)%string, rest).
Proof.
  induction cs as [|c cs IH]; intros buf rest H; simpl.
  - rewrite append_empty_r. reflexivity.
  - simpl in H. apply andb_prop in H. destruct H as [Hc H].
    apply negb_true_iff in Hc. rewrite Hc, IH by exact H.
    f_equal. f_equal. apply (append_writeByte buf c).
Qed.

(** X3: a string without NUL bytes written by [WriteString] is read back
    by [ReadString]. *)
Theorem ReadString_WriteString (x : string) (rest : list byte) :
  forallb (fun c => negb (code c =? 0)) (list_ascii_of_string x) = true ->
  ReadString (WriteString [] x ++ rest) = Some (x, rest).
Proof.
  intros H. unfold ReadString, WriteString, WriteByte.
  rewrite fold_WriteByte. cbn [app]. rewrite <- app_assoc. cbn [app].
  rewrite readStringLoop_app by exact H.
  rewrite string_of_list_ascii_of_string. reflexivity.
Qed.

Lemma ReadString_WriteString_witness :
  ReadString (WriteString [] "Lists" ++ [byteOf 7])
  = Some ("Lists", [byteOf 7]).
Proof. apply ReadString_WriteString. reflexivity. Defined.

(** A NUL byte inside the string ends it for the reader. *)
Example ReadString_stops_at_NUL :
  ReadString (WriteString [] (String "a" (String zero "b")))
  = Some ("a", [byteOf 98; zero]).
Proof. reflexivity. Qed.

End FilesRoundTrip.

(** ** The scanner: literals *)

Section Literals.
Import ors orsSpec.

(** X5: [Get] never delivers [symNull]. *)
Theorem Get_never_null (fuel : nat) (s s' : Scanner) (sym : Sym) :
  Get fuel s = Some (sym, s') -> sym <> symNull.
Proof.
  unfold Get. generalize fuel at 2. intros f.
  generalize tt at 2. revert s.
  induction fuel as [|n IH]; intros s u H; [discriminate|].
  simpl in H. apply bind_inv in H. destruct H as ([a|b] & s1 & H1 & H2).
  - exact (IH s1 a H2).
  - inversion H2; subst; clear H2.
    apply bind_inv in H1. destruct H1 as (x & s2 & _ & H1).
    destruct (Sym_eqb x symNull) eqn:E; inversion H1; subst.
    intros ->. discriminate.
Qed.

Lemma Get_never_null_witness :
  exists s', Get 9 (NewScanner "% ?x") = Some (SymIdent, s') /\
             SymIdent <> symNull.
Proof.
  assert (H : exists s', Get 9 (NewScanner "% ?x") = Some (SymIdent, s'))
    by (eexists; vm_compute; reflexivity).
  destruct H as [s' H]. exists s'.
  split; [exact H | exact (Get_never_null _ _ _ _ H)].
Defined.

Lemma isDigit_code (c : ascii) :
  isDigit c = true -> 0 <= code c - 48 <= 9.
Proof.
  unfold isDigit, chLe. change (code "0") with 48. change (code "9") with 57.
  intros H. apply andb_prop in H. destruct H as [H1 H2].
  apply Z.leb_le in H1. apply Z.leb_le in H2. lia.
Qed.

Lemma allDigits_allHex (cs : string) : allDigits cs = true -> allHex cs = true.
Proof.
  induction cs as [|c cs IH]; simpl; [reflexivity|].
  intros H. apply andb_prop in H. destruct H as [Hc H].
  unfold isHexDigit. rewrite Hc, IH by exact H. reflexivity.
Qed.

Lemma decValueFrom_ge (cs : string) :
  forall k, allDigits cs = true -> 0 <= k -> k <= decValueFrom k cs.
Proof.
  induction cs as [|c cs IH]; intros k H Hk; simpl; [lia|].
  simpl in H. apply andb_prop in H. destruct H as [Hc H].
  apply isDigit_code in Hc.
  specialize (IH (k * 10 + (code c - 48)) H ltac:(lia)). lia.
Qed.

(** The loop of [decimalInteger] on the digits of a numeral. *)
Lemma decimalInteger_loop (cs : string) :
  forall (k : Z) (s : Scanner),
    allDigits cs = true -> 0 <= k <= 2147483647 ->
    exists k' s' l,
      forRange (digitCodes cs) (fun d k =>
        if d <? 10
        then if k <=? Z.quot (2147483647 - d) 10
             then ret (i64 (k * 10 + d))
             else Mark "too large" ;; ret 0
        else Mark "bad integer" ;; ret k) k s = Some (k', s') /\
      0 <= k' <= 2147483647 /\
      marked s' = marked s ++ l /\ Forall (saying "too large") l /\
      (decValueFrom k cs <= 2147483647 ->
       k' = decValueFrom k cs /\ s' = s) /\
      (2147483647 < decValueFrom k cs -> l <> []) /\
      r s' = r s /\ ch s' = ch s.
Proof.
  induction cs as [|c cs IH]; intros k s H Hk.
  - exists k, s, []. simpl. rewrite app_nil_r.
    repeat split; intros; auto; try lia.
  - simpl in H. apply andb_prop in H. destruct H as [Hc H].
    pose proof (isDigit_code c Hc) as Hd.
    cbn [digitCodes forRange decValueFrom]. unfold bind at 1.
    replace (code c - 48 <? 10) with true by (symmetry; apply Z.ltb_lt; lia).
    destruct (k <=? Z.quot (2147483647 - (code c - 48)) 10) eqn:E.
    + apply Z.leb_le in E.
      assert (Hk' : 0 <= k * 10 + (code c - 48) <= 2147483647).
      { split; [lia|].
        pose proof (Z.quot_rem' (2147483647 - (code c - 48)) 10).
        pose proof (Z.rem_bound_pos (2147483647 - (code c - 48)) 10).
        lia. }
      unfold ret at 1. rewrite i64_id by (unfold in_i64; lia).
      destruct (IH (k * 10 + (code c - 48)) s H Hk')
        as (k' & s' & l & Hf & Hr & Hm & Hall & Hok & Hbig & Hrs & Hcs).
      exists k', s', l. repeat split; auto; try lia; apply Hok; auto.
    + apply Z.leb_gt in E.
      unfold bind at 1. rewrite Mark_eq. unfold ret at 1.
      destruct (IH 0 (afterMark "too large" s) H ltac:(lia))
        as (k' & s' & l & Hf & Hr & Hm & Hall & Hok & Hbig & Hrs & Hcs).
      exists k', s', ((Pos s, "too large") :: l).
      split; [exact Hf|]. split; [exact Hr|].
      split; [rewrite Hm; simpl; rewrite <- app_assoc; reflexivity|].
      split; [constructor; [reflexivity | exact Hall]|].
      assert (Hbig' : 2147483647 < decValueFrom (k * 10 + (code c - 48)) cs).
      { pose proof (decValueFrom_ge cs (k * 10 + (code c - 48)) H
                      ltac:(lia)).
        pose proof (Z.quot_rem' (2147483647 - (code c - 48)) 10).
        pose proof (Z.rem_bound_pos (2147483647 - (code c - 48)) 10).
        lia. }
      split; [intros; lia|]. split; [intros _; discriminate|].
      split; [rewrite Hrs | rewrite Hcs]; reflexivity.
Qed.

Lemma endsDecimal_tests (rest : string) :
  endsDecimal rest = true ->
  endsDigits rest = true /\
  chEq (nextByte rest) "H" || chEq (nextByte rest) "R"
    || chEq (nextByte rest) "X" = false /\
  chEq (nextByte rest) "." = false.
Proof.
  destruct rest as [|c rest]; simpl; [auto|].
  intros H. apply andb_prop in H. destruct H as [H1 H2].
  apply negb_true_iff in H2.
  destruct (chEq c "H"), (chEq c "R"), (chEq c "X"), (chEq c ".");
    try discriminate. auto.
Qed.

(** A decimal numeral of at most 16 digits: [number] collects the digits
    and hands them to [decimalInteger]. *)
Lemma number_decimal (cs rest : string) (fuel : nat) (s : Scanner) :
  r s = (cs ++ rest)%string ->
  isDigit (ch s) = true -> allDigits cs = true ->
  endsDecimal rest = true ->
  (S (String.length cs) <= 16)%nat -> (String.length cs < fuel)%nat ->
  exists s1,
    number fuel s
    = (k <- decimalInteger (digitCodes (String (ch s) cs)) ;;
       modify (set_Ival (i32 k)) ;; ret SymInt) s1 /\
    ch s1 = nextByte rest /\ r s1 = afterNext rest /\
    w s1 = w s /\ ErrCnt s1 = ErrCnt s /\ marked s1 = marked s.
Proof.
  intros Hr Hc0 Hall Hend Hlen Hfuel.
  destruct (endsDecimal_tests rest Hend) as (He & Hs & Hp).
  destruct (digits_loop cs fuel [] rest (set_Ival 0 s))
    as (s1 & Hl & Hc & Hr1 & Hw & He1 & Hm & _ & _);
    [exact Hr | apply allDigits_allHex; exact Hall | exact He
    | simpl; lia | exact Hfuel |].
  exists s1. split; [|repeat split; assumption].
  unfold number, bind at 1, modify at 1, bind at 1. rewrite Hl.
  unfold bind at 1, gets at 1. rewrite Hc, Hs, Hp. reflexivity.
Qed.

(** X6: a decimal literal of at most 16 digits whose value fits an
    [int32] is delivered as [SymInt] with that value, and nothing is
    reported. *)
Theorem decimal_literal (cs rest : string) (fuel : nat) (s : Scanner) :
  r s = (cs ++ rest)%string ->
  isDigit (ch s) = true -> allDigits cs = true ->
  endsDecimal rest = true ->
  (S (String.length cs) <= 16)%nat -> (String.length cs < fuel)%nat ->
  decValue (String (ch s) cs) <= 2147483647 ->
  exists s',
    number fuel s = Some (SymInt, s') /\
    Ival s' = decValue (String (ch s) cs) /\
    ch s' = nextByte rest /\ r s' = afterNext rest /\
    w s' = w s /\ ErrCnt s' = ErrCnt s /\ marked s' = marked s.
Proof.
  intros Hr Hc0 Hall Hend Hlen Hfuel Hv.
  destruct (number_decimal cs rest fuel s Hr Hc0 Hall Hend Hlen Hfuel)
    as (s1 & Hn & Hc & Hr1 & Hw & He & Hm).
  destruct (decimalInteger_loop (String (ch s) cs) 0 s1)
    as (k' & s2 & l & Hf & Hk & _ & _ & Hok & _);
    [simpl; rewrite Hc0, Hall; reflexivity | lia |].
  destruct (Hok Hv) as [Hk' ->].
  rewrite Hn. unfold bind at 1, decimalInteger. rewrite Hf.
  eexists. split; [reflexivity|]. cbn [bind modify ret Ival set_Ival ch r w
    ErrCnt marked].
  rewrite i32_id by (unfold in_i32; lia).
  repeat split; assumption.
Qed.

Lemma decimal_literal_witness :
  exists s',
    number 16 (set_ch "2" (NewScanner "147483647;"))
    = Some (SymInt, s') /\
    Ival s' = 2147483647 /\ ch s' = ";"%char /\ r s' = "" /\
    w s' = [] /\ ErrCnt s' = 0 /\ marked s' = [].
Proof.
  apply (decimal_literal "147483647" ";" 16
           (set_ch "2" (NewScanner "147483647;")));
    [reflexivity | reflexivity | reflexivity | reflexivity
    | simpl; lia | simpl; lia | vm_compute; discriminate].
Defined.

(** X7: a decimal literal of at most 16 digits whose value exceeds
    2147483647 is still delivered as [SymInt], and [too large] is
    reported. *)
Theorem decimal_literal_too_large (cs rest : string) (fuel : nat)
    (s : Scanner) :
  r s = (cs ++ rest)%string ->
  isDigit (ch s) = true -> allDigits cs = true ->
  endsDecimal rest = true ->
  (S (String.length cs) <= 16)%nat -> (String.length cs < fuel)%nat ->
  2147483647 < decValue (String (ch s) cs) ->
  exists s' l,
    number fuel s = Some (SymInt, s') /\
    marked s' = marked s ++ l /\ l <> [] /\
    Forall (saying "too large") l /\
    0 <= Ival s' <= 2147483647 /\
    ch s' = nextByte rest /\ r s' = afterNext rest.
Proof.
  intros Hr Hc0 Hall Hend Hlen Hfuel Hv.
  destruct (number_decimal cs rest fuel s Hr Hc0 Hall Hend Hlen Hfuel)
    as (s1 & Hn & Hc & Hr1 & Hw & He & Hm).
  destruct (decimalInteger_loop (String (ch s) cs) 0 s1)
    as (k' & s2 & l & Hf & Hk & Hm2 & Hall2 & _ & Hbig & Hrs & Hcs);
    [simpl; rewrite Hc0, Hall; reflexivity | lia |].
  rewrite Hn. unfold bind at 1, decimalInteger. rewrite Hf.
  eexists. exists l. split; [reflexivity|].
  cbn [bind modify ret Ival set_Ival ch r w ErrCnt marked].
  rewrite i32_id by (unfold in_i32; lia).
  rewrite Hm2, Hm, Hrs, Hcs. repeat split; auto; lia.
Qed.

Lemma decimal_literal_too_large_witness :
  exists s' l,
    number 16 (set_ch "2" (NewScanner "147483648;"))
    = Some (SymInt, s') /\
    marked s' = [] ++ l /\ l <> [] /\
    Forall (saying "too large") l /\
    0 <= Ival s' <= 2147483647 /\
    ch s' = ";"%char /\ r s' = "".
Proof.
  apply (decimal_literal_too_large "147483648" ";" 16
           (set_ch "2" (NewScanner "147483648;")));
    [reflexivity | reflexivity | reflexivity | reflexivity
    | simpl; lia | simpl; lia | vm_compute; reflexivity].
Defined.

Lemma strLen_append (a b : string) :
  strLen (a ++ b)%string = strLen a + strLen b.
Proof.
  unfold strLen. induction a as [|c a IH]; simpl String.length; [lia|].
  rewrite !Nat2Z.inj_succ in *. lia.
Qed.

(** The loop of [string_] up to the closing quote. *)
Lemma string_loop (rest : string) (cs : string) :
  forall (fuel : nat) (buf : string) (s : Scanner),
    eot s = false ->
    String (ch s) (r s) = (cs ++ String "034" rest)%string ->
    noQuote cs = true ->
    strLen buf + strLen (strText cs) <= 255 ->
    (String.length cs < fuel)%nat ->
    exists s',
      loop fuel (fun buf : string =>
           e <- gets eot ;; c <- gets ch ;;
           if negb e && negb (chEq c "034")
           then
             buf <- (if chLe " " c
                     then if strLen buf <? stringBufSize - 1
                          then ret (writeByte buf c)
                          else Mark "string too long" ;; ret buf
                     else ret buf) ;;
             nextCh ;;
             ret (inl buf)
           else ret (inr buf)) buf s
      = Some ((buf ++ strText cs)%string, s') /\
      r s' = rest /\ eot s' = false /\
      w s' = w s /\ ErrCnt s' = ErrCnt s /\ marked s' = marked s.
Proof.
  induction cs as [|c cs IH]; intros fuel buf s He Hr Hq Hlen Hfuel;
    (destruct fuel as [|n]; [simpl in Hfuel; lia|]);
    simpl in Hr; inversion Hr as [[Hc Hr']]; clear Hr;
    rewrite loop_S; cbv beta; unfold bind at 1, gets at 1; cbv beta iota;
    unfold bind at 1, gets at 1; cbv beta iota; rewrite He, Hc.
  - change (negb false && negb (chEq "034" "034")) with false.
    cbv iota. unfold ret. rewrite append_empty_r.
    eexists. split; [reflexivity|]. repeat split; auto.
  - simpl in Hq. apply andb_prop in Hq. destruct Hq as [Hcq Hq].
    rewrite Hcq. cbn [negb andb]. cbv iota.
    cbn [strText] in *.
    assert (Hnext : forall b : string,
              (b ++ strText cs = buf ++ (if chLe " " c
                                          then String c (strText cs)
                                          else strText cs))%string ->
              strLen b + strLen (strText cs) <= 255 ->
              exists s',
                (nextCh ;; ret (@inl string string b)) s = Some (inl b, s') /\
                eot s' = false /\
                String (ch s') (r s') = (cs ++ String "034" rest)%string /\
                w s' = w s /\ ErrCnt s' = ErrCnt s /\
                marked s' = marked s).
    { intros b _ _. unfold bind, nextCh, ret. rewrite Hr'.
      destruct cs as [|x cs']; cbn [append];
        (eexists; split; [reflexivity|]); cbn; repeat split; auto. }
    destruct (chLe " " c) eqn:Esp.
    + assert (Hb : (strLen buf <? stringBufSize - 1) = true).
      { apply Z.ltb_lt. unfold stringBufSize.
        change (strLen (String c (strText cs)))
          with (Z.of_nat (S (String.length (strText cs)))) in Hlen.
        unfold strLen in *. lia. }
      rewrite Hb. unfold bind at 1, ret at 1.
      destruct (Hnext (writeByte buf c))
        as (s1 & Hn & He1 & Hr1 & Hw1 & Hc1 & Hm1).
      { rewrite append_writeByte. reflexivity. }
      { unfold writeByte. rewrite strLen_append.
        change (strLen (String c (strText cs)))
          with (Z.of_nat (S (String.length (strText cs)))) in Hlen.
        change (strLen (String c "")) with 1.
        unfold strLen in *. lia. }
      rewrite Hn.
      destruct (IH n (writeByte buf c) s1 He1 Hr1 Hq)
        as (s' & Hl & Hrs & Hes & Hws & Hcs & Hms).
      { unfold writeByte. rewrite strLen_append.
        change (strLen (String c (strText cs)))
          with (Z.of_nat (S (String.length (strText cs)))) in Hlen.
        change (strLen (String c "")) with 1.
        unfold strLen in *. lia. }
      { simpl in Hfuel. lia. }
      exists s'. rewrite Hl, append_writeByte.
      split; [reflexivity|]. repeat split; congruence.
    + unfold bind at 1, ret at 1.
      destruct (Hnext buf) as (s1 & Hn & He1 & Hr1 & Hw1 & Hc1 & Hm1);
        [reflexivity | exact Hlen |].
      rewrite Hn.
      destruct (IH n buf s1 He1 Hr1 Hq Hlen)
        as (s' & Hl & Hrs & Hes & Hws & Hcs & Hms);
        [simpl in Hfuel; lia|].
      exists s'. rewrite Hl.
      split; [reflexivity|]. repeat split; congruence.
Qed.

(** X8: a string literal with at most 255 bytes other than control
    characters is delivered as these bytes followed by a NUL byte; the
    control characters are dropped, the closing quote is consumed and
    nothing is reported. *)
Theorem string_literal (cs rest : string) (fuel : nat) (s : Scanner) :
  r s = (cs ++ String "034" rest)%string ->
  eot s = false -> noQuote cs = true ->
  (String.length (strText cs) <= 255)%nat ->
  (String.length cs < fuel)%nat ->
  exists s',
    string_ fuel s = Some (tt, s') /\
    Str s' = (strText cs ++ String zero "")%string /\
    ch s' = nextByte rest /\ r s' = afterNext rest /\
    w s' = w s /\ ErrCnt s' = ErrCnt s /\ marked s' = marked s.
Proof.
  intros Hr He Hq Hlen Hfuel.
  unfold string_, bind at 1.
  assert (H0 : exists s0, nextCh s = Some (tt, s0) /\ eot s0 = false /\
            String (ch s0) (r s0) = (cs ++ String "034" rest)%string /\
            w s0 = w s /\ ErrCnt s0 = ErrCnt s /\ marked s0 = marked s).
  { unfold nextCh. rewrite Hr.
    destruct cs as [|x cs']; cbn [append];
      (eexists; split; [reflexivity|]); cbn; repeat split; auto. }
  destruct H0 as (s0 & Hn & He0 & Hr0 & Hw0 & Hc0 & Hm0). rewrite Hn.
  destruct (string_loop rest cs fuel "" s0 He0 Hr0 Hq)
    as (s1 & Hl & Hr1 & He1 & Hw1 & Hc1 & Hm1);
    [unfold strLen; simpl; lia | exact Hfuel |].
  unfold bind at 1. rewrite Hl. cbn [append].
  unfold bind, modify, nextCh. cbn [r set_Str]. rewrite Hr1.
  destruct rest as [|y rest']; (eexists; split; [reflexivity|]); cbn;
    repeat split; congruence.
Qed.

Lemma string_literal_witness :
  exists s',
    string_ 9 (set_ch "034" (NewScanner ("a b" ++ String "034" ";"))) = Some (tt, s') /\
    Str s' = String "a" (String " " (String "b" (String zero ""))) /\
    ch s' = ";"%char /\ r s' = "" /\ w s' = [] /\ ErrCnt s' = 0 /\
    marked s' = [].
Proof.
  apply (string_literal "a b" ";" 9
           (set_ch "034" (NewScanner ("a b" ++ String "034" ";"))));
    [reflexivity | reflexivity | reflexivity | simpl; lia | simpl; lia].
Defined.

End Literals.

(** ** The scanner: termination *)

Section Termination.
Import ors orsSpec.

Lemma toRead_eot (s : Scanner) : eot s = true -> toRead s = O.
Proof. unfold toRead. intros ->. reflexivity. Qed.

Lemma toRead_more (s : Scanner) : eot s = false -> (0 < toRead s)%nat.
Proof. unfold toRead. intros ->. lia. Qed.

Lemma advanced_refl (s : Scanner) : consistent s -> advanced s s.
Proof. intros H. split; [exact H|]. right. auto. Qed.

Lemma advanced_trans (a b c : Scanner) :
  advanced a b -> advanced b c -> advanced a c.
Proof.
  intros [_ Hab] [Hc Hbc]. split; [exact Hc|].
  destruct Hab as [Hab|(E1 & E2 & E3)], Hbc as [Hbc|(F1 & F2 & F3)].
  - left. lia.
  - left. lia.
  - left. lia.
  - right. repeat split; congruence.
Qed.

Lemma advanced_le (a b : Scanner) : advanced a b -> (toRead b <= toRead a)%nat.
Proof. intros [_ [H|(H & _)]]; lia. Qed.

Lemma advanced_consistent (a b : Scanner) : advanced a b -> consistent b.
Proof. intros [H _]. exact H. Qed.

(** Where nothing was read, the reader is at the same byte. *)
Lemma advanced_same (a b : Scanner) :
  advanced a b -> toRead b = toRead a -> ch b = ch a /\ eot b = eot a.
Proof. intros [_ [H|(_ & H1 & H2)]] E; [lia | auto]. Qed.

Lemma consistent_byte (s : Scanner) :
  consistent s -> ch s <> zero -> eot s = false.
Proof.
  intros H Hc. destruct (eot s) eqn:E; [|reflexivity].
  destruct (H E) as [_ Hz]. contradiction.
Qed.

Lemma nextCh_advances (s : Scanner) (Q : unit -> Scanner -> Prop) :
  consistent s ->
  (forall s', advanced s s' ->
              (eot s = false -> (toRead s' < toRead s)%nat) -> Q tt s') ->
  twp nextCh Q s.
Proof.
  intros Hs HQ. unfold twp, nextCh.
  destruct (r s) as [|c rest] eqn:Er; apply HQ.
  - split; [intros _; auto|]. unfold toRead. cbn [eot r ch].
    destruct (eot s) eqn:E.
    + right. destruct (Hs E) as [_ Hz]. auto.
    + left. lia.
  - intros E. unfold toRead. cbn [eot]. rewrite E. lia.
  - split.
    + intros E. cbn [eot] in E. destruct (Hs E) as [Hr _]. congruence.
    + unfold toRead. cbn [eot r ch]. rewrite Er.
      destruct (eot s) eqn:E; [|left; simpl; lia].
      destruct (Hs E) as [Hr _]. congruence.
  - intros E. unfold toRead. cbn [eot r]. rewrite E, Er. simpl. lia.
Qed.

Lemma Mark_advances (msg : string) (s : Scanner)
    (Q : unit -> Scanner -> Prop) :
  consistent s ->
  (forall s', advanced s s' -> toRead s' = toRead s -> eot s' = eot s ->
              Q tt s') ->
  twp (Mark msg) Q s.
Proof.
  intros Hs HQ. unfold twp. rewrite Mark_eq. apply HQ.
  - split; [exact Hs|]. right. auto.
  - reflexivity.
  - reflexivity.
Qed.

(** Setting a field that the reader does not use. *)
Lemma modify_advances (f : Scanner -> Scanner) (s : Scanner)
    (Q : unit -> Scanner -> Prop) :
  advanced s (f s) -> toRead (f s) = toRead s ->
  (forall s', advanced s s' -> toRead s' = toRead s -> eot s' = eot s ->
              Q tt s') ->
  twp (modify f) Q s.
Proof.
  intros H1 H2 HQ. apply twp_modify. apply HQ; try assumption.
  exact (proj2 (advanced_same _ _ H1 H2)).
Qed.

Ltac adv_facts :=
  repeat match goal with
  | H : advanced ?a ?b |- _ =>
      lazymatch goal with
      | _ : (toRead b <= toRead a)%nat |- _ => fail
      | _ => pose proof (advanced_le a b H)
      end
  end;
  repeat match goal with
  | E1 : eot ?b = eot ?a, E2 : eot ?a = ?v |- _ =>
      lazymatch goal with
      | _ : eot b = v |- _ => fail
      | _ => assert (eot b = v) by (rewrite E1; exact E2)
      end
  | E1 : eot ?b = eot ?a, E2 : eot ?b = ?v |- _ =>
      lazymatch goal with
      | _ : eot a = v |- _ => fail
      | _ => assert (eot a = v) by (rewrite <- E1; exact E2)
      end
  end;
  repeat match goal with
  | H : eot ?s = false -> _, E : eot ?s = false |- _ => specialize (H E)
  end;
  repeat match goal with
  | E : eot ?s = false |- _ =>
      lazymatch goal with
      | _ : (0 < toRead s)%nat |- _ => fail
      | _ => pose proof (toRead_more s E)
      end
  | E : eot ?s = true |- _ =>
      lazymatch goal with
      | _ : toRead s = O |- _ => fail
      | _ => pose proof (toRead_eot s E)
      end
  end.

Ltac adv_cons :=
  match goal with
  | H : consistent ?s |- consistent ?s => exact H
  | H : advanced _ ?s |- consistent ?s => exact (advanced_consistent _ _ H)
  end.

Ltac adv_chain :=
  match goal with
  | H : advanced ?a ?c |- advanced ?a ?c => exact H
  | |- advanced ?a ?a => apply advanced_refl; adv_cons
  | H : advanced ?b ?c |- advanced ?a ?c =>
      apply (advanced_trans a b c); [adv_chain | exact H]
  end.

(** At the end of the input the current byte is 0, which the tests for
    digits and letters reject. *)
Ltac end_absurd s E :=
  exfalso;
  let Hz := fresh "Hz" in
  assert (Hz : ch s = zero)
    by (assert (Hc : consistent s) by adv_cons; exact (proj2 (Hc E)));
  rewrite Hz in *;
  match goal with
  | H : context [zero] |- _ => vm_compute in H; discriminate H
  end.

Ltac adv_lt :=
  adv_facts;
  first
    [ lia
    | match goal with
      | H : eot ?s = false -> _ |- _ =>
          let E := fresh "E" in
          destruct (eot s) eqn:E;
          [ first [ solve [end_absurd s E] | clear H; adv_lt ] | adv_lt ]
      end ].

(** The current byte is not 0, by a test that byte 0 fails. *)


Ltac not_end :=
  match goal with
  | |- eot ?s = false =>
      let E := fresh "E" in
      destruct (eot s) eqn:E; [end_absurd s E | reflexivity]
  end.

Ltac adv_goal :=
  repeat match goal with
  | |- _ /\ _ => split
  | |- _ <> _ => discriminate
  | |- advanced _ _ => first [adv_chain | split; [adv_cons | left; adv_lt]]
  | |- consistent _ => adv_cons
  | |- (_ < _)%nat => adv_lt
  | |- (_ <= _)%nat => adv_lt
  | |- eot _ = false =>
      first [assumption | solve [adv_facts; assumption] | not_end]
  end.

Ltac fin_step :=
  match goal with
  | |- twp (bind _ _) _ _ => apply twp_bind
  | |- twp (ret _) _ _ => apply twp_ret
  | |- twp (gets _) _ _ => apply twp_gets
  | |- twp nextCh _ _ =>
      apply nextCh_advances; [adv_cons | intros ? ? ?]
  | |- twp (Mark _) _ _ =>
      apply Mark_advances; [adv_cons | intros ? ? ? ?]
  | |- twp (modify (set_ch _)) _ _ => fail 1
  | |- twp (modify _) _ ?s =>
      apply modify_advances;
      [ exact (advanced_refl s ltac:(adv_cons)) | reflexivity
      | intros ? ? ? ? ]
  | |- twp (when _ _) _ _ => unfold when
  | |- twp (if ?b then _ else _) _ _ =>
      match b with
      | context [eot ?s] =>
          destruct (eot s) eqn:?; cbn [negb andb orb]
      | _ => destruct b eqn:?
      end
  end.

Ltac fin := repeat fin_step.

Lemma keyword_not_eot (id : Ident) (sym : Sym) :
  lookup keyTab id = Some sym -> sym <> SymEot.
Proof.
  unfold keyTab. cbn [lookup].
  repeat match goal with
  | |- context [if ?b then _ else _] => destruct b
  end; intros H; inversion H; discriminate.
Qed.

Lemma identifier_advances (fuel : nat) (s : Scanner)
    (Q : Sym -> Scanner -> Prop) :
  consistent s -> eot s = false -> (toRead s < fuel)%nat ->
  (forall sym s', advanced s s' -> (toRead s' < toRead s)%nat ->
                  sym <> SymEot -> Q sym s') ->
  twp (identifier fuel) Q s.
Proof.
  intros Hs He Hf HQ. unfold identifier. apply twp_bind.
  eapply twp_mono.
  - apply twp_loop
      with (V := toRead)
           (Inv := fun (_ : string) s1 => advanced s s1 /\ eot s1 = false)
           (Q := fun (_ : string) s1 =>
                   advanced s s1 /\ (toRead s1 < toRead s)%nat);
      [| split; [apply advanced_refl; exact Hs | exact He] | exact Hf].
    intros buf s1 [H1 E1]. unfold identifierBody. fin; adv_goal.
  - intros buf s1 [H1 H2]. fin.
    destruct (lookup keyTab buf) as [kw|] eqn:E; fin; apply HQ; adv_goal.
    exact (keyword_not_eot _ _ E).
Qed.

(** A loop of the scanner from state [s0]: every pass that continues has
    read a byte. *)
Ltac fin_loop s0 :=
  eapply twp_mono;
  [ apply twp_loop
      with (V := toRead) (Inv := fun _ s1 => advanced s0 s1)
           (Q := fun _ s1 => advanced s0 s1);
    [ intros ? ? ?; cbv beta in * | adv_goal | adv_lt ]
  | intros ? ? ?; cbv beta in * ].

Lemma string_advances (fuel : nat) (s : Scanner)
    (Q : unit -> Scanner -> Prop) :
  consistent s -> eot s = false -> (toRead s < fuel)%nat ->
  (forall s', advanced s s' -> (toRead s' < toRead s)%nat -> Q tt s') ->
  twp (string_ fuel) Q s.
Proof.
  intros Hs He Hf HQ. unfold string_. fin.
  match goal with |- twp (loop _ _ _) _ ?s0 => fin_loop s0 end.
  - fin; adv_goal.
  - fin. apply HQ; adv_goal.
Qed.

Lemma hexDigit_advances (s : Scanner) (Q : Z -> Scanner -> Prop) :
  consistent s ->
  (forall v s', advanced s s' -> toRead s' = toRead s -> eot s' = eot s ->
                Q v s') ->
  twp hexDigit Q s.
Proof.
  intros Hs HQ. unfold hexDigit. fin; apply HQ; adv_goal; auto.
Qed.

Lemma hexString_advances (fuel : nat) (s : Scanner)
    (Q : unit -> Scanner -> Prop) :
  consistent s -> eot s = false -> (toRead s < fuel)%nat ->
  (forall s', advanced s s' -> (toRead s' < toRead s)%nat -> Q tt s') ->
  twp (hexString fuel) Q s.
Proof.
  intros Hs He Hf HQ. unfold hexString. fin.
  match goal with |- twp (loop _ _ _) _ ?s0 => fin_loop s0 end.
  - fin; try solve [adv_goal].
    match goal with |- twp (loop _ _ _) _ ?s0 => fin_loop s0 end.
    + fin; adv_goal.
    + repeat first
        [ fin_step
        | apply hexDigit_advances; [adv_cons | intros ? ? ? ? ?] ];
        adv_goal.
  - fin. apply HQ; adv_goal.
Qed.

(** A loop that tests at its end: it is entered before the end of the
    input, and every pass reads a byte. *)
Ltac fin_do s0 :=
  eapply twp_mono;
  [ apply twp_loop
      with (V := toRead)
           (Inv := fun _ s1 => advanced s0 s1 /\ eot s1 = false)
           (Q := fun _ s1 => advanced s0 s1 /\ (toRead s1 < toRead s0)%nat);
    [ intros ? ? [? ?]; cbv beta in * | adv_goal | adv_lt ]
  | intros ? ? [? ?]; cbv beta in * ].

Lemma decimalInteger_advances (digits : list Z) (s : Scanner)
    (Q : Z -> Scanner -> Prop) :
  consistent s ->
  (forall v s', advanced s s' -> toRead s' = toRead s -> eot s' = eot s ->
                Q v s') ->
  twp (decimalInteger digits) Q s.
Proof.
  intros Hs HQ. unfold decimalInteger. eapply twp_mono.
  - apply twp_forRange
      with (Inv := fun (_ : Z) s1 =>
                     advanced s s1 /\ toRead s1 = toRead s /\ eot s1 = eot s);
      [| split; [apply advanced_refl; exact Hs | auto]].
    intros d k s1 (H1 & H2 & H3). fin; adv_goal; congruence.
  - intros v s' (H1 & H2 & H3). apply HQ; assumption.
Qed.

Lemma set_ch_advances (c : ascii) (s0 s : Scanner)
    (Q : unit -> Scanner -> Prop) :
  advanced s0 s -> (toRead s < toRead s0)%nat -> eot s = false ->
  (forall s', advanced s0 s' -> (toRead s' < toRead s0)%nat ->
              eot s' = false -> Q tt s') ->
  twp (modify (set_ch c)) Q s.
Proof.
  intros H1 H2 H3 HQ. apply twp_modify. apply HQ.
  - split; [|left; exact H2]. intros E. cbn [eot set_ch] in E. congruence.
  - exact H2.
  - exact H3.
Qed.

(** The last step: the postcondition of the caller. *)
Ltac fin_end HQ :=
  match goal with
  | |- ?Q0 _ _ => is_var Q0; apply HQ; adv_goal
  end.

Ltac fin_more s HQ :=
  repeat first
    [ fin_step
    | match goal with
      | |- twp (let (_, _) := ?p in _) _ _ => destruct p
      | |- twp (decimalInteger _) _ _ =>
          apply decimalInteger_advances; [adv_cons | intros ? ? ? ? ?]
      | |- twp (modify (set_ch _)) _ _ =>
          apply (set_ch_advances _ s); [adv_goal | adv_lt | adv_goal
                                       | intros ? ? ? ?]
      end
    | fin_end HQ ].

Lemma number_advances (fuel : nat) (s : Scanner)
    (Q : Sym -> Scanner -> Prop) :
  consistent s -> eot s = false -> (toRead s < fuel)%nat ->
  (forall sym s', advanced s s' -> (toRead s' < toRead s)%nat ->
                  sym <> SymEot -> Q sym s') ->
  twp (number fuel) Q s.
Proof.
  intros Hs He Hf HQ. unfold number. fin.
  match goal with |- twp (loop _ _ _) _ ?s0 => fin_do s0 end.
  - unfold digitsBody. fin; adv_goal.
  - fin_more s HQ.
    (* fraction *)
    match goal with |- twp (loop _ _ _) _ ?s0 => fin_loop s0 end.
    + fin_more s HQ; adv_goal.
    + fin_more s HQ.
      all: match goal with |- twp (loop _ _ _) _ ?s0 => fin_do s0 end.
      all: fin_more s HQ; adv_goal.
Qed.

(** A test that has been decided. *)
Ltac by_tests :=
  repeat match goal with
  | H : ?x = _ |- context [?x] => rewrite H
  end; reflexivity.

Lemma comment_advances (fuel : nat) :
  forall (s : Scanner) (Q : unit -> Scanner -> Prop),
    consistent s -> (toRead s < fuel)%nat ->
    (forall s', advanced s s' -> Q tt s') ->
    twp (comment fuel) Q s.
Proof.
  induction fuel as [|n IH]; intros s Q Hs Hf HQ; [lia|].
  cbn [comment]. fin.
  match goal with
  | |- twp (loop _ _ _) _ ?s0 =>
      eapply twp_mono;
      [ apply twp_loop
          with (V := toRead) (Inv := fun _ s1 => advanced s0 s1)
               (Q := fun _ s1 => advanced s0 s1);
        [ intros ? s1 ?; cbv beta in * | adv_goal | adv_lt ]
      | intros ? ? ?; cbv beta in * ]
  end.
  - (* one pass: up to an asterisk, over the asterisks, then the test *)
    apply twp_bind. eapply twp_mono.
    { apply twp_loop
        with (V := toRead) (Inv := fun _ s2 => advanced s1 s2)
             (Q := fun _ s2 =>
                     advanced s1 s2 /\
                     negb (eot s2) && negb (chEq (ch s2) "*") = false);
        [ intros ? ? ?; cbv beta in * | adv_goal | adv_lt ].
      repeat first
        [ fin_step
        | match goal with
          | |- twp (comment n) _ _ =>
              apply IH; [adv_cons | adv_lt | intros ? ?]
          end ];
        adv_goal; by_tests. }
    intros ? sa [Ha Hxa]. apply twp_bind. eapply twp_mono.
    { apply twp_loop
        with (V := toRead) (Inv := fun _ s2 => advanced sa s2)
             (Q := fun _ s2 =>
                     advanced sa s2 /\ chEq (ch s2) "*" = false);
        [ intros ? ? ?; cbv beta in * | adv_goal | adv_lt ].
      fin; adv_goal; try by_tests. }
    intros ? sb [Hb Hxb]. fin; adv_goal.
    (* the pass has read a byte: otherwise the byte that ended the first
       loop would have ended the second *)
    pose proof (advanced_le _ _ Ha) as La.
    pose proof (advanced_le _ _ Hb) as Lb.
    destruct (Nat.eq_dec (toRead sb) (toRead s1)) as [E|E]; [exfalso | lia].
    destruct (advanced_same _ _ Hb ltac:(lia)) as [Ec Ee].
    rewrite <- Ec, <- Ee in Hxa.
    match goal with
    | H : eot sb = false |- _ => rewrite H in Hxa
    end.
    rewrite Hxb in Hxa. discriminate Hxa.
  - fin; apply HQ; adv_goal.
Qed.

Lemma Sym_eqb_eq (a b : Sym) : Sym_eqb a b = true -> a = b.
Proof. destruct a, b; simpl; intros H; (reflexivity || discriminate H). Qed.

Lemma Sym_eqb_neq (a b : Sym) : Sym_eqb a b = false -> a <> b.
Proof. intros H ->. destruct b; discriminate H. Qed.

(** One pass of [Get]: a symbol other than [SymEot] has read a byte, and
    [SymEot] is delivered at the end of the input only. *)
Lemma Get1_advances (fuel : nat) (s : Scanner)
    (Q : Sym -> Scanner -> Prop) :
  consistent s -> (toRead s < fuel)%nat ->
  (forall sym s', advanced s s' ->
                  (sym <> SymEot -> (toRead s' < toRead s)%nat) ->
                  (sym = SymEot -> eot s' = true) -> Q sym s') ->
  twp (Get1 fuel) Q s.
Proof.
  intros Hs Hf HQ. unfold Get1. apply twp_bind.
  match goal with |- twp (loop _ _ _) _ ?s0 => fin_loop s0 end.
  - fin; adv_goal.
  - repeat first
      [ fin_step
      | match goal with
        | |- twp (let _ := _ in _) _ _ => cbv zeta
        | |- twp (identifier _) _ _ =>
            apply identifier_advances;
            [adv_cons | adv_goal | adv_lt | intros ? ? ? ? ?]
        | |- twp (number _) _ _ =>
            apply number_advances;
            [adv_cons | adv_goal | adv_lt | intros ? ? ? ? ?]
        | |- twp (string_ _) _ _ =>
            apply string_advances;
            [adv_cons | adv_goal | adv_lt | intros ? ? ?]
        | |- twp (hexString _) _ _ =>
            apply hexString_advances;
            [adv_cons | adv_goal | adv_lt | intros ? ? ?]
        | |- twp (comment _) _ _ =>
            apply comment_advances; [adv_cons | adv_lt | intros ? ?]
        end ].
    all: apply HQ;
      [ adv_goal
      | intros Hne; first [adv_lt | exfalso; apply Hne; reflexivity]
      | intros Heq;
        first
          [ assumption | discriminate Heq | contradiction
          | repeat match type of Heq with
            | context [if ?b then _ else _] => destruct b
            end; discriminate Heq ] ].
Qed.

(** [Get] returns: it delivers a symbol other than [symNull]; a symbol
    other than [SymEot] has read a byte, and [SymEot] is delivered at the
    end of the input only. *)
Lemma Get_advances (fuel : nat) (s : Scanner)
    (Q : Sym -> Scanner -> Prop) :
  consistent s -> (toRead s < fuel)%nat ->
  (forall sym s', advanced s s' -> sym <> symNull ->
                  (sym <> SymEot -> (toRead s' < toRead s)%nat) ->
                  (sym = SymEot -> eot s' = true) -> Q sym s') ->
  twp (Get fuel) Q s.
Proof.
  intros Hs Hf HQ. unfold Get. eapply twp_mono.
  - apply twp_loop
      with (V := toRead) (Inv := fun (_ : unit) s1 => advanced s s1)
           (Q := fun (sym : Sym) s1 =>
                   advanced s s1 /\ sym <> symNull /\
                   (sym <> SymEot -> (toRead s1 < toRead s)%nat) /\
                   (sym = SymEot -> eot s1 = true));
      [| apply advanced_refl; exact Hs | exact Hf].
    intros u s1 H1. apply twp_bind.
    apply Get1_advances; [adv_cons | adv_lt |].
    intros sym s2 H2 Hlt Heot.
    destruct (Sym_eqb sym symNull) eqn:E; apply twp_ret.
    + apply Sym_eqb_eq in E. subst sym.
      split; [adv_chain|]. apply Hlt. discriminate.
    + apply Sym_eqb_neq in E.
      split; [adv_chain|]. split; [exact E|]. split; [|exact Heot].
      intros Hne. specialize (Hlt Hne). adv_lt.
  - intros sym s' (H1 & H2 & H3 & H4). apply HQ; assumption.
Qed.

(** X9: [Get] returns when the fuel exceeds what is left to read. *)
Theorem Get_returns (fuel : nat) (s : Scanner) :
  consistent s -> (toRead s < fuel)%nat ->
  exists sym s',
    Get fuel s = Some (sym, s') /\ sym <> symNull /\
    consistent s' /\ (toRead s' <= toRead s)%nat /\
    (sym <> SymEot -> (toRead s' < toRead s)%nat) /\
    (sym = SymEot -> eot s' = true).
Proof.
  intros Hs Hf.
  apply (twp_elim (Get fuel)
           (fun (sym : Sym) s' => sym <> symNull /\ consistent s' /\
              (toRead s' <= toRead s)%nat /\
              (sym <> SymEot -> (toRead s' < toRead s)%nat) /\
              (sym = SymEot -> eot s' = true))).
  apply Get_advances; [exact Hs | exact Hf |].
  intros sym s' H1 H2 H3 H4.
  split; [exact H2|]. split; [exact (advanced_consistent _ _ H1)|].
  split; [exact (advanced_le _ _ H1)|]. split; assumption.
Qed.

Lemma Get_returns_witness :
  exists sym s',
    Get 9 (NewScanner "x := 1") = Some (sym, s') /\ sym <> symNull /\
    consistent s' /\ (toRead s' <= toRead (NewScanner "x := 1"))%nat /\
    (sym <> SymEot -> (toRead s' < toRead (NewScanner "x := 1"))%nat) /\
    (sym = SymEot -> eot s' = true).
Proof.
  apply (Get_returns 9 (NewScanner "x := 1")).
  - intros E. discriminate E.
  - vm_compute. lia.
Defined.

(** X10: scanning terminates on every input: with the default fuel,
    [scanText] reaches the end of the input, and neither [symNull] nor
    [SymEot] is among the symbols it collects. *)
Theorem scanText_total (input : string) :
  exists toks s,
    scanText input = Some (toks, s) /\ eot s = true /\
    ~ In symNull toks /\ ~ In SymEot toks.
Proof.
  unfold scanText, scan.
  set (s0 := NewScanner input).
  assert (Hs : consistent s0) by (intros E; discriminate E).
  assert (Hf : (toRead s0 < fuelFor input)%nat)
    by (unfold toRead, fuelFor, s0; simpl; lia).
  apply (twp_elim _ (fun (toks : list Sym) s => eot s = true /\ ~ In symNull toks /\
                                   ~ In SymEot toks)).
  eapply twp_mono.
  - apply twp_loop
      with (V := toRead)
           (Inv := fun (acc : list Sym) s1 => advanced s0 s1 /\ ~ In symNull acc /\
                                 ~ In SymEot acc)
           (Q := fun (toks : list Sym) s => eot s = true /\ ~ In symNull toks /\
                               ~ In SymEot toks);
      [| split; [apply advanced_refl; exact Hs | split; intros []]
       | exact Hf].
    intros acc s1 (H1 & N1 & N2). apply twp_bind.
    apply Get_advances; [adv_cons | adv_lt |].
    intros sym s2 H2 Hnull Hlt Heot.
    destruct (Sym_eqb sym SymEot) eqn:E; apply twp_ret.
    + apply Sym_eqb_eq in E. auto.
    + apply Sym_eqb_neq in E. split; [split; [adv_chain|]|exact (Hlt E)].
      split; intros Hin; apply in_app_or in Hin;
        destruct Hin as [Hin|[Hin|[]]]; auto.
  - intros toks s H. exact H.
Qed.
End Termination.

(** ** The symbol table: declaring and finding objects *)

Section Scopes.
Import orb orbSpec.

Lemma objAt_eq (s : State) (i : nat) (o : Obj.t) :
  nth_error (objs (base s)) i = Some o -> objAt (Some i) s = Some (o, s).
Proof. intros H. unfold objAt, bind, gets, must. rewrite H. reflexivity. Qed.

Lemma isChain_cons (objs : list Obj.t) (p : ptr) (i : nat) (l : list nat) :
  isChain objs p (i :: l) = true ->
  p = Some i /\
  exists o, nth_error objs i = Some o /\ isChain objs (Obj.Next o) l = true.
Proof.
  simpl. destruct p as [j|]; [|discriminate].
  intros H. apply andb_prop in H. destruct H as [E H].
  apply Nat.eqb_eq in E. subst j. split; [reflexivity|].
  destruct (nth_error objs i) as [o|]; [|discriminate].
  exists o. auto.
Qed.

Lemma isChain_nil (objs : list Obj.t) (p : ptr) :
  isChain objs p [] = true -> p = None.
Proof. destruct p; [discriminate | reflexivity]. Qed.

(** The loop that [ThisObj], [ThisImport] and [ThisField] share finds the
    first object with the name. *)
Lemma findName_named (id : ors.Ident) (s : State) (l : list nat) :
  forall (fuel : nat) (p : ptr),
    isChain (objs (base s)) p l = true ->
    (List.length (before (objs (base s)) id l) < fuel)%nat ->
    findName fuel id p s = Some (named (objs (base s)) id l, s).
Proof.
  unfold findName.
  induction l as [|i l IH]; intros fuel p Hc Hf;
    (destruct fuel as [|n]; [simpl in Hf; lia|]); rewrite loop_S.
  - apply isChain_nil in Hc. subst p. reflexivity.
  - apply isChain_cons in Hc. destruct Hc as (-> & o & Ho & Hc).
    unfold bind at 1. rewrite (objAt_eq s i o Ho).
    cbn [named before] in *. unfold nameIs in *. rewrite Ho in *.
    destruct (String.eqb (Obj.Name o) id); cbn [negb]; unfold ret.
    + reflexivity.
    + apply IH; [exact Hc | simpl in Hf; lia].
Qed.

Lemma before_length (objs : list Obj.t) (id : ors.Ident) (l : list nat) :
  (List.length (before objs id l) <= List.length l)%nat.
Proof.
  induction l as [|i l IH]; simpl; [lia|].
  destruct (nameIs objs id i); simpl; lia.
Qed.

Lemma ThisObj_loop (fuel : nat) (s : State) (ss : list (nat * list nat)) :
  forall (n : nat) (p : ptr),
    isScopes (objs (base s)) p ss = true -> ss <> [] ->
    forallb (fun hl => Nat.ltb (List.length (snd hl)) fuel) ss = true ->
    (List.length ss <= n)%nat ->
    loop n (fun s_ : ptr =>
      so <- objAt s_ ;;
      id <- gets (fun s => ors.Id (sc s)) ;;
      x <- findName fuel id (Obj.Next so) ;;
      let s_ := Obj.Dsc so in
      match x, s_ with
      | None, Some _ => ret (inl s_)
      | _, _ => ret (inr x)
      end) p s
    = Some (lookupIn (objs (base s)) (ors.Id (sc s)) ss, s).
Proof.
  induction ss as [|[h l] ss IH]; intros n p Hs Hne Hf Hn; [congruence|].
  destruct n as [|n]; [simpl in Hn; lia|]. rewrite loop_S.
  cbn [isScopes] in Hs. destruct p as [j|]; [|discriminate].
  apply andb_prop in Hs. destruct Hs as [E Hs].
  apply Nat.eqb_eq in E. subst j.
  destruct (nth_error (objs (base s)) h) as [oh|] eqn:Eh; [|discriminate].
  apply andb_prop in Hs. destruct Hs as [Hc Hs].
  cbn [forallb snd] in Hf. apply andb_prop in Hf. destruct Hf as [Hl Hf].
  apply Nat.ltb_lt in Hl.
  unfold bind at 1. rewrite (objAt_eq s h oh Eh).
  unfold bind at 1, gets at 1. unfold bind at 1.
  rewrite (findName_named _ s l)
    by (try exact Hc; pose proof (before_length (objs (base s))
                                    (ors.Id (sc s)) l); lia).
  cbn [lookupIn].
  destruct (named (objs (base s)) (ors.Id (sc s)) l) as [i|];
    [destruct (Obj.Dsc oh); reflexivity|].
  destruct (Obj.Dsc oh) as [d|] eqn:Ed.
  - unfold ret. apply IH; [exact Hs | | exact Hf | simpl in Hn; lia].
    intros ->. discriminate Hs.
  - destruct ss as [|[h' l'] ss']; [reflexivity | discriminate Hs].
Qed.

(** X11: [ThisObj] delivers the first object with the scanner's identifier
    in the innermost scope that has one, and nil when no scope has one;
    the table is left as it is. *)
Theorem ThisObj_lookup (fuel : nat) (s : State)
    (ss : list (nat * list nat)) :
  isScopes (objs (base s)) (TopScope (base s)) ss = true -> ss <> [] ->
  forallb (fun hl => Nat.ltb (List.length (snd hl)) fuel) ss = true ->
  (List.length ss <= fuel)%nat ->
  ThisObj fuel s
  = Some (lookupIn (objs (base s)) (ors.Id (sc s)) ss, s).
Proof.
  intros Hs Hne Hf Hn. unfold ThisObj, bind at 1, gets at 1.
  apply ThisObj_loop; assumption.
Qed.

Lemma isChain_functional (objs : list Obj.t) (l1 : list nat) :
  forall (l2 : list nat) (p : ptr),
    isChain objs p l1 = true -> isChain objs p l2 = true -> l1 = l2.
Proof.
  induction l1 as [|i l1 IH]; intros l2 p H1 H2.
  - apply isChain_nil in H1. subst p.
    destruct l2; [reflexivity | discriminate H2].
  - apply isChain_cons in H1. destruct H1 as (-> & o & Ho & H1).
    destruct l2 as [|j l2]; [discriminate H2|].
    apply isChain_cons in H2. destruct H2 as (E & o' & Ho' & H2).
    inversion E; subst j. rewrite Ho in Ho'. inversion Ho'; subst o'.
    f_equal. exact (IH l2 _ H1 H2).
Qed.

Lemma isChain_suffix (objs : list Obj.t) (a : list nat) :
  forall (p : ptr) (i : nat) (b : list nat),
    isChain objs p (a ++ i :: b) = true ->
    isChain objs (Some i) (i :: b) = true.
Proof.
  induction a as [|j a IH]; intros p i b H.
  - simpl app in H. destruct (isChain_cons _ _ _ _ H) as (-> & _).
    exact H.
  - simpl app in H. apply isChain_cons in H.
    destruct H as (_ & o & _ & H). exact (IH _ _ _ H).
Qed.

(** A chain that ends visits no object twice. *)
Lemma isChain_NoDup (objs : list Obj.t) (l : list nat) :
  forall p : ptr, isChain objs p l = true -> NoDup l.
Proof.
  induction l as [|i l IH]; intros p H; [constructor|].
  pose proof H as H0.
  apply isChain_cons in H. destruct H as (-> & o & Ho & H).
  constructor; [|exact (IH _ H)].
  intros Hin. apply in_split in Hin. destruct Hin as (a & b & E).
  rewrite E in H. apply isChain_suffix in H.
  pose proof (isChain_functional _ _ _ _ H H0) as E2.
  inversion E2 as [E3]. rewrite E3 in E.
  apply (f_equal (@List.length nat)) in E.
  rewrite length_app in E. simpl in E. lia.
Qed.

Lemma isChain_bound (objs : list Obj.t) (l : list nat) :
  forall p : ptr,
    isChain objs p l = true ->
    forall i, In i l -> (i < List.length objs)%nat.
Proof.
  induction l as [|j l IH]; intros p H i Hin; [contradiction|].
  apply isChain_cons in H. destruct H as (-> & o & Ho & H).
  destruct Hin as [<-|Hin]; [|exact (IH _ H i Hin)].
  apply nth_error_Some. congruence.
Qed.

Lemma before_none (objs : list Obj.t) (id : ors.Ident) (l : list nat) :
  named objs id l = None -> before objs id l = l.
Proof.
  induction l as [|i l IH]; simpl; [reflexivity|].
  destruct (nameIs objs id i); [discriminate|].
  intros H. rewrite IH by exact H. reflexivity.
Qed.

(** The loop of [NewObj] stops at the object before the first one with
    the name, or at the last object. *)
Lemma NewObj_loop (id : ors.Ident) (s : State) (l : list nat) :
  forall (fuel x : nat),
    isChain (objs (base s)) (Some x) (x :: l) = true ->
    (List.length (before (objs (base s)) id l) < fuel)%nat ->
    loop fuel (fun x : ptr =>
         o <- objAt x ;;
         match Obj.Next o with
         | Some _ =>
             n <- objAt (Obj.Next o) ;;
             if negb (String.eqb (Obj.Name n) id)
             then ret (inl (Obj.Next o)) else ret (inr x)
         | None => ret (inr x)
         end) (Some x) s
    = Some (Some (last (before (objs (base s)) id l) x), s) /\
    exists o,
      nth_error (objs (base s)) (last (before (objs (base s)) id l) x)
      = Some o /\
      Obj.Next o = named (objs (base s)) id l.
Proof.
  induction l as [|i l IH]; intros fuel x Hc Hf;
    (destruct fuel as [|n]; [simpl in Hf; lia|]); rewrite loop_S;
    apply isChain_cons in Hc; destruct Hc as (_ & o & Ho & Hc);
    unfold bind at 1; rewrite (objAt_eq s x o Ho).
  - apply isChain_nil in Hc. rewrite Hc. cbn [before last named].
    split; [reflexivity|]. exists o. auto.
  - pose proof Hc as Hc0.
    apply isChain_cons in Hc. destruct Hc as (E & oi & Hoi & Hc).
    rewrite E. unfold bind at 1. rewrite (objAt_eq s i oi Hoi).
    cbn [before named] in *. unfold nameIs in *. rewrite Hoi in *.
    destruct (String.eqb (Obj.Name oi) id); cbn [negb]; rewrite ret_eq.
    + cbn [last]. split; [reflexivity|]. exists o. auto.
    + rewrite E in Hc0.
      destruct (IH n i Hc0 ltac:(simpl in Hf; lia)) as (Hl & o' & Ho' & Hn).
      rewrite Hl, last_cons. split; [reflexivity|].
      exists o'. auto.
Qed.

Lemma last_In (l : list nat) : forall a : nat, In (last l a) (a :: l).
Proof.
  induction l as [|b l IH]; intros a; [left; reflexivity|].
  rewrite last_cons. right. apply IH.
Qed.

(** Linking a new object behind the last one extends the chain. *)
Lemma isChain_extend (objs objs' : list Obj.t) (n xlast : nat)
    (olast new : Obj.t) (l : list nat) :
  forall x : nat,
    isChain objs (Some x) (x :: l) = true ->
    last l x = xlast ->
    (forall j, In j (x :: l) -> j <> xlast ->
               nth_error objs' j = nth_error objs j) ->
    nth_error objs' xlast = Some (Obj.set_Next (Some n) olast) ->
    nth_error objs' n = Some new -> Obj.Next new = None ->
    isChain objs' (Some x) (x :: l ++ [n]) = true.
Proof.
  induction l as [|i l IH]; intros x Hc Hl Hsame Hlast Hn Hnew.
  - simpl in Hl. subst xlast. cbn [app isChain].
    rewrite !Nat.eqb_refl, Hlast. cbn [Obj.Next Obj.set_Next andb].
    rewrite Nat.eqb_refl, Hn, Hnew. reflexivity.
  - pose proof (isChain_NoDup _ _ _ Hc) as Hnd.
    rewrite last_cons in Hl.
    assert (Hx : x <> xlast).
    { intros ->. inversion Hnd as [|? ? Hnin _]; subst.
      apply Hnin. apply last_In. }
    apply isChain_cons in Hc. destruct Hc as (_ & o & Ho & Hc).
    pose proof Hc as Hc0.
    apply isChain_cons in Hc. destruct Hc as (E & _).
    change (isChain objs' (Some x) (x :: (i :: l) ++ [n]))
      with (Nat.eqb x x &&
            match nth_error objs' x with
            | Some o => isChain objs' (Obj.Next o) (i :: l ++ [n])
            | None => false
            end).
    rewrite Nat.eqb_refl, (Hsame x (or_introl eq_refl) Hx), Ho, E.
    cbn [andb]. rewrite E in Hc0.
    apply (IH i Hc0 Hl); try assumption.
    intros j Hj. apply Hsame. right. exact Hj.
Qed.

Lemma named_same (objs objs' : list Obj.t) (id : ors.Ident) (l : list nat) :
  (forall j, In j l -> nameIs objs' id j = nameIs objs id j) ->
  named objs' id l = named objs id l.
Proof.
  induction l as [|i l IH]; intros H; [reflexivity|].
  cbn [named]. rewrite (H i (or_introl eq_refl)), IH; [reflexivity|].
  intros j Hj. apply H. right. exact Hj.
Qed.

Lemma named_app_none (objs : list Obj.t) (id : ors.Ident) (l : list nat)
    (n : nat) :
  named objs id l = None -> nameIs objs id n = true ->
  named objs id (l ++ [n]) = Some n.
Proof.
  induction l as [|i l IH]; cbn [app named]; intros H Hn.
  - rewrite Hn. reflexivity.
  - destruct (nameIs objs id i); [discriminate|]. exact (IH H Hn).
Qed.

(** [NewObj] with a name that the top scope does not have: the new
    object is linked behind the last one, the others are as they were. *)
Lemma NewObj_appends (fuel : nat) (id : ors.Ident) (class : Z) (s : State)
    (h : nat) (l : list nat) :
  TopScope (base s) = Some h ->
  isChain (objs (base s)) (Some h) (h :: l) = true ->
  named (objs (base s)) id l = None ->
  (List.length l < fuel)%nat ->
  exists s',
    NewObj fuel id class s
    = Some (Some (List.length (objs (base s))), s') /\
    sc s' = sc s /\ buf s' = buf s /\ fs s' = fs s /\
    TopScope (base s') = Some h /\
    isChain (objs (base s')) (Some h)
      (h :: l ++ [List.length (objs (base s))]) = true /\
    nth_error (objs (base s')) (List.length (objs (base s)))
    = Some (Obj.mk class 0 false false 0 None None None id EmptyString 0) /\
    named (objs (base s')) id (l ++ [List.length (objs (base s))])
    = Some (List.length (objs (base s))) /\
    (forall j o, nth_error (objs (base s)) j = Some o ->
                 j <> last l h ->
                 nth_error (objs (base s')) j = Some o) /\
    (forall o, nth_error (objs (base s)) (last l h) = Some o ->
               nth_error (objs (base s')) (last l h)
               = Some (Obj.set_Next (Some (List.length (objs (base s)))) o))
    /\ types (base s') = types (base s).
Proof.
  intros Htop Hc Hnone Hf.
  set (n := List.length (objs (base s))).
  set (new := Obj.mk class 0 false false 0 None None None id EmptyString 0).
  destruct (NewObj_loop id s l fuel h Hc) as (Hl & o & Ho & Hnext);
    [rewrite before_none by exact Hnone; exact Hf|].
  rewrite before_none in Hl, Ho by exact Hnone.
  rewrite Hnone in Hnext.
  set (x := last l h) in *.
  assert (Hxn : (x < n)%nat).
  { apply (isChain_bound _ _ _ Hc). apply last_In. }
  unfold NewObj, bind at 1, gets at 1. rewrite Htop.
  unfold bind at 1. rewrite Hl.
  unfold bind at 1. rewrite (objAt_eq s x o Ho), Hnext.
  unfold bind at 1, zoom at 1, newObject. fold n. fold new.
  unfold bind at 1, setObj, zoom, updObj.
  cbn [base set_base objs set_objs].
  rewrite nth_error_app1 by exact Hxn. rewrite Ho.
  eexists. split; [reflexivity|].
  cbn [sc buf fs base set_base objs set_objs TopScope].
  split; [reflexivity|]. split; [reflexivity|]. split; [reflexivity|].
  split; [exact Htop|].
  set (objs' := setNth (objs (base s) ++ [new]) x
                  (Obj.set_Next (Some n) o)).
  assert (Hsame : forall j, (j < n)%nat -> j <> x ->
            nth_error objs' j = nth_error (objs (base s)) j).
  { intros j Hj Hne. unfold objs'.
    rewrite nth_error_setNth_ne by congruence.
    apply nth_error_app1. exact Hj. }
  assert (Hlast : nth_error objs' x = Some (Obj.set_Next (Some n) o)).
  { apply nth_error_setNth_eq. rewrite length_app. simpl. fold n. lia. }
  assert (Hnew : nth_error objs' n = Some new).
  { unfold objs'. rewrite nth_error_setNth_ne by lia.
    rewrite nth_error_app2 by (fold n; lia). fold n.
    rewrite Nat.sub_diag. reflexivity. }
  split.
  { apply (isChain_extend (objs (base s)) objs' n x o new l h Hc eq_refl);
      try assumption; [|reflexivity].
    intros j Hj Hne. apply Hsame; [|exact Hne].
    exact (isChain_bound _ _ _ Hc j Hj). }
  split; [exact Hnew|].
  split.
  { apply named_app_none.
    - rewrite <- Hnone. apply named_same. intros j Hj.
      assert (Hjn : (j < n)%nat)
        by (apply (isChain_bound _ _ _ Hc); right; exact Hj).
      unfold nameIs. destruct (Nat.eq_dec j x) as [->|Hne].
      + rewrite Hlast, Ho. reflexivity.
      + rewrite Hsame by assumption. reflexivity.
    - unfold nameIs. rewrite Hnew. apply String.eqb_refl. }
  split.
  { intros j oj Hj Hne. rewrite Hsame; [exact Hj | | exact Hne].
    apply nth_error_Some. congruence. }
  split; [|reflexivity].
  intros o' Ho'. rewrite Hlast. congruence.
Qed.

(** X12: [NewObj] with a name that the top scope does not have appends a
    new object of that name and class to the scope and reports
    nothing. *)
Theorem NewObj_fresh (fuel : nat) (id : ors.Ident) (class : Z) (s : State)
    (h : nat) (l : list nat) :
  TopScope (base s) = Some h ->
  isChain (objs (base s)) (Some h) (h :: l) = true ->
  named (objs (base s)) id l = None ->
  (List.length l < fuel)%nat ->
  exists s',
    NewObj fuel id class s
    = Some (Some (List.length (objs (base s))), s') /\
    sc s' = sc s /\ buf s' = buf s /\ fs s' = fs s /\
    TopScope (base s') = Some h /\
    isChain (objs (base s')) (Some h)
      (h :: l ++ [List.length (objs (base s))]) = true /\
    nth_error (objs (base s')) (List.length (objs (base s)))
    = Some (Obj.mk class 0 false false 0 None None None id EmptyString 0) /\
    named (objs (base s')) id (l ++ [List.length (objs (base s))])
    = Some (List.length (objs (base s))) /\
    (forall j o, nth_error (objs (base s)) j = Some o ->
                 j <> last l h ->
                 nth_error (objs (base s')) j = Some o) /\
    (forall o, nth_error (objs (base s)) (last l h) = Some o ->
               nth_error (objs (base s')) (last l h)
               = Some (Obj.set_Next (Some (List.length (objs (base s)))) o))
    /\ types (base s') = types (base s).
Proof.
  intros Htop Hc Hnone Hf.
  exact (NewObj_appends fuel id class s h l Htop Hc Hnone Hf).
Qed.

(** [NewObj] with a name that the top scope has. *)
Lemma NewObj_existing (fuel : nat) (id : ors.Ident) (class : Z)
    (s : State) (h i : nat) (l : list nat) :
  TopScope (base s) = Some h ->
  isChain (objs (base s)) (Some h) (h :: l) = true ->
  named (objs (base s)) id l = Some i ->
  (List.length l < fuel)%nat ->
  NewObj fuel id class s
  = Some (Some i, set_sc (orsSpec.afterMark "mult def" (sc s)) s).
Proof.
  intros Htop Hc Hnamed Hf.
  destruct (NewObj_loop id s l fuel h Hc) as (Hl & o & Ho & Hnext).
  { pose proof (before_length (objs (base s)) id l). lia. }
  rewrite Hnamed in Hnext.
  unfold NewObj, bind at 1, gets at 1. rewrite Htop.
  unfold bind at 1. rewrite Hl.
  unfold bind at 1. rewrite (objAt_eq s _ o Ho), Hnext. reflexivity.
Qed.

(** X13: [NewObj] with a name that the top scope has reports [mult def]
    and delivers the object of that name; the table is left as it is. *)
Theorem NewObj_duplicate (fuel : nat) (id : ors.Ident) (class : Z)
    (s : State) (h i : nat) (l : list nat) :
  TopScope (base s) = Some h ->
  isChain (objs (base s)) (Some h) (h :: l) = true ->
  named (objs (base s)) id l = Some i ->
  (List.length l < fuel)%nat ->
  NewObj fuel id class s
  = Some (Some i, set_sc (orsSpec.afterMark "mult def" (sc s)) s).
Proof.
  intros Htop Hc Hnamed Hf.
  exact (NewObj_existing fuel id class s h i l Htop Hc Hnamed Hf).
Qed.

(** A name that the top scope has is found there. *)
Lemma ThisObj_top (fuel : nat) (s : State) (h i : nat) (l : list nat) :
  TopScope (base s) = Some h ->
  isChain (objs (base s)) (Some h) (h :: l) = true ->
  named (objs (base s)) (ors.Id (sc s)) l = Some i ->
  (List.length l < fuel)%nat ->
  ThisObj fuel s = Some (Some i, s).
Proof.
  intros Htop Hc Hnamed Hf.
  apply isChain_cons in Hc. destruct Hc as (_ & oh & Hoh & Hc).
  unfold ThisObj, bind at 1, gets at 1. rewrite Htop.
  destruct fuel as [|n]; [lia|]. rewrite loop_S.
  unfold bind at 1. rewrite (objAt_eq s h oh Hoh).
  unfold bind at 1, gets at 1. unfold bind at 1.
  rewrite (findName_named _ s l)
    by (try exact Hc; pose proof (before_length (objs (base s))
                                    (ors.Id (sc s)) l); lia).
  rewrite Hnamed. destruct (Obj.Dsc oh); reflexivity.
Qed.

(** X14: what [NewObj] delivers for the scanner's identifier, [ThisObj]
    finds afterwards. *)
Theorem NewObj_then_ThisObj (fuel : nat) (class : Z) (s s' : State)
    (h : nat) (l : list nat) (obj : ptr) :
  TopScope (base s) = Some h ->
  isChain (objs (base s)) (Some h) (h :: l) = true ->
  (S (List.length l) < fuel)%nat ->
  NewObj fuel (ors.Id (sc s)) class s = Some (obj, s') ->
  ThisObj fuel s' = Some (obj, s').
Proof.
  intros Htop Hc Hf H.
  destruct (named (objs (base s)) (ors.Id (sc s)) l) as [i|] eqn:En.
  - rewrite (NewObj_existing fuel _ class s h i l Htop Hc En) in H by lia.
    inversion H; subst; clear H.
    apply (ThisObj_top fuel _ h i l); try assumption. lia.
  - destruct (NewObj_appends fuel _ class s h l Htop Hc En)
      as (s1 & H1 & Hsc & _ & _ & Htop1 & Hc1 & _ & Hn1 & _); [lia|].
    rewrite H1 in H. inversion H; subst; clear H.
    apply (ThisObj_top fuel _ h _ (l ++ [List.length (objs (base s))]));
      try assumption.
    + rewrite Hsc. exact Hn1.
    + rewrite length_app. simpl. lia.
Qed.

Lemma isChain_frame (objs objs' : list Obj.t) (l : list nat) :
  forall p : ptr,
    (forall j o, nth_error objs j = Some o -> nth_error objs' j = Some o) ->
    isChain objs p l = true -> isChain objs' p l = true.
Proof.
  induction l as [|i l IH]; intros p Hsame H; [exact H|].
  apply isChain_cons in H. destruct H as (-> & o & Ho & H).
  cbn [isChain]. rewrite Nat.eqb_refl, (Hsame i o Ho). cbn [andb].
  exact (IH _ Hsame H).
Qed.

Lemma named_frame (objs objs' : list Obj.t) (id : ors.Ident)
    (l : list nat) :
  forall p : ptr,
    (forall j o, nth_error objs j = Some o -> nth_error objs' j = Some o) ->
    isChain objs p l = true ->
    named objs' id l = named objs id l.
Proof.
  induction l as [|i l IH]; intros p Hsame H; [reflexivity|].
  apply isChain_cons in H. destruct H as (-> & o & Ho & H).
  cbn [named]. unfold nameIs. rewrite (Hsame i o Ho), Ho.
  rewrite (IH _ Hsame H). reflexivity.
Qed.

(** The scopes and what is found in them do not depend on objects that
    are added to the store. *)
Lemma isScopes_frame (objs objs' : list Obj.t) (id : ors.Ident)
    (ss : list (nat * list nat)) :
  forall p : ptr,
    (forall j o, nth_error objs j = Some o -> nth_error objs' j = Some o) ->
    isScopes objs p ss = true ->
    isScopes objs' p ss = true /\ lookupIn objs' id ss = lookupIn objs id ss.
Proof.
  induction ss as [|[h l] ss IH]; intros p Hsame H; [auto|].
  cbn [isScopes] in *. destruct p as [j|]; [|discriminate].
  apply andb_prop in H. destruct H as [E H]. rewrite E. cbn [andb].
  destruct (nth_error objs h) as [oh|] eqn:Eh; [|discriminate].
  rewrite (Hsame h oh Eh).
  apply andb_prop in H. destruct H as [Hc Hs].
  rewrite (isChain_frame _ _ _ _ Hsame Hc). cbn [andb lookupIn].
  rewrite (named_frame _ _ id _ _ Hsame Hc).
  destruct (IH _ Hsame Hs) as [H1 H2]. rewrite H1, H2. auto.
Qed.

(** X15: block structure: a declaration made between [OpenScope] and
    [CloseScope] is not seen afterwards; [ThisObj] answers as it did
    before the scope was opened. *)
Theorem inner_scope_closed (fuel : nat) (id : ors.Ident) (class : Z)
    (s : State) (ss : list (nat * list nat)) :
  isScopes (objs (base s)) (TopScope (base s)) ss = true -> ss <> [] ->
  forallb (fun hl => Nat.ltb (List.length (snd hl)) fuel) ss = true ->
  (List.length ss <= fuel)%nat ->
  exists obj s',
    (zoom base set_base OpenScope ;;
     obj <- NewObj fuel id class ;;
     zoom base set_base CloseScope ;;
     ret obj) s = Some (obj, s') /\
    TopScope (base s') = TopScope (base s) /\
    sc s' = sc s /\
    eval (ThisObj fuel) s' = eval (ThisObj fuel) s.
Proof.
  intros Hs Hne Hf Hn.
  assert (Hpos : (0 < fuel)%nat)
    by (destruct ss; [congruence | simpl in Hn; lia]).
  set (n := List.length (objs (base s))).
  set (head := Obj.mk ClassHead 0 false false 0 None (TopScope (base s))
                 None EmptyString EmptyString 0).
  set (s1 := set_base (set_TopScope (Some n)
                         (set_objs (objs (base s) ++ [head]) (base s))) s).
  assert (H1 : zoom base set_base OpenScope s = Some (tt, s1)) by reflexivity.
  assert (Hh : nth_error (objs (base s1)) n = Some head).
  { unfold s1. cbn [base set_base objs set_objs set_TopScope].
    rewrite nth_error_app2 by (fold n; lia). fold n.
    rewrite Nat.sub_diag. reflexivity. }
  destruct (NewObj_appends fuel id class s1 n [])
    as (s2 & H2 & Hsc & Hbuf & Hfs & Htop & _ & _ & _ & Hkeep & Hlast & _).
  { reflexivity. }
  { cbn [isChain]. rewrite Nat.eqb_refl, Hh. reflexivity. }
  { reflexivity. }
  { simpl. exact Hpos. }
  cbn [last] in Hkeep, Hlast. specialize (Hlast head Hh).
  set (s3 := set_base (set_TopScope (TopScope (base s)) (base s2)) s2).
  assert (H3 : zoom base set_base CloseScope s2 = Some (tt, s3)).
  { unfold zoom, CloseScope, bind, gets, get, must, modify.
    rewrite Htop, Hlast. reflexivity. }
  assert (Hsame : forall j o, nth_error (objs (base s)) j = Some o ->
                              nth_error (objs (base s3)) j = Some o).
  { intros j o Ho. unfold s3. cbn [base set_base objs set_TopScope].
    assert (Hj : (j < n)%nat) by (apply nth_error_Some; congruence).
    apply Hkeep; [|lia]. unfold s1.
    cbn [base set_base objs set_objs set_TopScope].
    rewrite nth_error_app1 by exact Hj. exact Ho. }
  destruct (isScopes_frame _ _ (ors.Id (sc s)) ss _ Hsame Hs) as [Hs3 Hl3].
  assert (Hthis : ThisObj fuel s3
                  = Some (lookupIn (objs (base s)) (ors.Id (sc s)) ss, s3)).
  { rewrite <- Hl3.
    replace (ors.Id (sc s)) with (ors.Id (sc s3))
      by (unfold s3; cbn [sc set_base]; rewrite Hsc; reflexivity).
    unfold ThisObj, bind at 1, gets at 1.
    apply ThisObj_loop; assumption. }
  exists (Some (List.length (objs (base s1)))), s3.
  split.
  { unfold bind at 1. rewrite H1. unfold bind at 1. rewrite H2.
    unfold bind at 1. rewrite H3. reflexivity. }
  split; [reflexivity|]. split; [exact Hsc|].
  assert (Hbefore : ThisObj fuel s
                    = Some (lookupIn (objs (base s)) (ors.Id (sc s)) ss, s)).
  { unfold ThisObj, bind at 1, gets at 1.
    apply ThisObj_loop; assumption. }
  unfold eval. rewrite Hthis, Hbefore. reflexivity.
Qed.

Lemma ThisObj_lookup_witness :
  ThisObj 64 (Scenarios.lookingFor "CHAR" (Scenarios.stateK []))
  = Some (lookupIn
            (objs (base (Scenarios.lookingFor "CHAR" (Scenarios.stateK []))))
            (ors.Id (sc (Scenarios.lookingFor "CHAR" (Scenarios.stateK []))))
            [(43, [44]); (30, rev (seq 0 30))]%nat,
          Scenarios.lookingFor "CHAR" (Scenarios.stateK [])).
Proof.
  apply (ThisObj_lookup 64
           (Scenarios.lookingFor "CHAR" (Scenarios.stateK []))
           [(43, [44]); (30, rev (seq 0 30))]%nat);
    [ vm_compute; reflexivity | discriminate | vm_compute; reflexivity
    | simpl; lia ].
Defined.

Lemma NewObj_fresh_witness :
  exists s',
    NewObj 64 "L" ClassVar (Scenarios.stateK [])
    = Some (Some (List.length (objs (base (Scenarios.stateK [])))), s') /\
    sc s' = sc (Scenarios.stateK []).
Proof.
  destruct (NewObj_fresh 64 "L" ClassVar (Scenarios.stateK []) 43 [44%nat])
    as (s' & H1 & H2 & _);
    [ vm_compute; reflexivity | vm_compute; reflexivity
    | vm_compute; reflexivity | simpl; lia | ].
  exists s'. split; [exact H1 | exact H2].
Defined.

Lemma NewObj_duplicate_witness :
  NewObj 64 "K" ClassVar (Scenarios.stateK [])
  = Some (Some 44%nat,
          set_sc (orsSpec.afterMark "mult def" (sc (Scenarios.stateK [])))
            (Scenarios.stateK [])).
Proof.
  apply (NewObj_duplicate 64 "K" ClassVar (Scenarios.stateK []) 43 44
           [44%nat]);
    [ vm_compute; reflexivity | vm_compute; reflexivity
    | vm_compute; reflexivity | simpl; lia ].
Defined.

Lemma NewObj_then_ThisObj_witness :
  exists obj s',
    NewObj 64 "L" ClassVar (Scenarios.lookingFor "L" (Scenarios.stateK []))
    = Some (obj, s') /\
    ThisObj 64 s' = Some (obj, s').
Proof.
  assert (H : exists obj s',
            NewObj 64 (ors.Id (sc (Scenarios.lookingFor "L"
                                     (Scenarios.stateK []))))
              ClassVar (Scenarios.lookingFor "L" (Scenarios.stateK []))
            = Some (obj, s'))
    by (eexists; eexists; vm_compute; reflexivity).
  destruct H as (obj & s' & H). exists obj, s'. split; [exact H|].
  apply (NewObj_then_ThisObj 64 ClassVar
           (Scenarios.lookingFor "L" (Scenarios.stateK [])) s' 43 [44%nat]);
    [ vm_compute; reflexivity | vm_compute; reflexivity | simpl; lia
    | exact H ].
Defined.

Lemma inner_scope_closed_witness :
  exists obj s',
    (zoom base set_base OpenScope ;;
     obj <- NewObj 64 "CHAR" ClassVar ;;
     zoom base set_base CloseScope ;;
     ret obj) (Scenarios.lookingFor "CHAR" (Scenarios.stateK []))
    = Some (obj, s') /\
    TopScope (base s')
    = TopScope (base (Scenarios.lookingFor "CHAR" (Scenarios.stateK []))) /\
    sc s' = sc (Scenarios.lookingFor "CHAR" (Scenarios.stateK [])) /\
    eval (ThisObj 64) s'
    = eval (ThisObj 64) (Scenarios.lookingFor "CHAR" (Scenarios.stateK [])).
Proof.
  apply (inner_scope_closed 64 "CHAR" ClassVar
           (Scenarios.lookingFor "CHAR" (Scenarios.stateK []))
           [(43, [44]); (30, rev (seq 0 30))]%nat);
    [ vm_compute; reflexivity | discriminate | vm_compute; reflexivity
    | simpl; lia ].
Defined.
End Scopes.
